(** * OpenTLU: a shallow embedding of the runtime trust-and-safety core

    The development follows the Python sources of [opentlu]:
    - [foundations/conformal.py]   (module [Conformal])
    - [safety/monitors.py]         (module [Monitors])
    - [runtime/controller.py]      (module [Controller])
    - [safety/filter.py]           (module [Filter])
    - [evaluation/statistics.py]   (module [Statistics])
    - [evaluation/deployment.py]   (module [Deployment])
    - [runtime/health.py]          (module [Health])

    Numbers.  A Python [float] is modelled by an exact rational ([Q]),
    extended with the special values the code writes down itself
    ([float("inf")], [np.nan]) where a field can hold them.  Rounding of
    IEEE arithmetic is not modelled.  Equality of rationals is [Qeq]
    ([==]); Leibniz equality is used only where the code hands a value
    through untouched.

    Effects.  Objects are records and methods pass the record explicitly
    and return the updated one.  A raised exception is the left injection
    of [result].  Clock readings, fresh identifiers and random draws are
    arguments of the method that consumes them. *)

From Stdlib Require Import QArith Qminmax Qround Qabs Lqa ZArith Lia List Bool String Sorted.
From stdpp Require Import gmap strings list.
Import ListNotations.

Set Default Proof Using "Type".

(* ================================================================== *)
(** * Exceptions *)
(* ================================================================== *)

Module Exn.

(** One constructor per [raise] site that the modelled code can reach,
    plus the failures of the numeric library calls. *)
Inductive exn : Type :=
| InsufficientCalibration (n : nat) (required : Z)
    (* ValueError("Insufficient calibration samples: n < required") *)
| MondrianRequiresLabels
    (* ValueError("Mondrian conformal requires labels ...") *)
| LengthMismatch
    (* ValueError("Scores and labels must have same length") *)
| NumpyError
    (* np.percentile / np.quantile: level out of range, empty sample *)
| ZeroDivisionError
| KeyError (k : string)
| Raised (msg : string).
    (* an exception raised by a user supplied callable *)

Definition result (A : Type) : Type := (exn + A)%type.

Definition ok {A} (a : A) : result A := inr a.
Definition raise {A} (e : exn) : result A := inl e.

Definition bind {A B} (r : result A) (k : A -> result B) : result B :=
  match r with
  | inl e => inl e
  | inr a => k a
  end.

Definition of_option {A} (e : exn) (o : option A) : result A :=
  match o with
  | Some a => inr a
  | None => inl e
  end.

Definition is_ok {A} (r : result A) : bool :=
  match r with inr _ => true | inl _ => false end.

End Exn.

Import Exn.

Declare Scope result_scope.
Delimit Scope result_scope with result.
Notation "'do' x <- e ; k" := (bind e (fun x => k))
  (at level 10, x name, e at level 100, k at level 200, only parsing) : result_scope.
Notation "'do' ' p <- e ; k" := (bind e (fun p => k))
  (at level 10, p pattern, e at level 100, k at level 200, only parsing) : result_scope.

(* ================================================================== *)
(** * Numeric kernel: floats, vectors, quantiles *)
(* ================================================================== *)

Module Numeric.

Local Open Scope Q_scope.

(** ** Comparisons on rationals as booleans *)

Definition Qleb (x y : Q) : bool := Qle_bool x y.
Definition Qltb (x y : Q) : bool := negb (Qle_bool y x).

(** Python's [min(a, b)] and [max(a, b)] keep the first argument unless
    the second is strictly smaller (resp. larger). *)
Definition py_min (a b : Q) : Q := if Qltb b a then b else a.
Definition py_max (a b : Q) : Q := if Qltb a b then b else a.

(** ** Extended floats *)

Inductive pyfloat : Type :=
| Fin (q : Q)
| PInf
| NInf
| NaN.

(** [a <= b] on floats; every comparison with [nan] is false. *)
Definition fle (a b : pyfloat) : bool :=
  match a, b with
  | NaN, _ | _, NaN => false
  | NInf, _ => true
  | _, PInf => true
  | Fin x, Fin y => Qleb x y
  | _, _ => false
  end.

Definition flt (a b : pyfloat) : bool :=
  match a, b with
  | NaN, _ | _, NaN => false
  | PInf, _ => false
  | _, NInf => false
  | Fin x, Fin y => Qltb x y
  | _, _ => true
  end.

Definition fneg (a : pyfloat) : pyfloat :=
  match a with
  | Fin x => Fin (- x)
  | PInf => NInf
  | NInf => PInf
  | NaN => NaN
  end.

Definition fadd (a b : pyfloat) : pyfloat :=
  match a, b with
  | NaN, _ | _, NaN => NaN
  | PInf, NInf | NInf, PInf => NaN
  | PInf, _ | _, PInf => PInf
  | NInf, _ | _, NInf => NInf
  | Fin x, Fin y => Fin (x + y)
  end.

Definition fsub (a b : pyfloat) : pyfloat := fadd a (fneg b).

(** Division of a float by a positive count. *)
Definition fdiv_count (a : pyfloat) (n : nat) : pyfloat :=
  match n with
  | O => NaN
  | S _ =>
      match a with
      | Fin x => Fin (x / inject_Z (Z.of_nat n))
      | other => other
      end
  end.

(** Python's [max(a, b)] on floats. *)
Definition fmax (a b : pyfloat) : pyfloat := if flt a b then b else a.

(** Float equality up to the representation of the rational. *)
Definition feq (a b : pyfloat) : Prop :=
  match a, b with
  | Fin x, Fin y => x == y
  | PInf, PInf | NInf, NInf => True
  | _, _ => False
  end.

(** ** Vectors *)

Definition vec : Type := list Q.

Definition Qsum (xs : list Q) : Q := fold_right Qplus 0 xs.

Fixpoint zip_with {A B C} (f : A -> B -> C) (xs : list A) (ys : list B) : list C :=
  match xs, ys with
  | x :: xs', y :: ys' => f x y :: zip_with f xs' ys'
  | _, _ => []
  end.

Definition vsub (x y : vec) : vec := zip_with Qminus x y.
Definition vscale (c : Q) (x : vec) : vec := map (Qmult c) x.
Definition dot (x y : vec) : Q := Qsum (zip_with Qmult x y).
Definition zeros_like (x : vec) : vec := map (fun _ => 0) x.

(** [np.linalg.norm(d) < tol], decided on the squares: for a negative
    [tol] the comparison is false, otherwise it is [d.d < tol^2]. *)
Definition norm_lt (d : vec) (tol : Q) : bool :=
  Qltb 0 tol && Qltb (dot d d) (tol * tol).

(** [np.mean]: [nan] on the empty sample. *)
Definition np_mean (xs : list Q) : pyfloat :=
  fdiv_count (Fin (Qsum xs)) (length xs).

(** [np.mean] over floats that may be infinite. *)
Definition fmean (xs : list pyfloat) : pyfloat :=
  fdiv_count (fold_right fadd (Fin 0) xs) (length xs).

(** ** Sorting and quantiles *)

Fixpoint insert_sorted (x : Q) (xs : list Q) : list Q :=
  match xs with
  | [] => [x]
  | y :: ys => if Qleb x y then x :: y :: ys else y :: insert_sorted x ys
  end.

Definition sort (xs : list Q) : list Q := fold_right insert_sorted [] xs.

(** [np.quantile(xs, level)] with the default linear interpolation:
    the virtual index is [level * (n - 1)], and the value interpolates
    between its two neighbours in the sorted sample.  The library
    rejects a level outside [0, 1]; the empty sample has no quantile. *)
Definition np_quantile (xs : list Q) (level : Q) : option Q :=
  match xs with
  | [] => None
  | x0 :: _ =>
      if Qleb 0 level && Qleb level 1 then
        let s := sort xs in
        let n := length xs in
        let pos := level * inject_Z (Z.of_nat (n - 1)) in
        let lo := Z.to_nat (Qfloor pos) in
        let frac := pos - inject_Z (Z.of_nat lo) in
        let a := nth lo s x0 in
        let b := nth (Nat.min (S lo) (n - 1)) s x0 in
        Some (a + (b - a) * frac)
      else None
  end.

(** [np.percentile(xs, p)] is [np.quantile(xs, p / 100)]. *)
Definition np_percentile (xs : list Q) (p : Q) : option Q :=
  np_quantile xs (p / 100).

(** [np.linspace(0, 1, n)]. *)
Definition linspace01 (n : nat) : list Q :=
  match n with
  | O => []
  | S O => [0]
  | S (S _) =>
      map (fun i => inject_Z (Z.of_nat i) / inject_Z (Z.of_nat (n - 1))) (seq 0 n)
  end.

(** The input of [np.asarray(scores)]: a 1-D array is reshaped to a
    single row, a 2-D array is read row by row. *)
Inductive ndarray : Type :=
| Arr1 (row : list Q)
| Arr2 (rows : list (list Q)).

Definition as_rows (a : ndarray) : list (list Q) :=
  match a with
  | Arr1 row => [row]
  | Arr2 rows => rows
  end.

(** [a.flatten()] *)
Definition flatten (a : ndarray) : list Q :=
  match a with
  | Arr1 row => row
  | Arr2 rows => concat rows
  end.

(** [np.where(row <= q)[0].tolist()] *)
Fixpoint where_le_from (i : Z) (row : list Q) (q : pyfloat) : list Z :=
  match row with
  | [] => []
  | s :: rest =>
      if fle (Fin s) q then i :: where_le_from (i + 1) rest q
      else where_le_from (i + 1) rest q
  end.

Definition where_le (row : list Q) (q : pyfloat) : list Z := where_le_from 0 row q.

(** ** Slices and dictionaries *)

(** [l[-k:]] *)
Definition py_tail_slice {X} (k : Z) (l : list X) : list X :=
  let n := Z.of_nat (length l) in
  let start := (- k)%Z in
  let start := if (start <? 0)%Z then Z.max (n + start) 0 else Z.min start n in
  drop (Z.to_nat start) l.

(** A Python dictionary with string keys, in insertion order. *)
Fixpoint dict_get {V} (k : string) (d : list (string * V)) : option V :=
  match d with
  | [] => None
  | (k', v) :: rest => if String.eqb k' k then Some v else dict_get k rest
  end.

(** [d[k] = v]: an existing key keeps its place, a new one goes last. *)
Fixpoint dict_set {V} (k : string) (v : V) (d : list (string * V)) : list (string * V) :=
  match d with
  | [] => [(k, v)]
  | (k', v') :: rest =>
      if String.eqb k' k then (k, v) :: rest else (k', v') :: dict_set k v rest
  end.

(** [del d[k]] *)
Definition dict_del {V} (k : string) (d : list (string * V)) : list (string * V) :=
  List.filter (fun e => negb (String.eqb (fst e) k)) d.

End Numeric.

Import Numeric.

(* ================================================================== *)
(** * foundations/conformal.py *)
(* ================================================================== *)

Module Conformal.

Local Open Scope Q_scope.
Local Open Scope result_scope.

Record ConformalConfig : Type := {
  coverage : Q;
  min_calibration_size : Z;
  score_clip_percentile : Q
}.

Definition default_config : ConformalConfig :=
  {| coverage := 0.9; min_calibration_size := 100; score_clip_percentile := 99 |}.

Record ConformalResult : Type := {
  prediction_set : list Z;
  set_size : nat;
  coverage_probability : Q;
  quantile : pyfloat;
  is_valid : bool;
  message : string
}.

Record CalibrationData : Type := {
  calibration_id : string;
  cal_quantile : pyfloat;
  cal_coverage : Q;
  n_samples : nat;
  method : string;
  created_at : Q
}.

(** [compute_quantile(scores, coverage)] *)
Definition compute_quantile (scores : list Q) (coverage : Q) : result pyfloat :=
  let n := length scores in
  if Nat.eqb n 0 then ok PInf
  else
    let alpha := 1 - coverage in
    let adjusted_level :=
      py_min ((1 - alpha) * (1 + 1 / inject_Z (Z.of_nat n))) 1 in
    do q <- of_option NumpyError (np_quantile scores adjusted_level);
    ok (Fin q).

(** [np.clip(scores, None, clip_value)] *)
Definition np_clip_max (scores : list Q) (clip_value : Q) : list Q :=
  map (fun s => if Qltb clip_value s then clip_value else s) scores.

(** The result returned by [predict] when no calibration is stored. *)
Definition not_calibrated (cfg : ConformalConfig) : ConformalResult :=
  {| prediction_set := [];
     set_size := 0;
     coverage_probability := coverage cfg;
     quantile := PInf;
     is_valid := false;
     message := "Predictor not calibrated. Call fit() first." |}.

(** The loop shared by the split and the adaptive [predict]: one valid
    result per row, holding the classes whose score is at most the
    quantile. *)
Definition predict_rows (cov : Q) (q : pyfloat) (rows : list (list Q))
  : list ConformalResult :=
  map (fun sample_scores =>
         let ps := where_le sample_scores q in
         {| prediction_set := ps;
            set_size := length ps;
            coverage_probability := cov;
            quantile := q;
            is_valid := true;
            message := "" |}) rows.

(** The calibration size guard shared by the split and adaptive [fit]. *)
Definition too_few (cfg : ConformalConfig) (scores : list Q) : bool :=
  (Z.of_nat (length scores) <? min_calibration_size cfg)%Z.

(** ** SplitConformalPredictor *)
Module SplitConformalPredictor.

Record t : Type := {
  config : ConformalConfig;
  _calibration : option CalibrationData
}.

Definition init (cfg : ConformalConfig) : t :=
  {| config := cfg; _calibration := None |}.

(** [fit]; [fresh_id] is the uuid drawn by the call and [now] the
    clock reading stored in [created_at]. *)
Definition fit (self : t) (nonconformity_scores : ndarray)
    (fresh_id : string) (now : Q) : result (t * string) :=
  let cfg := config self in
  let scores := flatten nonconformity_scores in
  if too_few cfg scores then
    raise (InsufficientCalibration (length scores) (min_calibration_size cfg))
  else
    do clip_value <-
      of_option NumpyError (np_percentile scores (score_clip_percentile cfg));
    let scores := np_clip_max scores clip_value in
    do q <- compute_quantile scores (coverage cfg);
    ok ({| config := cfg;
           _calibration :=
             Some {| calibration_id := fresh_id;
                     cal_quantile := q;
                     cal_coverage := coverage cfg;
                     n_samples := length scores;
                     method := "split_conformal";
                     created_at := now |} |},
        fresh_id).

Definition predict (self : t) (scores : ndarray) : list ConformalResult :=
  match _calibration self with
  | None => [not_calibrated (config self)]
  | Some cal =>
      predict_rows (cal_coverage cal) (cal_quantile cal) (as_rows scores)
  end.

Definition get_calibration (self : t) : option CalibrationData :=
  _calibration self.

End SplitConformalPredictor.

(** ** AdaptiveConformalPredictor *)
Module AdaptiveConformalPredictor.

Record t : Type := {
  config : ConformalConfig;
  _quantile : pyfloat;
  _gamma : Q;
  _n_updates : nat;
  _coverage_history : list Q
}.

Definition init (cfg : ConformalConfig) (gamma : Q) : t :=
  {| config := cfg; _quantile := Fin 0; _gamma := gamma;
     _n_updates := 0; _coverage_history := [] |}.

Definition fit (self : t) (nonconformity_scores : ndarray)
    (fresh_id : string) : result (t * string) :=
  let cfg := config self in
  let scores := flatten nonconformity_scores in
  if too_few cfg scores then
    raise (InsufficientCalibration (length scores) (min_calibration_size cfg))
  else
    do initial_quantile <- compute_quantile scores (coverage cfg);
    ok ({| config := cfg; _quantile := initial_quantile;
           _gamma := _gamma self;
           _n_updates := 0; _coverage_history := [] |},
        fresh_id).

(** [true_label in prediction_set] *)
Definition is_covered (true_label : Z) (prediction_set : list Z) : bool :=
  existsb (Z.eqb true_label) prediction_set.

Definition update (self : t) (true_label : Z) (prediction_set : list Z) : t :=
  let covered := is_covered true_label prediction_set in
  let target := coverage (config self) in
  let q :=
    if covered
    then fsub (_quantile self) (Fin (_gamma self * (1 - target)))
    else fadd (_quantile self) (Fin (_gamma self * target)) in
  {| config := config self;
     _quantile := fmax (Fin 0) q;
     _gamma := _gamma self;
     _n_updates := S (_n_updates self);
     _coverage_history :=
       _coverage_history self ++ [if covered then 1 else 0] |}.

Definition predict (self : t) (scores : ndarray) : list ConformalResult :=
  predict_rows (coverage (config self)) (_quantile self) (as_rows scores).

(** [get_running_coverage(window)] *)
Definition get_running_coverage (self : t) (window : Z) : pyfloat :=
  match _coverage_history self with
  | [] => Fin 0
  | _ => np_mean (py_tail_slice window (_coverage_history self))
  end.

Definition default_window : Z := 100.

End AdaptiveConformalPredictor.

(** ** MondrianConformalPredictor *)
Module MondrianConformalPredictor.

Record t : Type := {
  config : ConformalConfig;
  _class_quantiles : gmap Z pyfloat;
  _n_classes : nat
}.

Definition init (cfg : ConformalConfig) : t :=
  {| config := cfg; _class_quantiles := ∅; _n_classes := 0 |}.

(** [np.unique(labels)]: the sorted distinct labels. *)
Fixpoint insert_unique (x : Z) (xs : list Z) : list Z :=
  match xs with
  | [] => [x]
  | y :: ys =>
      if (x <? y)%Z then x :: y :: ys
      else if (x =? y)%Z then y :: ys
      else y :: insert_unique x ys
  end.

Definition np_unique (labels : list Z) : list Z :=
  fold_right insert_unique [] labels.

(** [scores[labels == cls]] *)
Fixpoint masked (scores : list Q) (labels : list Z) (cls : Z) : list Q :=
  match scores, labels with
  | s :: scores', l :: labels' =>
      if (l =? cls)%Z then s :: masked scores' labels' cls
      else masked scores' labels' cls
  | _, _ => []
  end.

(** The loop over [unique_classes] filling [class_quantiles]. *)
Fixpoint fit_classes (cfg : ConformalConfig) (scores : list Q) (labels : list Z)
    (classes : list Z) (acc : gmap Z pyfloat) : result (gmap Z pyfloat) :=
  match classes with
  | [] => ok acc
  | cls :: rest =>
      let cls_scores := masked scores labels cls in
      do q <-
        (if (length cls_scores <? 10)%nat
         then compute_quantile scores (coverage cfg)
         else compute_quantile cls_scores (coverage cfg));
      fit_classes cfg scores labels rest (<[cls := q]> acc)
  end.

Definition fit (self : t) (nonconformity_scores : ndarray)
    (labels : option (list Z)) (fresh_id : string) : result (t * string) :=
  match labels with
  | None => raise MondrianRequiresLabels
  | Some labels =>
      let cfg := config self in
      let scores := flatten nonconformity_scores in
      if negb (Nat.eqb (length scores) (length labels)) then raise LengthMismatch
      else
        let unique_classes := np_unique labels in
        do class_quantiles <- fit_classes cfg scores labels unique_classes ∅;
        ok ({| config := cfg;
               _class_quantiles := class_quantiles;
               _n_classes := length unique_classes |},
            fresh_id)
  end.

(** [scores.shape[1]] of the row view. *)
Definition n_columns (rows : list (list Q)) : nat :=
  match rows with
  | [] => 0
  | r :: _ => length r
  end.

Definition predict_row (class_quantiles : gmap Z pyfloat) (n_classes : nat)
    (cov : Q) (sample_scores : list Q) : ConformalResult :=
  let fallback := fmean ((map_to_list class_quantiles).*2) in
  let ps :=
    List.filter (fun cls : nat =>
                   let q := default fallback (class_quantiles !! Z.of_nat cls) in
                   match sample_scores !! cls with
                   | Some s => fle (Fin s) q
                   | None => false
                   end) (seq 0 n_classes) in
  let avg_quantile :=
    match ps with
    | [] => Fin 0
    | _ => fmean (map (fun cls => default (Fin 0) (class_quantiles !! Z.of_nat cls)) ps)
    end in
  {| prediction_set := map Z.of_nat ps;
     set_size := length ps;
     coverage_probability := cov;
     quantile := avg_quantile;
     is_valid := true;
     message := "" |}.

Definition predict (self : t) (scores : ndarray) : list ConformalResult :=
  if decide (_class_quantiles self = ∅) then [not_calibrated (config self)]
  else
    let rows := as_rows scores in
    map (predict_row (_class_quantiles self) (n_columns rows)
                     (coverage (config self))) rows.

End MondrianConformalPredictor.

(** ** The update rule as the specification words it *)

(** "[q <- q - gamma (1 - alpha)] when covered, else [q <- q + gamma alpha];
    floor at 0", with [alpha = 1 - coverage]. *)
Definition spec_update_quantile (cov gamma : Q) (q : pyfloat) (covered : bool)
  : pyfloat :=
  let alpha := 1 - cov in
  fmax (Fin 0)
    (if covered then fsub q (Fin (gamma * (1 - alpha)))
     else fadd q (Fin (gamma * alpha))).

(** ** ConformalCalibrationStore *)
Module ConformalCalibrationStore.

Record t : Type := {
  _calibrations : list (string * CalibrationData);
  _max_calibrations : Z
}.

Definition init (max_calibrations : Z) : t :=
  {| _calibrations := []; _max_calibrations := max_calibrations |}.

Definition default_max_calibrations : Z := 100.

(** [min(keys, key=lambda k: d[k].created_at)]: the first key whose
    calibration is the oldest; [None] stands for the [ValueError] of
    [min] on an empty sequence. *)
Definition oldest_id (d : list (string * CalibrationData)) : option string :=
  match d with
  | [] => None
  | (k, c) :: rest =>
      Some (fst (fold_left
                   (fun best e =>
                      if Qltb (created_at (snd e)) (snd best)
                      then (fst e, created_at (snd e)) else best)
                   rest (k, created_at c)))
  end.

Definition store (self : t) (calibration : CalibrationData) : result t :=
  do d <-
    (if (_max_calibrations self <=? Z.of_nat (length (_calibrations self)))%Z then
       do oldest <- of_option (Raised "ValueError") (oldest_id (_calibrations self));
       ok (dict_del oldest (_calibrations self))
     else ok (_calibrations self));
  ok {| _calibrations := dict_set (calibration_id calibration) calibration d;
        _max_calibrations := _max_calibrations self |}.

Definition get (self : t) (calibration_id : string) : option CalibrationData :=
  dict_get calibration_id (_calibrations self).

Definition list_calibrations (self : t) : list string :=
  map fst (_calibrations self).

(** A run of [store] calls. *)
Fixpoint store_all (self : t) (cs : list CalibrationData) : result t :=
  match cs with
  | [] => ok self
  | c :: rest => do self' <- store self c; store_all self' rest
  end.

End ConformalCalibrationStore.

End Conformal.

(* ================================================================== *)
(** * safety/monitors.py *)
(* ================================================================== *)

Module Monitors.

Local Open Scope Q_scope.
Local Open Scope result_scope.

(** [contracts.MonitorOutput] *)
Record MonitorOutput : Type := {
  monitor_id : string;
  triggered : bool;
  severity : Q;
  message : string;
  timestamp : Q
}.

(** An observation dictionary with numeric entries. *)
Abbreviation Observation := (gmap string Q).

Module ConstraintMonitor.

Record t : Type := {
  self_monitor_id : string;
  limit : Q;
  metric_key : string
}.

Section Check.

(** The rendering of the f-string
    [f"Value {value} exceeded limit {self.limit}"]. *)
Variable exceeded_message : Q -> Q -> string.

(** [check(state)]; [now] is the reading of [time.time()].  The
    quotient [(value - limit) / limit] is a Python float division:
    it raises when the limit is zero. *)
Definition check (self : t) (state : Observation) (now : Q)
  : result MonitorOutput :=
  let value := default 0 (state !! metric_key self) in
  let triggered := Qltb (limit self) value in
  do severity <-
    (if triggered then
       if Qeq_bool (limit self) 0 then raise ZeroDivisionError
       else ok ((value - limit self) / limit self)
     else ok 0);
  let severity := py_min (py_max severity 0) 1 in
  ok {| monitor_id := self_monitor_id self;
        triggered := triggered;
        severity := severity;
        message :=
          if triggered then exceeded_message value (limit self) else "OK";
        timestamp := now |}.

End Check.

End ConstraintMonitor.

(** ** GeofenceMonitor *)
Module GeofenceMonitor.

Record t : Type := {
  self_monitor_id : string;
  bounds : Q * Q * Q * Q        (* (x_min, y_min, x_max, y_max) *)
}.

Section Check.

(** The rendering of the f-string
    [f"Position ({x}, {y}) out of bounds {self.bounds}"]. *)
Variable out_of_bounds_message : Q -> Q -> Q * Q * Q * Q -> string.

(** [check(state)]; [now] is the reading of [time.time()]. *)
Definition check (self : t) (state : Observation) (now : Q) : MonitorOutput :=
  let x := default 0 (state !! "x"%string) in
  let y := default 0 (state !! "y"%string) in
  let '(x_min, y_min, x_max, y_max) := bounds self in
  let triggered :=
    negb ((Qleb x_min x && Qleb x x_max) && (Qleb y_min y && Qleb y y_max)) in
  {| monitor_id := self_monitor_id self;
     triggered := triggered;
     severity := if triggered then 1 else 0;
     message :=
       if triggered then out_of_bounds_message x y (bounds self) else "OK";
     timestamp := now |}.

End Check.

End GeofenceMonitor.

(** ** Time to collision *)

(** [TTCConfig] *)
Record TTCConfig : Type := {
  critical_ttc : Q;
  warning_ttc : Q;
  model : string;
  debounce_steps : Z;
  min_closing_velocity : Q
}.

Definition default_ttc_config : TTCConfig :=
  {| critical_ttc := 1; warning_ttc := 3; model := "constant_velocity";
     debounce_steps := 3; min_closing_velocity := 0.1 |}.

(** [TrackedObject] *)
Record TrackedObject : Type := {
  object_id : string;
  position : vec;
  velocity : vec;
  acceleration : option vec
}.

(** A time to collision: a finite float or [float("inf")]; the two
    kinematic models return nothing else. *)
Inductive ttc_value : Type :=
| Seconds (t : Q)
| Never.

(** [a < b] on times to collision. *)
Definition ttc_lt (a b : ttc_value) : bool :=
  match a, b with
  | Seconds x, Seconds y => Qltb x y
  | Seconds _, Never => true
  | Never, _ => false
  end.

(** [a - b] on one-dimensional arrays: same length, or one of them of
    length one (broadcast); numpy raises otherwise. *)
Definition np_sub (a b : vec) : result vec :=
  if (length a =? length b)%nat then ok (vsub a b)
  else
    match a, b with
    | [x], _ => ok (map (fun y => x - y) b)
    | _, [y] => ok (map (fun x => x - y) a)
    | _, _ => raise NumpyError
    end.

(** [np.dot(a, b)] on one-dimensional arrays: the lengths must agree. *)
Definition np_dot (a b : vec) : result Q :=
  if (length a =? length b)%nat then ok (dot a b) else raise NumpyError.

(** Python's [min] of a non-empty list, from its first element. *)
Definition py_min_list (x : Q) (xs : list Q) : Q := fold_left py_min xs x.

Section Kinematics.

(** [np.linalg.norm] and [np.sqrt]. *)
Variable norm : vec -> Q.
Variable np_sqrt : Q -> Q.

Definition constant_velocity_ttc (ego_pos ego_vel obj_pos obj_vel : vec)
    (min_closing_velocity : Q) : result ttc_value :=
  do rel_pos <- np_sub obj_pos ego_pos;
  let distance := norm rel_pos in
  if Qltb distance (1 # 1000000) then ok (Seconds 0)
  else
    do rel_vel <- np_sub ego_vel obj_vel;
    do d <- np_dot rel_vel rel_pos;
    let closing_velocity := d / distance in
    if Qltb closing_velocity min_closing_velocity then ok Never
    else
      (* [distance / closing_velocity] on numpy floats: [inf] when the
         closing velocity is zero, the distance being positive here; a
         zero can only pass the test above for a threshold that is not
         positive, and its sign is not modelled *)
      if Qeq_bool closing_velocity 0 then ok Never
      else ok (Seconds (py_max 0 (distance / closing_velocity))).

Definition constant_acceleration_ttc (ego_pos ego_vel obj_pos obj_vel : vec)
    (ego_acc obj_acc : option vec) : result ttc_value :=
  do rel_pos <- np_sub obj_pos ego_pos;
  let distance := norm rel_pos in
  if Qltb distance (1 # 1000000) then ok (Seconds 0)
  else
    let direction := map (fun x => x / distance) rel_pos in
    do rel_vel <- np_sub ego_vel obj_vel;
    do v_rel <- np_dot rel_vel direction;
    do a_rel <-
      match ego_acc, obj_acc with
      | Some ea, Some oa => do rel_acc <- np_sub ea oa; np_dot rel_acc direction
      | _, _ => ok 0
      end;
    let a := 0.5 * a_rel in
    let b := v_rel in
    let c := - distance in
    if Qltb (Qabs a) (1 # 10000000000) then
      if Qltb (1 # 1000000) b then ok (Seconds (distance / b)) else ok Never
    else
      let discriminant := b * b - 4 * a * c in
      if Qltb discriminant 0 then ok Never
      else
        let sqrt_disc := np_sqrt discriminant in
        let t1 := (- b + sqrt_disc) / (2 * a) in
        let t2 := (- b - sqrt_disc) / (2 * a) in
        match List.filter (fun t => Qltb 0 t) [t1; t2] with
        | t :: rest => ok (Seconds (py_min_list t rest))
        | [] => ok Never
        end.

End Kinematics.

(** ** TTCMonitor *)
Module TTCMonitor.

Record t : Type := {
  self_monitor_id : string;
  config : TTCConfig;
  _trigger_history : list bool;
  _last_triggered_object : option string
}.

Definition init (monitor_id : string) (config : option TTCConfig) : t :=
  {| self_monitor_id := monitor_id;
     config := default default_ttc_config config;
     _trigger_history := [];
     _last_triggered_object := None |}.

(** One entry of [state["objects"]]: a dictionary in which each of the
    keys may be missing. *)
Record ObjectDict : Type := {
  key_object_id : option string;
  key_position : option vec;
  key_velocity : option vec;
  key_acceleration : option vec
}.

(** The entries of the state dictionary that [check] reads. *)
Record State : Type := {
  ego_position : option vec;
  ego_velocity : option vec;
  objects : option (list ObjectDict)
}.

(** [TrackedObject(object_id=..., position=..., ...)] from a dictionary. *)
Definition tracked (obj_dict : ObjectDict) : result TrackedObject :=
  do p <- of_option (KeyError "position") (key_position obj_dict);
  do v <- of_option (KeyError "velocity") (key_velocity obj_dict);
  ok {| object_id := default "unknown"%string (key_object_id obj_dict);
        position := p; velocity := v;
        acceleration := key_acceleration obj_dict |}.

Fixpoint tracked_all (objects_data : list ObjectDict) : result (list TrackedObject) :=
  match objects_data with
  | [] => ok []
  | d :: rest =>
      do obj <- tracked d;
      do objs <- tracked_all rest;
      ok (obj :: objs)
  end.

(** [sum(history)] *)
Definition trigger_count (history : list bool) : nat :=
  length (List.filter (fun b => b) history).

Section Check.

Variable norm : vec -> Q.
Variable np_sqrt : Q -> Q.

(** The renderings of the three f-strings of [check]. *)
Variable critical_message : Q -> option string -> string.
Variable warning_message : Q -> option string -> string.
Variable safe_message : Q -> string.

Definition _compute_ttc (self : t) (ego_pos ego_vel : vec) (obj : TrackedObject)
  : result ttc_value :=
  if String.eqb (model (config self)) "constant_velocity" then
    constant_velocity_ttc norm ego_pos ego_vel (position obj) (velocity obj)
      (min_closing_velocity (config self))
  else
    constant_acceleration_ttc norm np_sqrt ego_pos ego_vel (position obj)
      (velocity obj) (acceleration obj) (acceleration obj).

(** The loop that keeps the smallest time and the object it belongs to. *)
Fixpoint min_ttc_loop (self : t) (ego_pos ego_vel : vec) (objs : list TrackedObject)
    (min_ttc : ttc_value) (min_ttc_object : option string)
  : result (ttc_value * option string) :=
  match objs with
  | [] => ok (min_ttc, min_ttc_object)
  | obj :: rest =>
      do ttc <- _compute_ttc self ego_pos ego_vel obj;
      if ttc_lt ttc min_ttc
      then min_ttc_loop self ego_pos ego_vel rest ttc (Some (object_id obj))
      else min_ttc_loop self ego_pos ego_vel rest min_ttc min_ttc_object
  end.

(** The severity computed from the smallest time. *)
Definition ttc_severity (self : t) (min_ttc : ttc_value) : Q :=
  match min_ttc with
  | Never => 0
  | Seconds m =>
      if Qleb (warning_ttc (config self)) m then 0
      else if Qleb m 0 then 1
      else py_min (py_max (1 - m / warning_ttc (config self)) 0) 1
  end.

(** [check(state)]; [now] is the reading of [time.time()]. *)
Definition check (self : t) (state : State) (now : Q) : result (t * MonitorOutput) :=
  let ego_pos := default [0; 0] (ego_position state) in
  let ego_vel := default [0; 0] (ego_velocity state) in
  let objects_data := default [] (objects state) in
  match objects_data with
  | [] =>
      ok (self,
          {| monitor_id := self_monitor_id self;
             triggered := false;
             severity := 0;
             message := "No objects to track";
             timestamp := now |})
  | _ =>
      do objs <- tracked_all objects_data;
      do found <- min_ttc_loop self ego_pos ego_vel objs Never None;
      let '(min_ttc, min_ttc_object) := found in
      let severity := ttc_severity self min_ttc in
      let triggered := ttc_lt min_ttc (Seconds (critical_ttc (config self))) in
      let history := _trigger_history self ++ [triggered] in
      let history :=
        if (debounce_steps (config self) <? Z.of_nat (length history))%Z
        then tail history else history in
      let final_triggered :=
        if (1 <? debounce_steps (config self))%Z
        then (length history / 2 <? trigger_count history)%nat
        else triggered in
      let message :=
        match min_ttc with
        | Never => "No collision predicted"%string
        | Seconds m =>
            if final_triggered then critical_message m min_ttc_object
            else if Qltb 0 severity then warning_message m min_ttc_object
            else safe_message m
        end in
      ok ({| self_monitor_id := self_monitor_id self;
             config := config self;
             _trigger_history := history;
             _last_triggered_object :=
               if final_triggered then min_ttc_object else None |},
          {| monitor_id := self_monitor_id self;
             triggered := final_triggered;
             severity := severity;
             message := message;
             timestamp := now |})
  end.

(** A run of [check] calls on one monitor, with the clock reading of
    each; the outputs are collected in call order. *)
Fixpoint check_run (self : t) (calls : list (State * Q))
  : result (t * list MonitorOutput) :=
  match calls with
  | [] => ok (self, [])
  | (state, now) :: rest =>
      do r <- check self state now;
      do r' <- check_run (fst r) rest;
      ok (fst r', snd r :: snd r')
  end.

Definition get_last_triggered_object (self : t) : option string :=
  _last_triggered_object self.

End Check.

End TTCMonitor.

End Monitors.

(* ================================================================== *)
(** * runtime/controller.py *)
(* ================================================================== *)

Module Controller.

Import Monitors.
Local Open Scope Q_scope.
Local Open Scope result_scope.

(** [contracts.MitigationState] *)
Inductive MitigationState : Type :=
| NOMINAL
| CAUTIOUS
| FALLBACK
| SAFE_STOP
| HUMAN_ESCALATION.

(** [contracts.UncertaintyEstimate] *)
Record UncertaintyEstimate : Type := {
  confidence : Q;
  aleatoric_score : Q;
  epistemic_score : Q;
  source : string;
  conformal_set_size : nat;
  coverage_probability : Q;
  prediction_set : list Z
}.

(** A monitor as the controller sees it: its bound [check] method. *)
Definition BaseMonitor : Type := Observation -> result MonitorOutput.

Record MitigationController : Type := {
  monitors : list BaseMonitor;
  uncertainty_threshold : Q;
  ood_threshold : Q;
  current_state : MitigationState
}.

Definition init (monitors : list BaseMonitor)
    (uncertainty_threshold ood_threshold : Q) : MitigationController :=
  {| monitors := monitors;
     uncertainty_threshold := uncertainty_threshold;
     ood_threshold := ood_threshold;
     current_state := NOMINAL |}.

Definition default_uncertainty_threshold : Q := 0.5.
Definition default_ood_threshold : Q := 0.8.

(** [[m.check(state) for m in self.monitors]] *)
Fixpoint check_all (ms : list BaseMonitor) (state : Observation)
  : result (list MonitorOutput) :=
  match ms with
  | [] => ok []
  | m :: rest =>
      do o <- m state;
      do os <- check_all rest state;
      ok (o :: os)
  end.

(** Python's [max] of a non-empty list, from its first element. *)
Definition py_max_list (x : Q) (xs : list Q) : Q := fold_left py_max xs x.

(** [max([m.severity for m in monitor_outputs]) if monitor_outputs else 0.0] *)
Definition max_severity (monitor_outputs : list MonitorOutput) : Q :=
  match map severity monitor_outputs with
  | [] => 0
  | s :: rest => py_max_list s rest
  end.

(** The [if / elif / elif] ladder of [step]. *)
Definition transition (self : MitigationController) (max_sev : Q)
    (uncertainty : UncertaintyEstimate) (ood_score : Q) : MitigationState :=
  if Qleb 1 max_sev then SAFE_STOP
  else if Qltb (ood_threshold self) ood_score || Qltb 0.1 max_sev then FALLBACK
  else if Qltb (uncertainty_threshold self) (epistemic_score uncertainty) then CAUTIOUS
  else NOMINAL.

Definition set_current_state (self : MitigationController) (s : MitigationState)
  : MitigationController :=
  {| monitors := monitors self;
     uncertainty_threshold := uncertainty_threshold self;
     ood_threshold := ood_threshold self;
     current_state := s |}.

Definition step (self : MitigationController) (state : Observation)
    (uncertainty : UncertaintyEstimate) (ood_score : Q)
  : result (MitigationController * MitigationState) :=
  do monitor_outputs <- check_all (monitors self) state;
  let max_sev := max_severity monitor_outputs in
  let new_state := transition self max_sev uncertainty ood_score in
  ok (set_current_state self new_state, new_state).

End Controller.

(* ================================================================== *)
(** * safety/filter.py *)
(* ================================================================== *)

Module Filter.

Local Open Scope Q_scope.
Local Open Scope result_scope.

Record FilteredAction : Type := {
  action : vec;
  was_modified : bool;
  constraint_margins : gmap string Q;
  fallback_used : bool;
  violation_type : option string
}.

Record BoxConstraint : Type := {
  lower : vec;
  upper : vec;
  box_name : string
}.

Record LinearConstraint : Type := {
  A : list vec;
  b : vec;
  lin_name : string
}.

(** The [DynamicsModel] protocol; a call may raise. *)
Record DynamicsModel : Type := {
  predict : vec -> vec -> result vec
}.

(** ** Array helpers *)

(** [np.clip(a, lo, hi)], elementwise [minimum(maximum(a, lo), hi)]. *)
Fixpoint np_clip (a lo hi : vec) : vec :=
  match a, lo, hi with
  | x :: a', l :: lo', u :: hi' =>
      (let m := if Qltb x l then l else x in if Qltb u m then u else m)
        :: np_clip a' lo' hi'
  | _, _, _ => []
  end.

(** [np.allclose(a, b)] with the default [rtol = 1e-5], [atol = 1e-8]. *)
Definition np_allclose (a b' : vec) : bool :=
  forallb (fun d => d)
    (zip_with (fun x y => Qleb (Qabs (x - y)) ((1 # 100000000) + (1 # 100000) * Qabs y))
              a b').

(** [np.min] and [np.max] raise on an empty array. *)
Definition np_min (xs : list Q) : result Q :=
  match xs with
  | [] => raise NumpyError
  | x :: rest => ok (fold_left (fun m y => if Qltb y m then y else m) rest x)
  end.

Definition np_max (xs : list Q) : result Q :=
  match xs with
  | [] => raise NumpyError
  | x :: rest => ok (fold_left (fun m y => if Qltb m y then y else m) rest x)
  end.

(** [A @ x] *)
Definition matvec (A : list vec) (x : vec) : vec := map (fun a_i => dot a_i x) A.

(** ** box_constraint_project *)
Definition box_constraint_project (action : vec) (constraint : BoxConstraint)
  : vec * bool :=
  let projected := np_clip action (lower constraint) (upper constraint) in
  let was_modified := negb (np_allclose action projected) in
  (projected, was_modified).

(** ** linear_constraint_project *)

Definition default_max_iterations : nat := 100.
Definition default_tolerance : Q := 1 # 1000000.

(** One pass of [for i in range(len(b))]: each violated row moves [x]
    onto its half-space. *)
Fixpoint project_rows (rows : list (vec * Q)) (tolerance : Q) (x : vec) : vec :=
  match rows with
  | [] => x
  | (a_i, b_i) :: rest =>
      let violation := dot a_i x - b_i in
      let x :=
        if Qltb tolerance violation then
          let norm_sq := dot a_i a_i in
          if Qltb (1 # 10000000000) norm_sq
          then vsub x (vscale (violation / norm_sq) a_i)
          else x
        else x in
      project_rows rest tolerance x
  end.

(** [for _ in range(max_iterations)] with its early [break]. *)
Fixpoint project_loop (max_iterations : nat) (rows : list (vec * Q))
    (tolerance : Q) (x : vec) : vec :=
  match max_iterations with
  | O => x
  | S k =>
      let x_prev := x in
      let x := project_rows rows tolerance x in
      if norm_lt (vsub x x_prev) tolerance then x
      else project_loop k rows tolerance x
  end.

Definition linear_constraint_project (action : vec) (constraint : LinearConstraint)
    (max_iterations : nat) (tolerance : Q) : vec * bool :=
  let x := action in
  let violations := vsub (matvec (A constraint) x) (b constraint) in
  if forallb (fun v => Qleb v tolerance) violations then (x, false)
  else
    (project_loop max_iterations (zip_with pair (A constraint) (b constraint))
                  tolerance x,
     true).

(** ** CBFFilter *)
Module CBFFilter.

Record t : Type := {
  dynamics : DynamicsModel;
  h : vec -> result Q;
  alpha : Q
}.

Definition is_safe (self : t) (state action : vec) : result (bool * Q) :=
  do next_state <- predict (dynamics self) state action;
  do h_current <- h self state;
  do h_next <- h self next_state;
  let margin := h_next - (1 - alpha self) * h_current in
  ok (Qleb 0 margin, margin).

(** [for alpha in np.linspace(0, 1, n_samples)]: the first safe
    scaled action with its margin, if any. *)
Fixpoint line_search (self : t) (state action : vec) (fractions : list Q)
  : result (option (vec * Q)) :=
  match fractions with
  | [] => ok None
  | frac :: rest =>
      let scaled_action := vscale (1 - frac) action in
      do '(safe, margin) <- is_safe self state scaled_action;
      if safe : bool then ok (Some (scaled_action, margin))
      else line_search self state action rest
  end.

Definition default_n_samples : nat := 10.

Definition filter_action (self : t) (state action : vec) (n_samples : nat)
  : result (vec * bool * Q) :=
  do '(safe, margin) <- is_safe self state action;
  if safe : bool then ok (action, false, margin)
  else
    do found <- line_search self state action (linspace01 n_samples);
    match found with
    | Some (scaled_action, margin) => ok (scaled_action, true, margin)
    | None =>
        do h_state <- h self state;
        ok (zeros_like action, true, h_state)
    end.

End CBFFilter.

(** ** SafetyFilter *)
Module SafetyFilter.

Record t : Type := {
  box_constraints : list BoxConstraint;
  linear_constraints : list LinearConstraint;
  cbf_filter : option CBFFilter.t;
  fallback_action : option vec
}.

(** Stage 1, one box constraint. *)
Definition box_stage (acc : FilteredAction) (c : BoxConstraint)
  : result FilteredAction :=
  let '(new_action, modified) := box_constraint_project (action acc) c in
  do lower_margin <- np_min (vsub new_action (lower c));
  do upper_margin <- np_min (vsub (upper c) new_action);
  ok {| action := new_action;
        was_modified := if modified then true else was_modified acc;
        constraint_margins :=
          <[box_name c := py_min lower_margin upper_margin]> (constraint_margins acc);
        fallback_used := fallback_used acc;
        violation_type :=
          if modified then Some (box_name c) else violation_type acc |}.

(** Stage 2, one linear constraint. *)
Definition linear_stage (acc : FilteredAction) (c : LinearConstraint)
  : result FilteredAction :=
  let '(new_action, modified) :=
    linear_constraint_project (action acc) c default_max_iterations default_tolerance in
  do worst <- np_max (vsub (matvec (A c) new_action) (b c));
  ok {| action := new_action;
        was_modified := if modified then true else was_modified acc;
        constraint_margins := <[lin_name c := - worst]> (constraint_margins acc);
        fallback_used := fallback_used acc;
        violation_type :=
          if modified then Some (lin_name c) else violation_type acc |}.

(** Stage 3: the barrier filter inside its [try / except]. *)
Definition cbf_stage (self : t) (state : option vec) (acc : FilteredAction)
  : FilteredAction :=
  match cbf_filter self, state with
  | Some cbf, Some st =>
      match CBFFilter.filter_action cbf st (action acc) CBFFilter.default_n_samples with
      | inr (new_action, modified, margin) =>
          {| action := new_action;
             was_modified := if modified then true else was_modified acc;
             constraint_margins := <["cbf" := margin]> (constraint_margins acc);
             fallback_used := fallback_used acc;
             violation_type :=
               if modified then Some "cbf"%string else violation_type acc |}
      | inl _ =>
          match fallback_action self with
          | Some fb =>
              {| action := fb;
                 was_modified := true;
                 constraint_margins := constraint_margins acc;
                 fallback_used := true;
                 violation_type := violation_type acc |}
          | None => acc
          end
      end
  | _, _ => acc
  end.

(** Stage 4: a vanishing action is replaced by the fallback. *)
Definition fallback_stage (self : t) (acc : FilteredAction) : FilteredAction :=
  match fallback_action self with
  | Some fb =>
      if norm_lt (action acc) (1 # 1000000) then
        {| action := fb;
           was_modified := was_modified acc;
           constraint_margins := constraint_margins acc;
           fallback_used := true;
           violation_type := violation_type acc |}
      else acc
  | None => acc
  end.

Fixpoint fold_stage {C} (stage : FilteredAction -> C -> result FilteredAction)
    (cs : list C) (acc : FilteredAction) : result FilteredAction :=
  match cs with
  | [] => ok acc
  | c :: rest => do acc' <- stage acc c; fold_stage stage rest acc'
  end.

Definition filter (self : t) (candidate_action : vec) (state : option vec)
  : result FilteredAction :=
  let acc :=
    {| action := candidate_action;
       was_modified := false;
       constraint_margins := ∅;
       fallback_used := false;
       violation_type := None |} in
  do acc <- fold_stage box_stage (box_constraints self) acc;
  do acc <- fold_stage linear_stage (linear_constraints self) acc;
  let acc := cbf_stage self state acc in
  ok (fallback_stage self acc).

(** [np.all(x >= y)] and [np.all(x <= y)] on arrays of one shape. *)
Definition all_ge (x y : vec) : bool := forallb (fun d => d) (zip_with (fun u v => Qleb v u) x y).
Definition all_le (x y : vec) : bool := forallb (fun d => d) (zip_with Qleb x y).

(** [check_constraints(action)]: one entry per constraint name, a later
    constraint of the same name replacing an earlier one. *)
Definition check_constraints (self : t) (action : vec) : gmap string bool :=
  let results :=
    fold_left
      (fun results c =>
         <[box_name c := all_ge action (lower c) && all_le action (upper c)]> results)
      (box_constraints self) ∅ in
  fold_left
    (fun results c =>
       let violations := vsub (matvec (A c) action) (b c) in
       <[lin_name c := forallb (fun v => Qleb v 0) violations]> results)
    (linear_constraints self) results.

End SafetyFilter.

End Filter.

(* ================================================================== *)
(** * evaluation/statistics.py *)
(* ================================================================== *)

Module Statistics.

Local Open Scope Q_scope.
Local Open Scope result_scope.

Record MetricWithCI : Type := {
  value : pyfloat;
  ci_lower : pyfloat;
  ci_upper : pyfloat;
  method : string;
  n_samples : Z;
  is_degenerate : bool
}.

(** The functions of NumPy and SciPy that have no rational closed
    form are taken as given. *)
Record NumLib : Type := {
  norm_ppf : Q -> Q;               (* scipy.stats.norm.ppf *)
  beta_ppf : Q -> Q -> Q -> Q;     (* scipy.stats.beta.ppf(q, a, b) *)
  np_sqrt : Q -> Q                 (* np.sqrt *)
}.






(** [wilson_ci].  The arithmetic is exact here, where the program rounds
    every operation to a double: what is proved of this function are
    the clamps and the order of its results, which no monotone rounding
    changes, and not that the estimate lies between the two bounds. *)
Definition wilson_ci (lib : NumLib) (successes n : Z) (alpha : Q) : Q * Q * Q :=
  if (n =? 0)%Z then (0, 0, 0)
  else
    let nq := inject_Z n in
    let z := norm_ppf lib (1 - alpha / 2) in
    let p_hat := inject_Z successes / nq in
    let denominator := 1 + z * z / nq in
    let center := (p_hat + z * z / (2 * nq)) / denominator in
    let margin :=
      z * np_sqrt lib ((p_hat * (1 - p_hat) + z * z / (4 * nq)) / nq) / denominator in
    let ci_lower := py_max 0 (center - margin) in
    let ci_upper := py_min 1 (center + margin) in
    (p_hat, ci_lower, ci_upper).

(** [exact_binomial_ci] (Clopper-Pearson) *)
Definition exact_binomial_ci (lib : NumLib) (successes n : Z) (alpha : Q)
  : Q * Q * Q :=
  if (n =? 0)%Z then (0, 0, 0)
  else
    let p_hat := inject_Z successes / inject_Z n in
    let ci_lower :=
      if (successes =? 0)%Z then 0
      else beta_ppf lib (alpha / 2) (inject_Z successes) (inject_Z (n - successes + 1)) in
    let ci_upper :=
      if (successes =? n)%Z then 1
      else beta_ppf lib (1 - alpha / 2) (inject_Z (successes + 1)) (inject_Z (n - successes)) in
    (p_hat, ci_lower, ci_upper).

(** ** StatisticalEvaluator *)
Module StatisticalEvaluator.

Record t : Type := {
  acceptance_thresholds : gmap string Q;
  n_bootstrap : nat;
  alpha : Q;
  min_stratum_size : Z;
  random_state : nat -> nat -> nat
}.

Definition init (acceptance_thresholds : gmap string Q) (n_bootstrap : nat)
    (confidence_level : Q) (min_stratum_size : Z)
    (random_state : nat -> nat -> nat) : t :=
  {| acceptance_thresholds := acceptance_thresholds;
     n_bootstrap := n_bootstrap;
     alpha := 1 - confidence_level;
     min_stratum_size := min_stratum_size;
     random_state := random_state |}.


Definition compute_proportion_with_ci (lib : NumLib) (self : t)
    (successes n : Z) : MetricWithCI :=
  if (n =? 0)%Z then
    {| value := Fin 0; ci_lower := Fin 0; ci_upper := Fin 0;
       method := "none"; n_samples := 0; is_degenerate := false |}
  else
    let '(proportion, lo, hi, method) :=
      if (n <? 30)%Z
      then (exact_binomial_ci lib successes n (alpha self), "exact_binomial"%string)
      else (wilson_ci lib successes n (alpha self), "wilson"%string) in
    {| value := Fin proportion; ci_lower := Fin lo; ci_upper := Fin hi;
       method := method; n_samples := n; is_degenerate := false |}.



(** The pass rate computed by [aggregate_results] over [total > 0]
    results of which [passed_count] passed. *)
Definition pass_rate (lib : NumLib) (self : t) (passed : list bool) : MetricWithCI :=
  match passed with
  | [] => {| value := Fin 0; ci_lower := Fin 0; ci_upper := Fin 0;
             method := "none"; n_samples := 0; is_degenerate := false |}
  | _ =>
      let passed_count := Z.of_nat (length (List.filter (fun p => p) passed)) in
      compute_proportion_with_ci lib self passed_count (Z.of_nat (length passed))
  end.

End StatisticalEvaluator.

(** ** The interval invariant *)

Definition fle_prop (a b' : pyfloat) : Prop := fle a b' = true.

(** [ci_lower <= value <= ci_upper] *)
Definition ci_contains_value (m : MetricWithCI) : Prop :=
  fle_prop (ci_lower m) (value m) /\ fle_prop (value m) (ci_upper m).


End Statistics.

(* ================================================================== *)
(** * evaluation/deployment.py *)
(* ================================================================== *)

Module Deployment.

Local Open Scope Q_scope.
Local Open Scope result_scope.

Section ABTest.

(** [int(hashlib.md5(s.encode()).hexdigest(), 16)] *)
Variable md5_int : string -> Z.

(** The values a context can hold, with Python's [str]. *)
Variable Value : Type.
Variable str : Value -> string.

Variables Observation Action : Type.

(** The [Policy] protocol; a call may raise. *)
Definition Policy : Type := Observation -> result Action.

Record ABTestMetrics : Type := {
  variant_name : string;
  n_samples : nat;
  action_values : list Action;
  latencies_ms : list Q;
  errors : nat;
  custom_metrics : gmap string (list Q)
}.

Record ABTestRunner : Type := {
  policies : gmap string Policy;
  allocation : list (string * Q);
  sticky_key : string;
  _ranges : list (string * Q * Q);
  _metrics : gmap string ABTestMetrics
}.

(** The loop building [self._ranges] from the allocation, in the
    order of the dictionary. *)
Fixpoint build_ranges (current : Q) (allocation : list (string * Q))
  : list (string * Q * Q) :=
  match allocation with
  | [] => []
  | (name, fraction) :: rest =>
      (name, current, current + fraction) :: build_ranges (current + fraction) rest
  end.

Definition new_metrics (name : string) : ABTestMetrics :=
  {| variant_name := name; n_samples := 0; action_values := [];
     latencies_ms := []; errors := 0; custom_metrics := ∅ |}.

(** [__init__]; an allocation that does not sum to about one is
    rejected. *)
Definition init (policies : gmap string Policy) (allocation : list (string * Q))
    (sticky_key : string) : result ABTestRunner :=
  let total := Qsum (map snd allocation) in
  if negb (Qleb 0.99 total && Qleb total 1.01) then
    raise (Raised "Allocation must sum to 1.0")
  else
    ok {| policies := policies;
          allocation := allocation;
          sticky_key := sticky_key;
          _ranges := build_ranges 0 allocation;
          _metrics := map_imap (fun name _ => Some (new_metrics name)) policies |}.

(** [for name, low, high in self._ranges: if low <= bucket_val < high] *)
Fixpoint find_range (ranges : list (string * Q * Q)) (bucket_val : Q)
  : option string :=
  match ranges with
  | [] => None
  | (name, low, high) :: rest =>
      if Qleb low bucket_val && Qltb bucket_val high then Some name
      else find_range rest bucket_val
  end.

(** The bucket value of a key string. *)
Definition bucket_of (key : string) : Q :=
  inject_Z (md5_int key mod 10000) / 10000.

(** [_get_bucket]; [rand] is [str(np.random.random())], drawn on
    every call and used only when the sticky key is absent. *)
Definition _get_bucket (self : ABTestRunner) (context : gmap string Value)
    (rand : string) : result string :=
  let key :=
    match context !! sticky_key self with
    | Some v => str v
    | None => rand
    end in
  let bucket_val := bucket_of key in
  match find_range (_ranges self) bucket_val with
  | Some name => ok name
  | None =>
      match _ranges self with
      | (name, _, _) :: _ => ok name
      | [] => raise (Raised "IndexError")
      end
  end.

Definition set_metrics (self : ABTestRunner) (m : gmap string ABTestMetrics)
  : ABTestRunner :=
  {| policies := policies self;
     allocation := allocation self;
     sticky_key := sticky_key self;
     _ranges := _ranges self;
     _metrics := m |}.

(** The bookkeeping after a successful policy call. *)
Definition record_success (action : Action) (latency : Q) (m : ABTestMetrics)
  : ABTestMetrics :=
  let actions := action_values m ++ [action] in
  let lats := latencies_ms m ++ [latency] in
  let over := (10000 <? Z.of_nat (length actions))%Z in
  {| variant_name := variant_name m;
     n_samples := S (n_samples m);
     action_values := if over then tail actions else actions;
     latencies_ms := if over then tail lats else lats;
     errors := errors m;
     custom_metrics := custom_metrics m |}.

Definition record_error (m : ABTestMetrics) : ABTestMetrics :=
  {| variant_name := variant_name m;
     n_samples := n_samples m;
     action_values := action_values m;
     latencies_ms := latencies_ms m;
     errors := S (errors m);
     custom_metrics := custom_metrics m |}.

(** [run]; [context = None] stands for the default argument, [rand]
    is the random draw of [_get_bucket] and [latency] the measured
    duration.  The runner is returned also when the call raises: a
    failing policy is counted before its exception is re-raised.
    [self._metrics] has an entry for every key of [self.policies],
    so the entry of a variant whose policy was found is updated in
    place. *)
Definition run (self : ABTestRunner) (observation : Observation)
    (context : option (gmap string Value)) (rand : string) (latency : Q)
  : ABTestRunner * result (Action * string) :=
  let context := default ∅ context in
  match _get_bucket self context rand with
  | inl e => (self, inl e)
  | inr variant =>
      match policies self !! variant with
      | None => (self, raise (KeyError variant))
      | Some policy =>
          match policy observation with
          | inr action =>
              (set_metrics self
                 (alter (record_success action latency) variant (_metrics self)),
               ok (action, variant))
          | inl e =>
              (set_metrics self (alter record_error variant (_metrics self)),
               inl e)
          end
      end
  end.

(** A sequence of [run] calls on one runner, with the results in
    order. *)
Definition call : Type :=
  (Observation * option (gmap string Value) * string * Q)%type.

Fixpoint run_calls (self : ABTestRunner) (calls : list call)
  : ABTestRunner * list (result (Action * string)) :=
  match calls with
  | [] => (self, [])
  | (observation, context, rand, latency) :: rest =>
      let '(self', r) := run self observation context rand latency in
      let '(self'', rs) := run_calls self' rest in
      (self'', r :: rs)
  end.

End ABTest.

Arguments policies {Observation Action} _.
Arguments allocation {Observation Action} _.
Arguments sticky_key {Observation Action} _.
Arguments _ranges {Observation Action} _.
Arguments _metrics {Observation Action} _.
Arguments set_metrics {Observation Action} _ _.
Arguments init {Observation Action} _ _ _.
Arguments _get_bucket md5_int {Value} str {Observation Action} _ _ _.
Arguments run md5_int {Value} str {Observation Action} _ _ _ _ _.
Arguments run_calls md5_int {Value} str {Observation Action} _ _.

End Deployment.

(* ================================================================== *)
(** * runtime/health.py *)
(* ================================================================== *)

Module Health.

Local Open Scope Q_scope.
Local Open Scope result_scope.

Record Alert : Type := {
  rule_name : string;
  metric : string;
  severity : string;
  message : string;
  value : Q;
  threshold : Q;
  timestamp : Q
}.

(** A [NotificationChannel]: its [send] method, which may raise. *)
Definition NotificationChannel : Type := Alert -> result bool.

Record AlertRule : Type := {
  name : string;
  rule_metric : string;
  condition : Q -> bool;
  rule_threshold : Q;
  rule_severity : string;
  channels : list NotificationChannel;
  cooldown_seconds : Q;
  min_samples : Z
}.

(** [deque(maxlen=...)].append *)
Definition deque_append {X} (maxlen : nat) (d : list X) (x : X) : list X :=
  let d' := d ++ [x] in
  if (maxlen <? length d')%nat then tail d' else d'.

Section Engine.

(** The rendering of
    [f"{rule.metric} = {value:.4f} exceeds threshold {rule.threshold:.4f}"]. *)
Variable alert_message : string -> Q -> Q -> string.

Record AlertEngine : Type := {
  rules : list AlertRule;
  _last_alert : gmap string Q;
  _alert_history : list Alert
}.

Definition init (rules : list AlertRule) : AlertEngine :=
  {| rules := rules; _last_alert := ∅; _alert_history := [] |}.

Definition add_rule (self : AlertEngine) (rule : AlertRule) : AlertEngine :=
  {| rules := rules self ++ [rule];
     _last_alert := _last_alert self;
     _alert_history := _alert_history self |}.

(** [for channel in rule.channels: try: channel.send(alert) except: pass];
    neither the outcome of a send nor its exception reaches the
    engine. *)
Definition dispatch (chs : list NotificationChannel) (alert : Alert)
  : list (result bool) :=
  map (fun channel => channel alert) chs.

(** The mutable part of an evaluation: the last alert times, the
    history and the alerts triggered so far. *)
Definition eval_state : Type := (gmap string Q * list Alert * list Alert)%type.

(** One iteration of [for rule in self.rules]. *)
Definition eval_rule (metrics : gmap string Q) (sample_counts : gmap string Z)
    (now : Q) (st : eval_state) (rule : AlertRule) : eval_state :=
  let '(last_alert, history, triggered) := st in
  match metrics !! rule_metric rule with
  | None => st
  | Some value =>
      let count := default 0%Z (sample_counts !! rule_metric rule) in
      if (count <? min_samples rule)%Z then st
      else if negb (condition rule value) then st
      else
        let last := default 0 (last_alert !! name rule) in
        if Qltb (now - last) (cooldown_seconds rule) then st
        else
          let alert :=
            {| rule_name := name rule;
               metric := rule_metric rule;
               severity := rule_severity rule;
               message := alert_message (rule_metric rule) value (rule_threshold rule);
               value := value;
               threshold := rule_threshold rule;
               timestamp := now |} in
          let _ := dispatch (channels rule) alert in
          (<[name rule := now]> last_alert,
           deque_append 1000 history alert,
           triggered ++ [alert])
  end.

(** [evaluate]; [now] is the reading of [time.time()]. *)
Definition evaluate (self : AlertEngine) (metrics : gmap string Q)
    (sample_counts : gmap string Z) (now : Q) : AlertEngine * list Alert :=
  let '(last_alert, history, triggered) :=
    fold_left (eval_rule metrics sample_counts now) (rules self)
              (_last_alert self, _alert_history self, []) in
  ({| rules := rules self; _last_alert := last_alert; _alert_history := history |},
   triggered).

(** A sequence of [evaluate] calls on one engine and every alert it
    returns, in order of emission. *)
Record call : Type := {
  call_metrics : gmap string Q;
  call_sample_counts : gmap string Z;
  call_now : Q
}.

Fixpoint evaluate_calls (self : AlertEngine) (calls : list call)
  : AlertEngine * list Alert :=
  match calls with
  | [] => (self, [])
  | c :: rest =>
      let '(self', out) :=
        evaluate self (call_metrics c) (call_sample_counts c) (call_now c) in
      let '(self'', outs) := evaluate_calls self' rest in
      (self'', out ++ outs)
  end.

End Engine.

(** [get_history(limit)]: [list(self._alert_history)[-limit:]] *)
Definition get_history (self : AlertEngine) (limit : Z) : list Alert :=
  py_tail_slice limit (_alert_history self).

Definition default_history_limit : Z := 100.

(** ** RollingStatistics *)
Module RollingStatistics.

Record t : Type := {
  window_seconds : Q;
  max_samples : Z;
  _values : list (Q * Q);          (* (timestamp, value), oldest first *)
  _error_count : nat;
  _total_count : nat;
  _start_time : Q
}.

Definition default_window_seconds : Q := 60.
Definition default_max_samples : Z := 10000.

(** [__init__]; [now] is the reading of [time.monotonic()]. *)
Definition init (window_seconds : Q) (max_samples : Z) (now : Q) : t :=
  {| window_seconds := window_seconds;
     max_samples := max_samples;
     _values := [];
     _error_count := 0;
     _total_count := 0;
     _start_time := now |}.

(** [while self._values and self._values[0][0] < cutoff: popleft()] *)
Fixpoint trim_old (cutoff : Q) (values : list (Q * Q)) : list (Q * Q) :=
  match values with
  | [] => []
  | (t0, v) :: rest => if Qltb t0 cutoff then trim_old cutoff rest else values
  end.

(** [while len(self._values) > self.max_samples: popleft()]; [popleft]
    on an empty deque raises [IndexError]. *)
Fixpoint limit_size (max_samples : Z) (values : list (Q * Q)) : result (list (Q * Q)) :=
  if (max_samples <? Z.of_nat (length values))%Z then
    match values with
    | [] => raise (Raised "IndexError")
    | _ :: rest => limit_size max_samples rest
    end
  else ok values.

(** [record(value, success)]; [now] is the reading of [time.monotonic()]. *)
Definition record (self : t) (value : Q) (success : bool) (now : Q) : result t :=
  let values := _values self ++ [(now, value)] in
  let total_count := S (_total_count self) in
  let error_count := if success then _error_count self else S (_error_count self) in
  let cutoff := now - window_seconds self in
  let values := trim_old cutoff values in
  do values <- limit_size (max_samples self) values;
  ok {| window_seconds := window_seconds self;
        max_samples := max_samples self;
        _values := values;
        _error_count := error_count;
        _total_count := total_count;
        _start_time := _start_time self |}.

(** [get_percentile(p)]: 0.0 without values. *)
Definition get_percentile (self : t) (p : Q) : result Q :=
  match _values self with
  | [] => ok 0
  | _ => of_option NumpyError (np_percentile (map snd (_values self)) p)
  end.

(** [get_throughput()]; [now] is the reading of [time.monotonic()]. *)
Definition get_throughput (self : t) (now : Q) : Q :=
  match _values self with
  | [] => 0
  | (t0, _) :: _ =>
      let window_start := now - window_seconds self in
      let count :=
        length (List.filter (fun tv => Qleb window_start (fst tv)) (_values self)) in
      let actual_start := py_max t0 window_start in
      let duration := now - actual_start in
      if Qltb 0 duration then inject_Z (Z.of_nat count) / duration else 0
  end.

Definition get_error_rate (self : t) : Q :=
  match _total_count self with
  | O => 0
  | _ => inject_Z (Z.of_nat (_error_count self)) / inject_Z (Z.of_nat (_total_count self))
  end.

Definition get_total_count (self : t) : nat * nat :=
  (_total_count self, _error_count self).

Definition get_uptime (self : t) (now : Q) : Q := now - _start_time self.

(** A run of [record] calls: the clock reading, the value and the
    success flag of each. *)
Fixpoint record_all (self : t) (calls : list (Q * Q * bool)) : result t :=
  match calls with
  | [] => ok self
  | (now, value, success) :: rest =>
      do self' <- record self value success now;
      record_all self' rest
  end.

End RollingStatistics.

End Health.

(* ================================================================== *)
(** * Facts about the numeric kernel *)
(* ================================================================== *)

Module NumericFacts.

Local Open Scope Q_scope.

Lemma Qleb_le (x y : Q) : Qleb x y = true <-> x <= y.
Proof. unfold Qleb. apply Qle_bool_iff. Qed.

Lemma Qltb_lt (x y : Q) : Qltb x y = true <-> x < y.
Proof.
  unfold Qltb. rewrite negb_true_iff. split.
  - intros H. apply Qnot_le_lt. intros Hle.
    apply Qle_bool_iff in Hle. congruence.
  - intros H. destruct (Qle_bool y x) eqn:E; [|reflexivity].
    apply Qle_bool_iff in E. exfalso. apply (Qlt_not_le _ _ H E).
Qed.

Lemma Qleb_false (x y : Q) : Qleb x y = false <-> y < x.
Proof.
  rewrite <- Qltb_lt. unfold Qltb, Qleb.
  destruct (Qle_bool x y); simpl; split; congruence.
Qed.

Lemma Qltb_false (x y : Q) : Qltb x y = false <-> y <= x.
Proof.
  rewrite <- Qleb_le. unfold Qltb, Qleb.
  destruct (Qle_bool y x); simpl; split; congruence.
Qed.

Lemma py_max_spec (a c : Q) : py_max a c == Qmax a c.
Proof.
  unfold py_max. destruct (Qltb a c) eqn:E.
  - apply Qltb_lt in E. symmetry. apply Q.max_r. lra.
  - apply Qltb_false in E. symmetry. apply Q.max_l. exact E.
Qed.

Lemma py_min_spec (a c : Q) : py_min a c == Qmin a c.
Proof.
  unfold py_min. destruct (Qltb c a) eqn:E.
  - apply Qltb_lt in E. symmetry. apply Q.min_r. lra.
  - apply Qltb_false in E. symmetry. apply Q.min_l. exact E.
Qed.

Lemma py_max_cases (a c : Q) :
  (a < c /\ py_max a c = c) \/ (c <= a /\ py_max a c = a).
Proof.
  unfold py_max. destruct (Qltb a c) eqn:E.
  - left. apply Qltb_lt in E. auto.
  - right. apply Qltb_false in E. auto.
Qed.

Lemma py_min_cases (a c : Q) :
  (c < a /\ py_min a c = c) \/ (a <= c /\ py_min a c = a).
Proof.
  unfold py_min. destruct (Qltb c a) eqn:E.
  - left. apply Qltb_lt in E. auto.
  - right. apply Qltb_false in E. auto.
Qed.

(** [max(0.0, q)] is never below zero and never [nan]. *)
Lemma fmax_zero_floor (q : pyfloat) : fle (Fin 0) (fmax (Fin 0) q) = true.
Proof.
  unfold fmax. destruct q as [x| | |]; simpl; try reflexivity.
  destruct (Qltb 0 x) eqn:E; simpl.
  - apply Qleb_le. apply Qltb_lt in E. lra.
  - reflexivity.
Qed.

Lemma fmax_zero_fin (x : Q) : exists y, fmax (Fin 0) (Fin x) = Fin y /\ y == Qmax 0 x.
Proof.
  unfold fmax. simpl. destruct (Qltb 0 x) eqn:E.
  - exists x. split; [reflexivity|]. apply Qltb_lt in E.
    symmetry. apply Q.max_r. lra.
  - exists 0. split; [reflexivity|]. apply Qltb_false in E.
    symmetry. apply Q.max_l. exact E.
Qed.

End NumericFacts.

(* ================================================================== *)
(** * Conformal prediction: update rule, calibration errors, predict *)
(* ================================================================== *)

Module ConformalFacts.

Import Conformal NumericFacts.
Local Open Scope Q_scope.

Module Split := Conformal.SplitConformalPredictor.
Module Adaptive := Conformal.AdaptiveConformalPredictor.
Module Mondrian := Conformal.MondrianConformalPredictor.

(** ** The adaptive update *)

Definition adaptive_at (cfg : ConformalConfig) (gamma : Q) (q : pyfloat)
    (n : nat) (hist : list Q) : Adaptive.t :=
  {| Adaptive.config := cfg; Adaptive._quantile := q; Adaptive._gamma := gamma;
     Adaptive._n_updates := n; Adaptive._coverage_history := hist |}.

(** The update as the code performs it, on the stored quantile alone. *)
Lemma update_quantile (self : Adaptive.t) (true_label : Z) (ps : list Z) :
  Adaptive._quantile (Adaptive.update self true_label ps) =
  fmax (Fin 0)
    (if Adaptive.is_covered true_label ps
     then fsub (Adaptive._quantile self)
               (Fin (Adaptive._gamma self * (1 - coverage (Adaptive.config self))))
     else fadd (Adaptive._quantile self)
               (Fin (Adaptive._gamma self * coverage (Adaptive.config self)))).
Proof. reflexivity. Qed.

Lemma is_covered_In (true_label : Z) (ps : list Z) :
  Adaptive.is_covered true_label ps = true <-> In true_label ps.
Proof.
  unfold Adaptive.is_covered. rewrite existsb_exists. split.
  - intros [x [Hin Heq]]. apply Z.eqb_eq in Heq. subst. exact Hin.
  - intros Hin. exists true_label. split; [exact Hin | apply Z.eqb_refl].
Qed.

(** C1, as the specification words it, fails on the code: with
    coverage 0.9, step 0.01 and quantile 1, a covered label moves the
    quantile to 0.999, where the worded rule gives 0.991. *)
Lemma C1_spec_rule_refuted :
  let self := adaptive_at default_config 0.01 (Fin 1) 0 [] in
  Adaptive.is_covered 2 [2%Z] = true /\
  feq (Adaptive._quantile (Adaptive.update self 2 [2%Z])) (Fin 0.999) /\
  feq (spec_update_quantile 0.9 0.01 (Fin 1) true) (Fin 0.991) /\
  ~ feq (Adaptive._quantile (Adaptive.update self 2 [2%Z]))
        (spec_update_quantile (coverage default_config) 0.01 (Fin 1)
           (Adaptive.is_covered 2 [2%Z])).
Proof.
  cbv zeta. repeat split; try (vm_compute; reflexivity).
  vm_compute. discriminate.
Qed.

(** C1 (amended): with [alpha = 1 - coverage], [update] moves a finite
    quantile [q] to [max(0, q - gamma * alpha)] when the true label is
    in the prediction set and to [max(0, q + gamma * (1 - alpha))]
    otherwise; whatever the stored quantile was, the new one is not
    below zero; the update counter grows by one and the coverage
    history by one entry. *)
Theorem C1_adaptive_update_rule
    (cfg : ConformalConfig) (gamma q : Q) (n : nat) (hist : list Q)
    (true_label : Z) (ps : list Z) :
  let alpha := 1 - coverage cfg in
  let self := adaptive_at cfg gamma (Fin q) n hist in
  let self' := Adaptive.update self true_label ps in
  (exists q',
      Adaptive._quantile self' = Fin q' /\
      0 <= q' /\
      (In true_label ps -> q' == Qmax 0 (q - gamma * alpha)) /\
      (~ In true_label ps -> q' == Qmax 0 (q + gamma * (1 - alpha)))) /\
  (forall q0 : pyfloat,
      fle (Fin 0)
          (Adaptive._quantile
             (Adaptive.update (adaptive_at cfg gamma q0 n hist) true_label ps))
      = true) /\
  Adaptive._n_updates self' = S n /\
  length (Adaptive._coverage_history self') = S (length hist) /\
  Adaptive.config self' = cfg /\ Adaptive._gamma self' = gamma.
Proof.
  cbv zeta. repeat split.
  - rewrite update_quantile. cbn [adaptive_at Adaptive._quantile Adaptive._gamma
                                   Adaptive.config].
    destruct (Adaptive.is_covered true_label ps) eqn:Hc.
    + cbn [fsub fneg fadd].
      destruct (fmax_zero_fin (q + - (gamma * (1 - coverage cfg)))) as [y [Hy Hmax]].
      exists y. split; [exact Hy|]. split.
      * rewrite Hmax. apply Q.le_max_l.
      * split.
        -- intros _. rewrite Hmax. apply Q.max_compat; [reflexivity | ring].
        -- intros Hn. exfalso. apply Hn. apply is_covered_In. exact Hc.
    + cbn [fadd].
      destruct (fmax_zero_fin (q + gamma * coverage cfg)) as [y [Hy Hmax]].
      exists y. split; [exact Hy|]. split.
      * rewrite Hmax. apply Q.le_max_l.
      * split.
        -- intros Hin. apply is_covered_In in Hin. congruence.
        -- intros _. rewrite Hmax. apply Q.max_compat; [reflexivity | ring].
  - intros q0. rewrite update_quantile. apply fmax_zero_floor.
  - cbn. rewrite length_app. cbn. lia.
Qed.

(** ** Errors of [fit] *)

Lemma compute_quantile_error (scores : list Q) (cov : Q) (e : exn) :
  compute_quantile scores cov = inl e -> e = NumpyError.
Proof.
  unfold compute_quantile. destruct (Nat.eqb (length scores) 0); [discriminate|].
  destruct (np_quantile scores _); cbn; intros H; inversion H; reflexivity.
Qed.

Lemma split_fit_error (self : Split.t) (scores : ndarray) (id : string) (now : Q)
    (e : exn) :
  Split.fit self scores id now = inl e ->
  (too_few (Split.config self) (flatten scores) = true /\
   e = InsufficientCalibration (length (flatten scores))
         (min_calibration_size (Split.config self))) \/
  (too_few (Split.config self) (flatten scores) = false /\ e = NumpyError).
Proof.
  unfold Split.fit. destruct (too_few _ _) eqn:Hfew.
  - intros H. inversion H. left. split; reflexivity.
  - intros H. right. split; [reflexivity|].
    destruct (np_percentile _ _) as [clip|]; cbn in H; [|inversion H; reflexivity].
    destruct (compute_quantile _ _) as [e'|q] eqn:Hq; cbn in H; [|discriminate].
    inversion H; subst. eapply compute_quantile_error. exact Hq.
Qed.

Lemma adaptive_fit_error (self : Adaptive.t) (scores : ndarray) (id : string)
    (e : exn) :
  Adaptive.fit self scores id = inl e ->
  (too_few (Adaptive.config self) (flatten scores) = true /\
   e = InsufficientCalibration (length (flatten scores))
         (min_calibration_size (Adaptive.config self))) \/
  (too_few (Adaptive.config self) (flatten scores) = false /\ e = NumpyError).
Proof.
  unfold Adaptive.fit. destruct (too_few _ _) eqn:Hfew.
  - intros H. inversion H. left. split; reflexivity.
  - intros H. right. split; [reflexivity|].
    destruct (compute_quantile _ _) as [e'|q] eqn:Hq; cbn in H; [|discriminate].
    inversion H; subst. eapply compute_quantile_error. exact Hq.
Qed.

Lemma fit_classes_error (cfg : ConformalConfig) (scores : list Q) (labels : list Z)
    (classes : list Z) (acc : gmap Z pyfloat) (e : exn) :
  Mondrian.fit_classes cfg scores labels classes acc = inl e -> e = NumpyError.
Proof.
  revert acc. induction classes as [|cls rest IH]; intros acc;
    cbn [Mondrian.fit_classes].
  - discriminate.
  - match goal with
    | |- context [bind ?c _] => destruct c as [e'|q] eqn:Hq
    end; cbn [bind].
    + intros H. inversion H; subst.
      destruct (length (Mondrian.masked scores labels cls) <? 10)%nat;
        eapply compute_quantile_error; exact Hq.
    + apply IH.
Qed.

Lemma mondrian_fit_error (self : Mondrian.t) (scores : ndarray)
    (labels : option (list Z)) (id : string) (e : exn) :
  Mondrian.fit self scores labels id = inl e ->
  e = MondrianRequiresLabels \/ e = LengthMismatch \/ e = NumpyError.
Proof.
  unfold Mondrian.fit. destruct labels as [labels|].
  - destruct (negb _).
    + intros H. inversion H. auto.
    + destruct (Mondrian.fit_classes _ _ _ _ _) as [e'|m] eqn:Hm; cbn; [|discriminate].
      intros H. inversion H; subst. right. right.
      eapply fit_classes_error. exact Hm.
  - intros H. inversion H. auto.
Qed.

Lemma too_few_lt (cfg : ConformalConfig) (scores : list Q) :
  too_few cfg scores = true <->
  (Z.of_nat (length scores) < min_calibration_size cfg)%Z.
Proof. unfold too_few. apply Z.ltb_lt. Qed.

(** ** [predict] *)

Lemma predict_rows_length (cov : Q) (q : pyfloat) (rows : list (list Q)) :
  length (predict_rows cov q rows) = length rows.
Proof. unfold predict_rows. apply length_map. Qed.

Lemma predict_rows_valid (cov : Q) (q : pyfloat) (rows : list (list Q)) :
  Forall (fun r => is_valid r = true) (predict_rows cov q rows).
Proof.
  unfold predict_rows. induction rows as [|row rest IH]; cbn; constructor; auto.
Qed.

(** C2, as stated for every predictor, fails on the code: the Mondrian
    [fit] accepts one calibration score under the default minimum of
    100, and the adaptive [predict] before any [fit] returns a result
    flagged valid. *)
Lemma C2_every_predictor_refuted :
  (Z.of_nat (length (flatten (Arr1 [0.5%Q]))) < min_calibration_size default_config)%Z /\
  is_ok (Mondrian.fit (Mondrian.init default_config) (Arr1 [0.5]) (Some [0%Z]) "id")
    = true /\
  map is_valid (Adaptive.predict (Adaptive.init default_config 0.01) (Arr1 [0.3; 0.7]))
    = [true].
Proof. repeat split; vm_compute; reflexivity. Qed.

(** C2 (amended): the split and the adaptive [fit] raise the
    insufficient-calibration error exactly when the number of
    calibration scores is below [min_calibration_size]; the Mondrian
    [fit] never raises it (its errors are the missing labels, the
    length mismatch and a failure of the quantile routine); [predict]
    of the split and of the Mondrian predictor on an uncalibrated
    object returns the single result [not_calibrated], whose
    [is_valid] is false, and on a calibrated split predictor one valid
    result per row.  [predict] has no error outcome in any of the
    three. *)
Theorem C2_insufficient_calibration :
  (forall (self : Split.t) scores id now,
      (exists n m, Split.fit self scores id now = inl (InsufficientCalibration n m))
      <-> (Z.of_nat (length (flatten scores))
           < min_calibration_size (Split.config self))%Z) /\
  (forall (self : Adaptive.t) scores id,
      (exists n m, Adaptive.fit self scores id = inl (InsufficientCalibration n m))
      <-> (Z.of_nat (length (flatten scores))
           < min_calibration_size (Adaptive.config self))%Z) /\
  (forall (self : Mondrian.t) scores labels id n m,
      Mondrian.fit self scores labels id <> inl (InsufficientCalibration n m)) /\
  (forall cfg scores,
      Split.predict (Split.init cfg) scores = [not_calibrated cfg]) /\
  (forall cfg k scores,
      Mondrian.predict
        {| Mondrian.config := cfg; Mondrian._class_quantiles := ∅;
           Mondrian._n_classes := k |} scores
      = [not_calibrated cfg]) /\
  (forall cfg, is_valid (not_calibrated cfg) = false) /\
  (forall cfg cal scores,
      let rs := Split.predict {| Split.config := cfg; Split._calibration := Some cal |}
                              scores in
      length rs = length (as_rows scores) /\
      Forall (fun r => is_valid r = true) rs).
Proof.
  repeat apply conj.
  - intros self scores id now. rewrite <- too_few_lt. split.
    + intros [n [m H]]. apply split_fit_error in H.
      destruct H as [[Hf _]|[_ He]]; [exact Hf | discriminate].
    + intros Hf. unfold Split.fit. rewrite Hf. eauto.
  - intros self scores id. rewrite <- too_few_lt. split.
    + intros [n [m H]]. apply adaptive_fit_error in H.
      destruct H as [[Hf _]|[_ He]]; [exact Hf | discriminate].
    + intros Hf. unfold Adaptive.fit. rewrite Hf. eauto.
  - intros self scores labels id n m H. apply mondrian_fit_error in H.
    destruct H as [H|[H|H]]; discriminate.
  - reflexivity.
  - intros cfg k scores. unfold Mondrian.predict. cbn.
    destruct (decide _) as [_|Hne]; [reflexivity | congruence].
  - reflexivity.
  - intros cfg cal scores. cbn. split.
    + apply predict_rows_length.
    + apply predict_rows_valid.
Qed.

(** The amended statement at the default configuration with fifty
    scores: both guarded [fit]s raise. *)
Lemma C2_insufficient_calibration_witness :
  (exists n m,
      Split.fit (Split.init default_config) (Arr1 (repeat 0.5 50)) "id" 0
      = inl (InsufficientCalibration n m)) /\
  (exists n m,
      Adaptive.fit (Adaptive.init default_config 0.01) (Arr1 (repeat 0.5 50)) "id"
      = inl (InsufficientCalibration n m)).
Proof.
  destruct C2_insufficient_calibration as [Hs [Ha _]]. split.
  - apply (proj2 (Hs (Split.init default_config) (Arr1 (repeat 0.5 50))
                     "id"%string 0)).
    vm_compute. reflexivity.
  - apply (proj2 (Ha (Adaptive.init default_config 0.01) (Arr1 (repeat 0.5 50))
                     "id"%string)).
    vm_compute. reflexivity.
Defined.

(** C9: before any successful [fit] the split predictor holds no
    calibration, and [predict] returns exactly one result, the invalid
    one with an empty prediction set and an infinite quantile, however
    many rows it is given; the number of results then differs from the
    number of rows unless there is exactly one row. *)
Theorem C9_split_predict_uncalibrated (cfg : ConformalConfig) (scores : ndarray) :
  let rs := Split.predict (Split.init cfg) scores in
  rs = [not_calibrated cfg] /\
  length rs = 1%nat /\
  Forall (fun r => is_valid r = false /\ prediction_set r = [] /\
                   set_size r = 0%nat /\ quantile r = PInf) rs /\
  (length (as_rows scores) <> 1%nat -> length rs <> length (as_rows scores)) /\
  (forall bad id now e,
      Split.fit (Split.init cfg) bad id now = inl e ->
      Split.predict (Split.init cfg) scores = [not_calibrated cfg]).
Proof.
  cbv zeta. cbn. repeat split.
  - constructor; [|constructor]. repeat split.
  - intros H Hlen. apply H. symmetry. exact Hlen.
Qed.

(** Three rows in, one invalid result out. *)
Lemma C9_split_predict_uncalibrated_witness :
  length (Split.predict (Split.init default_config)
                        (Arr2 [[0.1; 0.2]; [0.3; 0.4]; [0.5; 0.6]]))
  <> length (as_rows (Arr2 [[0.1; 0.2]; [0.3; 0.4]; [0.5; 0.6]])).
Proof.
  apply (C9_split_predict_uncalibrated default_config
           (Arr2 [[0.1; 0.2]; [0.3; 0.4]; [0.5; 0.6]])).
  cbn. lia.
Defined.

(** The update rule at a concrete state: a covered label at coverage
    0.9, step 0.01 and quantile 1. *)
Lemma C1_adaptive_update_rule_witness :
  exists q',
    Adaptive._quantile
      (Adaptive.update (adaptive_at default_config 0.01 (Fin 1) 0 []) 2 [2%Z])
    = Fin q' /\ 0 <= q'.
Proof.
  destruct (C1_adaptive_update_rule default_config 0.01 1 0 [] 2 [2%Z])
    as [[q' [Hq [Hpos _]]] _].
  exists q'. split; [exact Hq | exact Hpos].
Defined.

End ConformalFacts.

(* ================================================================== *)
(** * Monitors and the mitigation controller *)
(* ================================================================== *)

Module MonitorFacts.

Import Monitors NumericFacts.
Local Open Scope Q_scope.

(** C10: when the observation has no entry for [metric_key] the
    monitor reads the value 0.0, so the check is the one made on the
    observation extended with that entry; for a positive limit it
    returns an output that is not triggered, with severity 0.0 and the
    message "OK". *)
Theorem C10_missing_key_reads_zero
    (exceeded_message : Q -> Q -> string) (self : ConstraintMonitor.t)
    (state : Observation) (now : Q) :
  state !! ConstraintMonitor.metric_key self = None ->
  0 < ConstraintMonitor.limit self ->
  ConstraintMonitor.check exceeded_message self state now
  = ConstraintMonitor.check exceeded_message self
      (<[ConstraintMonitor.metric_key self := 0]> state) now /\
  exists out,
    ConstraintMonitor.check exceeded_message self state now = inr out /\
    triggered out = false /\ severity out = 0 /\ message out = "OK"%string.
Proof.
  intros Hmiss Hpos. unfold ConstraintMonitor.check.
  rewrite Hmiss, lookup_insert_eq. cbn [default from_option id].
  assert (Hlt : Qltb (ConstraintMonitor.limit self) 0 = false).
  { apply Qltb_false. lra. }
  rewrite Hlt. split; [reflexivity|].
  eexists. split; [reflexivity|]. cbn. repeat split.
Qed.

(** A speed monitor with limit 10 on an observation without "speed". *)
Lemma C10_missing_key_reads_zero_witness :
  exists out,
    ConstraintMonitor.check (fun _ _ => "exceeded"%string)
      {| ConstraintMonitor.self_monitor_id := "speed_limit";
         ConstraintMonitor.limit := 10;
         ConstraintMonitor.metric_key := "speed" |}
      (<["x" := 3]> ∅) 0 = inr out /\
    triggered out = false /\ severity out = 0 /\ message out = "OK"%string.
Proof.
  apply (C10_missing_key_reads_zero (fun _ _ => "exceeded"%string)
           {| ConstraintMonitor.self_monitor_id := "speed_limit";
              ConstraintMonitor.limit := 10;
              ConstraintMonitor.metric_key := "speed" |}
           (<["x" := 3]> ∅) 0).
  - vm_compute. reflexivity.
  - vm_compute. reflexivity.
Defined.

End MonitorFacts.

Module ControllerFacts.

Import Monitors Controller NumericFacts.
Local Open Scope Q_scope.

(** ** The transition table as the specification words it *)

(** "[s_max = max(m.severity)], else 0" *)
Definition spec_s_max (severities : list Q) : Q :=
  match severities with
  | [] => 0
  | s :: rest => fold_left Qmax rest s
  end.

(** The four rows of the table, first match wins. *)
Definition spec_next_state (uncertainty_threshold ood_threshold : Q)
    (severities : list Q) (ood_score epistemic : Q) : MitigationState :=
  let s_max := spec_s_max severities in
  if Qleb 1 s_max then SAFE_STOP
  else if Qltb ood_threshold ood_score || Qltb 0.1 s_max then FALLBACK
  else if Qltb uncertainty_threshold epistemic then CAUTIOUS
  else NOMINAL.

(** The same table as a relation between the inputs and the state. *)
Definition first_match (uncertainty_threshold ood_threshold s_max ood_score
                        epistemic : Q) (st : MitigationState) : Prop :=
  (1 <= s_max /\ st = SAFE_STOP) \/
  (s_max < 1 /\ (ood_threshold < ood_score \/ 0.1 < s_max) /\ st = FALLBACK) \/
  (s_max < 1 /\ ood_score <= ood_threshold /\ s_max <= 0.1 /\
   uncertainty_threshold < epistemic /\ st = CAUTIOUS) \/
  (s_max < 1 /\ ood_score <= ood_threshold /\ s_max <= 0.1 /\
   epistemic <= uncertainty_threshold /\ st = NOMINAL).

Lemma fold_py_max_Qmax (xs : list Q) (a a' : Q) :
  a == a' -> fold_left py_max xs a == fold_left Qmax xs a'.
Proof.
  revert a a'. induction xs as [|x xs IH]; intros a a' Ha; cbn.
  - exact Ha.
  - apply IH. rewrite py_max_spec. apply Q.max_compat; [exact Ha | reflexivity].
Qed.

Lemma max_severity_spec (outs : list MonitorOutput) :
  max_severity outs == spec_s_max (map severity outs).
Proof.
  unfold max_severity, spec_s_max, py_max_list.
  destruct (map severity outs) as [|s rest]; [reflexivity|].
  apply fold_py_max_Qmax. reflexivity.
Qed.

(** The maximum is an upper bound of the severities and one of them. *)
Lemma fold_Qmax_upper (xs : list Q) (a : Q) :
  a <= fold_left Qmax xs a /\ Forall (fun x => x <= fold_left Qmax xs a) xs.
Proof.
  revert a. induction xs as [|x xs IH]; intros a; cbn.
  - split; [lra | constructor].
  - destruct (IH (Qmax a x)) as [H1 H2]. split.
    + eapply Qle_trans; [apply Q.le_max_l | exact H1].
    + constructor; [|exact H2].
      eapply Qle_trans; [apply Q.le_max_r | exact H1].
Qed.

Lemma spec_s_max_upper (severities : list Q) :
  Forall (fun s => s <= spec_s_max severities) severities.
Proof.
  destruct severities as [|s rest]; [constructor|]. cbn.
  destruct (fold_Qmax_upper rest s) as [H1 H2]. constructor; assumption.
Qed.

Lemma Qleb_compat (a a' c c' : Q) : a == a' -> c == c' -> Qleb a c = Qleb a' c'.
Proof. intros Ha Hc. unfold Qleb. rewrite Ha, Hc. reflexivity. Qed.

Lemma Qltb_compat (a a' c c' : Q) : a == a' -> c == c' -> Qltb a c = Qltb a' c'.
Proof. intros Ha Hc. unfold Qltb. rewrite Ha, Hc. reflexivity. Qed.

Lemma transition_spec (self : MitigationController) (outs : list MonitorOutput)
    (u : UncertaintyEstimate) (ood_score : Q) :
  transition self (max_severity outs) u ood_score
  = spec_next_state (uncertainty_threshold self) (ood_threshold self)
      (map severity outs) ood_score (epistemic_score u).
Proof.
  unfold transition, spec_next_state. cbv zeta.
  pose proof (max_severity_spec outs) as Hm.
  rewrite (Qleb_compat 1 1 _ _ (Qeq_refl 1) Hm).
  rewrite (Qltb_compat 0.1 0.1 _ _ (Qeq_refl 0.1) Hm).
  reflexivity.
Qed.

Lemma spec_next_state_first_match (ut ot : Q) (severities : list Q) (ood epi : Q) :
  first_match ut ot (spec_s_max severities) ood epi
    (spec_next_state ut ot severities ood epi).
Proof.
  unfold spec_next_state, first_match. cbv zeta.
  destruct (Qleb 1 (spec_s_max severities)) eqn:E1.
  { left. apply Qleb_le in E1. auto. }
  apply Qleb_false in E1. right.
  destruct (Qltb ot ood) eqn:E2; cbn [orb].
  { left. apply Qltb_lt in E2. auto. }
  apply Qltb_false in E2.
  destruct (Qltb 0.1 (spec_s_max severities)) eqn:E3.
  { left. apply Qltb_lt in E3. auto. }
  apply Qltb_false in E3. right.
  destruct (Qltb ut epi) eqn:E4.
  - left. apply Qltb_lt in E4. auto.
  - right. apply Qltb_false in E4. auto.
Qed.

(** C3: when the monitors return outputs with the given severities,
    [step] returns the state that the table assigns to
    (severities, ood_score, epistemic): SafeStop if [s_max >= 1], else
    Fallback if [ood_score > ood_threshold] or [s_max > 0.1], else
    Cautious if [epistemic > uncertainty_threshold], else Nominal,
    where [s_max] is the largest severity, 0 without monitors.  The
    state is stored as the current state, it is never
    HumanEscalation, and the call made from any other current state
    returns the same state. *)
Theorem C3_step_first_match
    (self : MitigationController) (state : Observation)
    (u : UncertaintyEstimate) (ood_score : Q) (outs : list MonitorOutput) :
  check_all (monitors self) state = inr outs ->
  let severities := map severity outs in
  let st := spec_next_state (uncertainty_threshold self) (ood_threshold self)
              severities ood_score (epistemic_score u) in
  step self state u ood_score = inr (set_current_state self st, st) /\
  first_match (uncertainty_threshold self) (ood_threshold self)
    (spec_s_max severities) ood_score (epistemic_score u) st /\
  Forall (fun s => s <= spec_s_max severities) severities /\
  (severities = [] -> spec_s_max severities = 0) /\
  st <> HUMAN_ESCALATION /\
  (forall previous : MitigationState,
      step (set_current_state self previous) state u ood_score
      = inr (set_current_state self st, st)).
Proof.
  intros Hc. cbv zeta. repeat apply conj.
  - unfold step. rewrite Hc. cbn [bind]. rewrite transition_spec. reflexivity.
  - apply spec_next_state_first_match.
  - apply spec_s_max_upper.
  - intros ->. reflexivity.
  - unfold spec_next_state. cbv zeta.
    repeat match goal with |- context [if ?c then _ else _] => destruct c end;
      discriminate.
  - intros previous. unfold step. cbn [monitors set_current_state].
    rewrite Hc. cbn [bind]. rewrite transition_spec. reflexivity.
Qed.

(** The fourth scenario of the specification: speed 20 against the
    limit 10 saturates the severity and the controller stops. *)
Lemma C3_step_first_match_witness :
  let speed_limit : BaseMonitor :=
    fun state =>
      ConstraintMonitor.check (fun _ _ => "exceeded"%string)
        {| ConstraintMonitor.self_monitor_id := "speed_limit";
           ConstraintMonitor.limit := 10;
           ConstraintMonitor.metric_key := "speed" |} state 0 in
  let self := init [speed_limit] default_uncertainty_threshold 2 in
  let u := {| confidence := 0.9; aleatoric_score := 0.1; epistemic_score := 0.1;
              source := "test"; conformal_set_size := 0;
              coverage_probability := 0; prediction_set := [] |} in
  step self (<["speed" := 20]> ∅) u 0.1
  = inr (set_current_state self SAFE_STOP, SAFE_STOP).
Proof.
  cbv zeta.
  refine (proj1 (C3_step_first_match _ (<["speed" := 20]> ∅) _ 0.1
                   [ {| monitor_id := "speed_limit"; triggered := true;
                        severity := 10 # 10; message := "exceeded";
                        timestamp := 0 |} ] _)).
  vm_compute. reflexivity.
Defined.

End ControllerFacts.

(* ================================================================== *)
(** * The safety filter *)
(* ================================================================== *)

Module FilterFacts.

Import Filter NumericFacts.
Local Open Scope Q_scope.

(** ** Half-space projection of a feasible point *)

(** [A @ x <= b], row by row. *)
Definition feasible (c : LinearConstraint) (x : vec) : Prop :=
  Forall (fun row : vec * Q => dot (fst row) x <= snd row)
         (zip_with pair (A c) (b c)).

Lemma violations_within (rows : list vec) (bounds : vec) (x : vec) (tolerance : Q) :
  0 <= tolerance ->
  Forall (fun row : vec * Q => dot (fst row) x <= snd row)
         (zip_with pair rows bounds) ->
  forallb (fun v => Qleb v tolerance) (vsub (matvec rows x) bounds) = true.
Proof.
  intros Htol. revert bounds.
  induction rows as [|a_i rows IH]; intros bounds Hfeas; [reflexivity|].
  destruct bounds as [|b_i bounds]; [reflexivity|].
  cbn [zip_with] in Hfeas. inversion Hfeas as [|row rest Hrow Hrest]; subst.
  cbn [matvec map vsub zip_with forallb]. apply andb_true_intro. split.
  - apply Qleb_le. cbn [fst snd] in Hrow. lra.
  - apply IH. exact Hrest.
Qed.

(** C6: a point that satisfies every row of [A @ x <= b] is returned
    by [linear_constraint_project] as it is, with the modified flag
    false, for every non-negative tolerance and in particular for the
    default one used by the safety filter. *)
Theorem C6_feasible_point_unchanged
    (x : vec) (c : LinearConstraint) (max_iterations : nat) (tolerance : Q) :
  0 <= tolerance ->
  feasible c x ->
  linear_constraint_project x c max_iterations tolerance = (x, false) /\
  linear_constraint_project x c default_max_iterations default_tolerance = (x, false).
Proof.
  intros Htol Hfeas. unfold linear_constraint_project. split.
  - rewrite (violations_within _ _ _ _ Htol Hfeas). reflexivity.
  - rewrite (violations_within (A c) (b c) x default_tolerance); [reflexivity| |exact Hfeas].
    unfold default_tolerance. apply Qleb_le. reflexivity.
Qed.

(** The point (1/2, 1/4) inside the half-spaces [x + y <= 1] and
    [x <= 1]. *)
Lemma C6_feasible_point_unchanged_witness :
  let c := {| A := [[1; 1]; [1; 0]]; b := [1; 1]; lin_name := "linear" |} in
  linear_constraint_project [1 # 2; 1 # 4] c 100 (1 # 1000000)
  = ([1 # 2; 1 # 4], false).
Proof.
  cbv zeta.
  refine (proj1 (C6_feasible_point_unchanged [1 # 2; 1 # 4]
                   {| A := [[1; 1]; [1; 0]]; b := [1; 1]; lin_name := "linear" |}
                   100 (1 # 1000000) _ _)).
  - apply Qleb_le. vm_compute. reflexivity.
  - unfold feasible. cbn. repeat constructor; apply Qleb_le; vm_compute; reflexivity.
Defined.

(** ** The barrier filter *)

Module CBF := Filter.CBFFilter.











(** The first and the last fraction are 0 and 1: the search starts at
    the action itself and ends at the zero action. *)
Lemma linspace01_ends (n : nat) :
  (2 <= n)%nat ->
  exists mid, linspace01 n = (0 / inject_Z (Z.of_nat (n - 1))) :: mid ++
                             [inject_Z (Z.of_nat (n - 1)) / inject_Z (Z.of_nat (n - 1))].
Proof.
  intros Hn. destruct n as [|[|n]]; [lia | lia |].
  unfold linspace01. replace (S (S n) - 1)%nat with (S n) by lia.
  rewrite seq_S, map_app. cbn [seq map Nat.add app].
  eexists. reflexivity.
Qed.




(** Without an exception from the dynamics or the barrier,
    [filter_action] returns. *)
Lemma line_search_returns (self : CBF.t) (x a : vec) (fractions : list Q) :
  (forall s u, exists s', predict (CBF.dynamics self) s u = inr s') ->
  (forall s, exists v, CBF.h self s = inr v) ->
  exists r, CBF.line_search self x a fractions = inr r.
Proof.
  intros Hp Hh. induction fractions as [|frac rest IH]; cbn [CBF.line_search].
  - eexists. reflexivity.
  - unfold CBF.is_safe.
    destruct (Hp x (vscale (1 - frac) a)) as [s' ->]. cbn [bind].
    destruct (Hh x) as [v ->]. cbn [bind].
    destruct (Hh s') as [v' ->]. cbn [bind].
    destruct (Qleb 0 _); [eexists; reflexivity | exact IH].
Qed.

Lemma filter_action_returns (self : CBF.t) (x a : vec) (n_samples : nat) :
  (forall s u, exists s', predict (CBF.dynamics self) s u = inr s') ->
  (forall s, exists v, CBF.h self s = inr v) ->
  exists r, CBF.filter_action self x a n_samples = inr r.
Proof.
  intros Hp Hh. unfold CBF.filter_action.
  destruct (line_search_returns self x a (linspace01 n_samples) Hp Hh) as [r Hr].
  unfold CBF.is_safe at 1.
  destruct (Hp x a) as [s' ->]. cbn [bind].
  destruct (Hh x) as [v Hv]. rewrite Hv. cbn [bind].
  destruct (Hh s') as [v' ->]. cbn [bind].
  destruct (Qleb 0 _); [eexists; reflexivity|].
  rewrite Hr. cbn [bind]. destruct r as [[scaled m]|].
  - eexists; reflexivity.
  - cbn [bind]. eexists; reflexivity.
Qed.

End FilterFacts.

(* ================================================================== *)
(** * The statistical evaluator *)
(* ================================================================== *)

Module QuantileFacts.

Import NumericFacts.
Local Open Scope Q_scope.

(** ** Sorting *)

(** A list in non-decreasing order, by positions. *)
Definition ascending (s : list Q) : Prop :=
  forall i j d, (i <= j)%nat -> (j < length s)%nat -> nth i s d <= nth j s d.

Inductive chain : list Q -> Prop :=
| chain_nil : chain []
| chain_cons x s : Forall (fun y => x <= y) s -> chain s -> chain (x :: s).

Lemma insert_sorted_Forall (P : Q -> Prop) (x : Q) (s : list Q) :
  P x -> Forall P s -> Forall P (insert_sorted x s).
Proof.
  intros Hx Hs. induction Hs as [|y s Hy Hs IH]; cbn.
  - constructor; [exact Hx | constructor].
  - destruct (Qleb x y); repeat constructor; assumption.
Qed.

Lemma insert_sorted_chain (x : Q) (s : list Q) : chain s -> chain (insert_sorted x s).
Proof.
  intros Hs. induction Hs as [|y s Hy Hs IH]; cbn.
  - constructor; constructor.
  - destruct (Qleb x y) eqn:E.
    + apply Qleb_le in E. constructor; [|constructor; assumption].
      constructor; [exact E|].
      eapply Forall_impl; [exact Hy|]. cbn. intros z Hz. lra.
    + apply Qleb_false in E. constructor; [|exact IH].
      apply insert_sorted_Forall; [lra | exact Hy].
Qed.

Lemma sort_chain (xs : list Q) : chain (sort xs).
Proof.
  induction xs as [|x xs IH]; cbn; [constructor | apply insert_sorted_chain, IH].
Qed.

Lemma insert_sorted_length (x : Q) (s : list Q) :
  length (insert_sorted x s) = S (length s).
Proof.
  induction s as [|y s IH]; cbn; [reflexivity|].
  destruct (Qleb x y); cbn; [reflexivity | rewrite IH; reflexivity].
Qed.

Lemma sort_length (xs : list Q) : length (sort xs) = length xs.
Proof.
  induction xs as [|x xs IH]; [reflexivity|].
  change (sort (x :: xs)) with (insert_sorted x (sort xs)).
  rewrite insert_sorted_length, IH. reflexivity.
Qed.

Lemma chain_ascending (s : list Q) : chain s -> ascending s.
Proof.
  intros Hs. induction Hs as [|x s Hx Hs IH]; intros i j d Hij Hj.
  - cbn in Hj. lia.
  - destruct j as [|j].
    + assert (i = 0)%nat by lia. subst. cbn. lra.
    + destruct i as [|i]; cbn [nth].
      * rewrite List.Forall_forall in Hx. apply Hx. apply nth_In. cbn in Hj. lia.
      * apply IH; [lia | cbn in Hj; lia].
Qed.

Lemma sort_ascending (xs : list Q) : ascending (sort xs).
Proof. apply chain_ascending, sort_chain. Qed.

(** ** Monotonicity of the interpolated quantile *)

Lemma Qfloor_nat_bounds (pos : Q) (m : nat) :
  0 <= pos -> pos <= inject_Z (Z.of_nat m) ->
  let lo := Z.to_nat (Qfloor pos) in
  (lo <= m)%nat /\ inject_Z (Z.of_nat lo) <= pos /\ pos < inject_Z (Z.of_nat lo) + 1.
Proof.
  intros H0 Hm. cbv zeta.
  assert (Hf0 : (0 <= Qfloor pos)%Z).
  { replace 0%Z with (Qfloor 0) by reflexivity. apply Qfloor_resp_le. exact H0. }
  assert (Hfm : (Qfloor pos <= Z.of_nat m)%Z).
  { rewrite <- (Qfloor_Z (Z.of_nat m)). apply Qfloor_resp_le. exact Hm. }
  rewrite Z2Nat.id by exact Hf0.
  split; [lia|]. split; [apply Qfloor_le|].
  pose proof (Qlt_floor pos) as Hlt.
  rewrite inject_Z_plus in Hlt. exact Hlt.
Qed.

Lemma np_quantile_monotone (xs : list Q) (p p' a a' : Q) :
  p <= p' ->
  np_quantile xs p = Some a ->
  np_quantile xs p' = Some a' ->
  a <= a'.
Proof.
  intros Hpp. unfold np_quantile.
  destruct xs as [|x0 rest]; [discriminate|].
  set (xs := x0 :: rest).
  destruct (Qleb 0 p && Qleb p 1) eqn:Hr; [|discriminate].
  destruct (Qleb 0 p' && Qleb p' 1) eqn:Hr'; [|discriminate].
  apply andb_true_iff in Hr, Hr'.
  destruct Hr as [Hp0 Hp1], Hr' as [Hp0' Hp1'].
  apply Qleb_le in Hp0, Hp1, Hp0', Hp1'.
  set (m := (length xs - 1)%nat).
  assert (Hlen : length (sort xs) = S m).
  { rewrite sort_length. unfold m, xs. cbn. lia. }
  assert (Hm0 : 0 <= inject_Z (Z.of_nat m)).
  { replace 0 with (inject_Z 0) by reflexivity. rewrite <- Zle_Qle. lia. }
  set (pos := p * inject_Z (Z.of_nat m)).
  set (pos' := p' * inject_Z (Z.of_nat m)).
  assert (Hpos0 : 0 <= pos) by (unfold pos; apply Qmult_le_0_compat; lra).
  assert (Hpos0' : 0 <= pos') by (unfold pos'; apply Qmult_le_0_compat; lra).
  assert (Hposm : pos <= inject_Z (Z.of_nat m)).
  { unfold pos. rewrite <- (Qmult_1_l (inject_Z (Z.of_nat m))) at 2.
    apply Qmult_le_compat_r; lra. }
  assert (Hposm' : pos' <= inject_Z (Z.of_nat m)).
  { unfold pos'. rewrite <- (Qmult_1_l (inject_Z (Z.of_nat m))) at 2.
    apply Qmult_le_compat_r; lra. }
  assert (Hpospos : pos <= pos').
  { unfold pos, pos'. apply Qmult_le_compat_r; lra. }
  destruct (Qfloor_nat_bounds pos m Hpos0 Hposm) as (Hlo & Hlo1 & Hlo2).
  destruct (Qfloor_nat_bounds pos' m Hpos0' Hposm') as (Hlo' & Hlo1' & Hlo2').
  set (lo := Z.to_nat (Qfloor pos)) in *.
  set (lo' := Z.to_nat (Qfloor pos')) in *.
  pose proof (sort_ascending xs) as Hasc.
  intros Ha Ha'.
  set (s := sort xs) in *.
  set (u := nth lo s x0) in *. set (v := nth (Nat.min (S lo) m) s x0) in *.
  set (u' := nth lo' s x0) in *. set (v' := nth (Nat.min (S lo') m) s x0) in *.
  assert (Huv : u <= v) by (apply Hasc; lia).
  assert (Huv' : u' <= v') by (apply Hasc; lia).
  set (f := pos - inject_Z (Z.of_nat lo)) in *.
  set (f' := pos' - inject_Z (Z.of_nat lo')) in *.
  assert (Ea : u + (v - u) * f = a) by congruence.
  assert (Ea' : u' + (v' - u') * f' = a') by congruence.
  rewrite <- Ea, <- Ea'. clear Ea Ea' Ha Ha'.
  assert (Hf : 0 <= f /\ f < 1) by (unfold f; lra).
  assert (Hf' : 0 <= f' /\ f' < 1) by (unfold f'; lra).
  assert (Hlolo : (lo <= lo')%nat).
  { unfold lo, lo'. apply Z2Nat.inj_le.
    - replace 0%Z with (Qfloor 0) by reflexivity. apply Qfloor_resp_le. exact Hpos0.
    - replace 0%Z with (Qfloor 0) by reflexivity. apply Qfloor_resp_le. exact Hpos0'.
    - apply Qfloor_resp_le. exact Hpospos. }
  assert (Hval : u + (v - u) * f <= v).
  { assert (0 <= (v - u) * (1 - f)) by (apply Qmult_le_0_compat; lra).
    assert ((v - u) * (1 - f) == v - (u + (v - u) * f)) by ring. lra. }
  assert (Hval' : u' <= u' + (v' - u') * f').
  { assert (0 <= (v' - u') * f') by (apply Qmult_le_0_compat; lra). lra. }
  destruct (Nat.eq_dec lo lo') as [Heq|Hne].
  - assert (Eu : u' = u) by (unfold u, u'; rewrite Heq; reflexivity).
    assert (Ev : v' = v) by (unfold v, v'; rewrite Heq; reflexivity).
    rewrite Eu, Ev.
    assert (Hff : f <= f').
    { unfold f, f'. rewrite <- Heq. lra. }
    assert (0 <= (v - u) * (f' - f)) by (apply Qmult_le_0_compat; lra).
    assert ((v - u) * (f' - f) == (u + (v - u) * f') - (u + (v - u) * f)) by ring.
    lra.
  - assert (Hvu' : v <= u') by (apply Hasc; lia).
    lra.
Qed.

Lemma np_quantile_defined (xs : list Q) (p : Q) :
  xs <> [] -> 0 <= p -> p <= 1 -> exists a, np_quantile xs p = Some a.
Proof.
  intros Hne H0 H1. unfold np_quantile. destruct xs as [|x0 rest]; [congruence|].
  apply Qleb_le in H0, H1. rewrite H0, H1. cbn [andb]. eexists. reflexivity.
Qed.

End QuantileFacts.

Module StatisticsFacts.

Import Statistics NumericFacts QuantileFacts.
Local Open Scope Q_scope.

Module Evaluator := Statistics.StatisticalEvaluator.



(** ** Percentiles of one sample are ordered like their levels *)


Lemma np_percentile_defined (xs : list Q) (p : Q) :
  xs <> [] -> 0 <= p -> p <= 100 -> exists a, np_percentile xs p = Some a.
Proof.
  intros Hne H0 H1. unfold np_percentile. apply np_quantile_defined; [exact Hne| |].
  - apply Qle_shift_div_l; [reflexivity | lra].
  - apply Qle_shift_div_r; [reflexivity | lra].
Qed.

(** ** The degenerate and the bootstrap path of [compute_metric_with_ci] *)






(** ** Proportions *)






(** ** The normal approximation of a small stratum *)




(** ** A numeric library to run the evaluator with *)

Definition horner (coefficients : list Q) (x : Q) : Q :=
  fold_left (fun acc c => acc * x + c) coefficients 0.

(** The normal quantile on the central region, levels 0.02425 to
    0.97575, by Acklam's rational approximation (relative error about
    1e-9). *)
Definition probit_central (p : Q) : Q :=
  let q := p - 0.5 in
  let r := q * q in
  q * horner [-39.69683028665376; 220.9460984245205; -275.9285104469687;
              138.3577518672690; -30.66479806614716; 2.506628277459239] r
    / horner [-54.47609879822406; 161.5858368580409; -155.6989798598866;
              66.80131188771972; -13.28068155288572; 1] r.

(** The square root, rounded down to twelve decimals. *)
Definition sqrt_down (q : Q) : Q :=
  inject_Z (Z.sqrt (Qfloor (q * inject_Z (10 ^ 24)))) / inject_Z (10 ^ 12).

Definition factorial (n : nat) : Z :=
  fold_left Z.mul (map Z.of_nat (seq 1 n)) 1%Z.

(** The distribution function of Beta(a, b) for whole [a] and [b]: the
    probability of at least [a] successes in [a + b - 1] trials. *)
Definition beta_cdf (a b : nat) (x : Q) : Q :=
  let trials := (a + b - 1)%nat in
  fold_right
    (fun j acc =>
       Qred (inject_Z (factorial trials / (factorial j * factorial (trials - j)))
             * x ^ Z.of_nat j * (1 - x) ^ Z.of_nat (trials - j) + acc))
    0 (seq a (trials + 1 - a)).

(** Its quantile by forty steps of bisection. *)
Fixpoint bisect (steps : nat) (below : Q -> bool) (lo hi : Q) : Q :=
  match steps with
  | O => lo
  | S steps' =>
      let mid := Qred ((lo + hi) / 2) in
      if below mid then bisect steps' below mid hi else bisect steps' below lo mid
  end.

Definition beta_quantile (q a b : Q) : Q :=
  bisect 40
    (fun x => Qltb (beta_cdf (Z.to_nat (Qfloor a)) (Z.to_nat (Qfloor b)) x) q) 0 1.

Definition reference_lib : NumLib :=
  {| norm_ppf := probit_central; beta_ppf := beta_quantile; np_sqrt := sqrt_down |}.



(** Why the value of a proportion is not placed between its bounds: at
    no success in 100 trials the exact Wilson lower bound is 0, the
    estimate, and a root that is rounded down leaves the computed lower
    bound above it. *)
Lemma wilson_rounded_root_misses_estimate :
  let self := Evaluator.init ∅ 100 0.95 30 (fun _ _ => 0%nat) in
  let m := Evaluator.compute_proportion_with_ci reference_lib self 0 100 in
  value m = Fin (0 / 100) /\ flt (value m) (ci_lower m) = true /\
  ~ ci_contains_value m.
Proof.
  cbv zeta. split; [reflexivity|]. split; [vm_compute; reflexivity|].
  intros [H _]. vm_compute in H. discriminate.
Qed.

End StatisticsFacts.

(* ================================================================== *)
(** * A/B assignment *)
(* ================================================================== *)

Module DeploymentFacts.

Import Deployment.
Local Open Scope Q_scope.

Section ABFacts.

Variable md5_int : string -> Z.
Variable Value : Type.
Variable str : Value -> string.
Variables Observation Action : Type.

Abbreviation runner := (ABTestRunner Observation Action).
Abbreviation get_bucket := (_get_bucket md5_int str).
Abbreviation run := (Deployment.run md5_int str).
Abbreviation run_calls := (Deployment.run_calls md5_int str).

(** The variant that the allocation ranges give to a key string. *)
Definition assigned (ranges : list (string * Q * Q)) (key : string) : result string :=
  match find_range ranges (bucket_of md5_int key) with
  | Some name => ok name
  | None =>
      match ranges with
      | (name, _, _) :: _ => ok name
      | [] => raise (Raised "IndexError")
      end
  end.

Lemma get_bucket_sticky (self : runner) (context : gmap string Value)
    (rand : string) (v : Value) :
  context !! sticky_key self = Some v ->
  get_bucket self context rand = assigned (_ranges self) (str v).
Proof. intros H. unfold _get_bucket, assigned. rewrite H. reflexivity. Qed.

Lemma run_keeps_allocation (self : runner) (observation : Observation)
    (context : option (gmap string Value)) (rand : string) (latency : Q) :
  let self' := fst (run self observation context rand latency) in
  _ranges self' = _ranges self /\ sticky_key self' = sticky_key self /\
  allocation self' = allocation self /\ policies self' = policies self.
Proof.
  unfold Deployment.run.
  destruct (_get_bucket _ _ _ _ _) as [e|variant]; [cbn; auto|].
  destruct (policies self !! variant) as [policy|]; [|cbn; auto].
  destruct (policy observation); cbn; auto.
Qed.

Lemma run_variant (self : runner) (observation : Observation)
    (context : gmap string Value) (rand : string) (latency : Q)
    (action : Action) (variant : string) :
  snd (run self observation (Some context) rand latency) = inr (action, variant) ->
  get_bucket self context rand = inr variant.
Proof.
  unfold Deployment.run. cbn [default from_option id].
  destruct (_get_bucket _ _ _ _ _) as [e|variant'] eqn:Hb; cbn [snd]; [discriminate|].
  destruct (policies self !! variant') as [policy|]; cbn [snd]; [|discriminate].
  destruct (policy observation); cbn [snd]; [discriminate|].
  intros H. inversion H; subst. reflexivity.
Qed.

(** The [i]-th result of a sequence of calls is the result of that call
    on a runner with the ranges and the sticky key of the first one. *)
Lemma run_calls_lookup (calls : list (call Value Observation)) (self : runner)
    (i : nat) (observation : Observation) (context : option (gmap string Value))
    (rand : string) (latency : Q) (r : result (Action * string)) :
  calls !! i = Some (observation, context, rand, latency) ->
  snd (run_calls self calls) !! i = Some r ->
  exists self_i : runner,
    _ranges self_i = _ranges self /\ sticky_key self_i = sticky_key self /\
    snd (run self_i observation context rand latency) = r.
Proof.
  revert self i. induction calls as [|[[[o c] rd] lt] calls IH]; intros self i Hc Hr.
  - discriminate.
  - cbn [Deployment.run_calls] in Hr.
    pose proof (run_keeps_allocation self o c rd lt) as Hk. cbv zeta in Hk.
    destruct (Deployment.run md5_int str self o c rd lt) as [self1 r1] eqn:Hrun.
    destruct (Deployment.run_calls md5_int str self1 calls) as [self2 rs] eqn:Hrest.
    cbn [fst] in Hk. destruct Hk as (Hk1 & Hk2 & _).
    destruct i as [|i]; cbn in Hc, Hr.
    + inversion Hc; subst. inversion Hr; subst.
      exists self. rewrite Hrun. auto.
    + destruct (IH self1 i Hc) as (self_i & H1 & H2 & H3).
      { rewrite Hrest. exact Hr. }
      exists self_i. rewrite H1, H2. auto.
Qed.

Lemma run_calls_length (calls : list (call Value Observation)) (self : runner) :
  length (snd (run_calls self calls)) = length calls.
Proof.
  revert self. induction calls as [|[[[o c] rd] lt] calls IH]; intros self; [reflexivity|].
  cbn [Deployment.run_calls].
  destruct (Deployment.run md5_int str self o c rd lt) as [self1 r1].
  specialize (IH self1).
  destruct (Deployment.run_calls md5_int str self1 calls) as [self2 rs].
  cbn in *. rewrite IH. reflexivity.
Qed.

End ABFacts.

(** C7: for a runner with fixed allocation ranges, [_get_bucket] on a
    context that holds the sticky key returns the variant that the
    ranges assign to the hash bucket of the key's string, whatever else
    the context holds and whatever the random draw is; and in any
    sequence of [run] calls on the runner, two calls whose contexts hold
    the same sticky key value and that return at all return the same
    variant. *)
Theorem C7_sticky_assignment
    (md5_int : string -> Z) (Value : Type) (str : Value -> string)
    (Observation Action : Type)
    (self : ABTestRunner Observation Action)
    (calls : list (call Value Observation)) :
  let results := snd (run_calls md5_int str self calls) in
  length results = length calls /\
  (forall c1 c2 rand1 rand2 v1 v2,
      c1 !! sticky_key self = Some v1 -> c2 !! sticky_key self = Some v2 ->
      str v1 = str v2 ->
      _get_bucket md5_int str self c1 rand1 = _get_bucket md5_int str self c2 rand2 /\
      _get_bucket md5_int str self c1 rand1
      = assigned md5_int (_ranges self) (str v1)) /\
  (forall (i j : nat) o1 c1 rand1 lat1 o2 c2 rand2 lat2 v1 v2 a1 variant1 a2 variant2,
      calls !! i = Some (o1, Some c1, rand1, lat1) ->
      calls !! j = Some (o2, Some c2, rand2, lat2) ->
      c1 !! sticky_key self = Some v1 -> c2 !! sticky_key self = Some v2 ->
      str v1 = str v2 ->
      results !! i = Some (inr (a1, variant1)) ->
      results !! j = Some (inr (a2, variant2)) ->
      variant1 = variant2 /\
      assigned md5_int (_ranges self) (str v1) = inr variant1).
Proof.
  cbv zeta. repeat apply conj.
  - apply run_calls_length.
  - intros c1 c2 rand1 rand2 v1 v2 H1 H2 Hs.
    rewrite (get_bucket_sticky _ _ _ _ _ self c1 rand1 v1 H1).
    rewrite (get_bucket_sticky _ _ _ _ _ self c2 rand2 v2 H2).
    rewrite Hs. split; reflexivity.
  - intros i j o1 c1 rand1 lat1 o2 c2 rand2 lat2 v1 v2 a1 variant1 a2 variant2
           Hi Hj H1 H2 Hs Hr1 Hr2.
    destruct (run_calls_lookup _ _ _ _ _ _ _ _ _ _ _ _ _ Hi Hr1)
      as (s1 & Hrg1 & Hk1 & Hrun1).
    destruct (run_calls_lookup _ _ _ _ _ _ _ _ _ _ _ _ _ Hj Hr2)
      as (s2 & Hrg2 & Hk2 & Hrun2).
    apply run_variant in Hrun1, Hrun2.
    rewrite <- Hk1 in H1. rewrite <- Hk2 in H2.
    rewrite (get_bucket_sticky _ _ _ _ _ s1 c1 rand1 v1 H1), Hrg1 in Hrun1.
    rewrite (get_bucket_sticky _ _ _ _ _ s2 c2 rand2 v2 H2), Hrg2, <- Hs in Hrun2.
    split; [congruence | exact Hrun1].
Qed.

(** The eighth scenario of the specification: the key "u1" under an even
    split keeps its variant when the rest of the context and the random
    draw change. *)
Lemma C7_sticky_assignment_witness :
  let md5 := fun s : string => (Z.of_nat (String.length s) * 6151)%Z in
  let self : ABTestRunner unit Q :=
    {| policies := <["control" := fun _ => ok 0]> (<["candidate" := fun _ => ok 1]> ∅);
       allocation := [("control"%string, 0.5); ("candidate"%string, 0.5)];
       sticky_key := "user_id";
       _ranges := build_ranges 0 [("control"%string, 0.5); ("candidate"%string, 0.5)];
       _metrics := ∅ |} in
  _get_bucket md5 (fun v : string => v) self (<["user_id" := "u1"%string]> ∅) "0.3"
  = _get_bucket md5 (fun v : string => v) self
      (<["other" := "x"%string]> (<["user_id" := "u1"%string]> ∅)) "0.9".
Proof.
  cbv zeta.
  refine (proj1 (proj1 (proj2
            (C7_sticky_assignment _ string (fun v : string => v) unit Q _ []))
            (<["user_id" := "u1"%string]> ∅)
            (<["other" := "x"%string]> (<["user_id" := "u1"%string]> ∅))
            "0.3"%string "0.9"%string "u1"%string "u1"%string _ _ _)).
  - vm_compute. reflexivity.
  - vm_compute. reflexivity.
  - reflexivity.
Defined.

End DeploymentFacts.

(* ================================================================== *)
(** * The alert engine *)
(* ================================================================== *)

Module HealthFacts.

Import Health NumericFacts.
Local Open Scope Q_scope.

(** The clock readings of the calls never go back. *)
Definition clock_monotone (calls : list call) : Prop :=
  StronglySorted (fun c c' => call_now c <= call_now c') calls.

(** No alert of [out] is later than [now]. *)
Definition not_after (now : Q) (out : list Alert) : Prop :=
  Forall (fun a => timestamp a <= now) out.

Section EngineFacts.

Variable alert_message : string -> Q -> Q -> string.
Variable all_rules : list AlertRule.
Variable made : call -> Prop.

(** The alert [a] was produced by the rule [R] during the call [c]. *)
Definition fired_by (R : AlertRule) (c : call) (a : Alert) : Prop :=
  name R = rule_name a /\
  rule_metric R = metric a /\
  call_metrics c !! rule_metric R = Some (value a) /\
  condition R (value a) = true /\
  (min_samples R <= default 0%Z (call_sample_counts c !! rule_metric R))%Z /\
  timestamp a = call_now c.

(** Every alert of [out] was fired by a rule whose cooldown had elapsed
    since each earlier alert of the same name. *)
Definition spaced (out : list Alert) : Prop :=
  forall before a' after,
    out = before ++ a' :: after ->
    exists R c,
      In R all_rules /\ made c /\ fired_by R c a' /\
      forall a, In a before -> rule_name a = rule_name a' ->
                cooldown_seconds R <= timestamp a' - timestamp a.

(** The stored time of a name is not older than any alert of that name. *)
Definition last_covers (last : gmap string Q) (out : list Alert) : Prop :=
  forall a, In a out ->
            exists l, last !! rule_name a = Some l /\ timestamp a <= l.

(** What keeps the stored times in step with the alerts: cooldowns that
    are not negative, or a clock that has not gone back. *)
Definition in_step (now : Q) (out : list Alert) : Prop :=
  Forall (fun R => 0 <= cooldown_seconds R) all_rules \/ not_after now out.

Lemma snoc_decompose {X} (l : list X) (x : X) (before : list X) (y : X) (after : list X) :
  l ++ [x] = before ++ y :: after ->
  (after = [] /\ before = l /\ y = x) \/
  (exists after', after = after' ++ [x] /\ l = before ++ y :: after').
Proof.
  revert before. induction l as [|z l IH]; intros before H.
  - destruct before as [|b before]; cbn in H.
    + inversion H; subst. left. auto.
    + inversion H as [[Hb Hr]]. destruct before; discriminate.
  - destruct before as [|b before]; cbn in H.
    + inversion H; subst. right. exists l. auto.
    + inversion H as [[Hb Hr]]. subst b.
      destruct (IH before Hr) as [(-> & -> & ->)|(after' & -> & ->)].
      * left. auto.
      * right. exists after'. auto.
Qed.

Lemma eval_rule_invariant (c : call) (R : AlertRule)
    (last : gmap string Q) (hist prev trig : list Alert) :
  In R all_rules -> made c ->
  in_step (call_now c) (prev ++ trig) ->
  last_covers last (prev ++ trig) -> spaced (prev ++ trig) ->
  let '(last', _, trig') :=
    eval_rule alert_message (call_metrics c) (call_sample_counts c) (call_now c)
              (last, hist, trig) R in
  in_step (call_now c) (prev ++ trig') /\
  last_covers last' (prev ++ trig') /\ spaced (prev ++ trig').
Proof.
  intros HR Hc Hstep Hcov Hsp. unfold eval_rule.
  destruct (call_metrics c !! rule_metric R) as [v|] eqn:Hv; [|auto].
  destruct (_ <? _)%Z eqn:Hcount; [auto|].
  destruct (condition R v) eqn:Hcond; cbn [negb]; [|auto].
  destruct (Qltb _ _) eqn:Hcool; [auto|].
  apply Qltb_false in Hcool. apply Z.ltb_ge in Hcount.
  set (alert := {| rule_name := name R; metric := rule_metric R;
                   severity := rule_severity R;
                   message := alert_message (rule_metric R) v (rule_threshold R);
                   value := v; threshold := rule_threshold R;
                   timestamp := call_now c |}).
  rewrite app_assoc.
  assert (Hgap : forall a, In a (prev ++ trig) -> rule_name a = name R ->
                           cooldown_seconds R <= call_now c - timestamp a).
  { intros a Ha Hn. destruct (Hcov a Ha) as [l [Hl Hle]].
    rewrite Hn in Hl. rewrite Hl in Hcool. cbn in Hcool. lra. }
  assert (Hpast : forall a, In a (prev ++ trig) -> rule_name a = name R ->
                            timestamp a <= call_now c).
  { intros a Ha Hn. destruct Hstep as [Hcd|Hna].
    - rewrite List.Forall_forall in Hcd. specialize (Hcd R HR).
      specialize (Hgap a Ha Hn). lra.
    - unfold not_after in Hna. rewrite List.Forall_forall in Hna. apply Hna. exact Ha. }
  repeat apply conj.
  - destruct Hstep as [Hcd|Hna]; [left; exact Hcd|]. right.
    unfold not_after in *. apply Forall_app. split; [exact Hna|].
    constructor; [cbn; lra | constructor].
  - intros a Ha. apply in_app_or in Ha. destruct Ha as [Ha|[<-|[]]].
    + destruct (decide (rule_name a = name R)) as [Hn|Hn].
      * exists (call_now c). rewrite Hn, lookup_insert_eq. split; [reflexivity|].
        apply Hpast; assumption.
      * destruct (Hcov a Ha) as [l [Hl Hle]]. exists l.
        rewrite lookup_insert_ne by congruence. auto.
    + exists (call_now c). cbn. rewrite lookup_insert_eq. split; [reflexivity | lra].
  - intros before a' after Hdec.
    destruct (snoc_decompose _ _ _ _ _ Hdec) as [(-> & -> & ->)|(after' & -> & Hout)].
    + exists R, c. split; [exact HR|]. split; [exact Hc|]. split.
      * unfold fired_by. cbn. rewrite Hv. repeat split; assumption.
      * intros a Ha Hn. cbn in Hn. cbn. apply Hgap; assumption.
    + apply (Hsp before a' after' Hout).
Qed.

Lemma fold_rules_invariant (c : call) (rs : list AlertRule)
    (last : gmap string Q) (hist prev trig : list Alert) :
  (forall R, In R rs -> In R all_rules) ->
  made c ->
  in_step (call_now c) (prev ++ trig) ->
  last_covers last (prev ++ trig) -> spaced (prev ++ trig) ->
  let '(last', _, trig') :=
    fold_left (eval_rule alert_message (call_metrics c) (call_sample_counts c)
                         (call_now c)) rs (last, hist, trig) in
  in_step (call_now c) (prev ++ trig') /\
  last_covers last' (prev ++ trig') /\ spaced (prev ++ trig').
Proof.
  intros Hrs Hc. revert last hist trig.
  induction rs as [|R rs IH]; intros last hist trig Hstep Hcov Hsp; cbn [fold_left].
  - auto.
  - pose proof (eval_rule_invariant c R last hist prev trig
                  (Hrs R (or_introl eq_refl)) Hc Hstep Hcov Hsp) as Hone.
    destruct (eval_rule _ _ _ _ _ R) as [[last1 hist1] trig1].
    destruct Hone as (Hstep1 & Hcov1 & Hsp1).
    apply IH; [|assumption..].
    intros R' HR'. apply Hrs. right. exact HR'.
Qed.

Lemma evaluate_calls_invariant (calls : list call) (self : AlertEngine)
    (prev : list Alert) :
  rules self = all_rules ->
  Forall (fun R => 0 <= cooldown_seconds R) all_rules \/
  (clock_monotone calls /\ forall c, In c calls -> not_after (call_now c) prev) ->
  (forall c, In c calls -> made c) ->
  last_covers (_last_alert self) prev -> spaced prev ->
  spaced (prev ++ snd (evaluate_calls alert_message self calls)).
Proof.
  intros Hrules. revert self prev Hrules.
  induction calls as [|c calls IH]; intros self prev Hrules Hclock Hmade Hcov Hsp;
    cbn [evaluate_calls].
  - cbn. rewrite app_nil_r. exact Hsp.
  - unfold evaluate.
    pose proof (fold_rules_invariant c (rules self) (_last_alert self)
                  (_alert_history self) prev []) as Hfold.
    destruct (fold_left _ (rules self) _) as [[last1 hist1] trig1].
    destruct Hfold as (Hstep1 & Hcov1 & Hsp1).
    { intros R HR. rewrite <- Hrules. exact HR. }
    { apply Hmade. left. reflexivity. }
    { rewrite app_nil_r. destruct Hclock as [Hcd|[_ Hna]].
      - left. exact Hcd.
      - right. apply Hna. left. reflexivity. }
    { rewrite app_nil_r. exact Hcov. }
    { rewrite app_nil_r. exact Hsp. }
    specialize (IH {| rules := rules self; _last_alert := last1;
                      _alert_history := hist1 |} (prev ++ trig1)).
    destruct (evaluate_calls alert_message _ calls) as [self2 outs].
    cbn [snd] in *. rewrite app_assoc. apply IH.
    + exact Hrules.
    + destruct Hstep1 as [Hcd|Hna1]; [left; exact Hcd|].
      destruct Hclock as [Hcd|[Hsorted Hna]]; [left; exact Hcd|]. right.
      unfold clock_monotone in Hsorted. inversion Hsorted as [|c0 l0 Hs Hall]; subst.
      split; [exact Hs|]. intros c' Hc'.
      unfold not_after in *. rewrite List.Forall_forall in Hall.
      specialize (Hall c' Hc').
      eapply Forall_impl; [exact Hna1|]. cbn. intros a Ha. lra.
    + intros c' Hc'. apply Hmade. right. exact Hc'.
    + exact Hcov1.
    + exact Hsp1.
Qed.

End EngineFacts.

Lemma rule_of_name (rs : list AlertRule) (R R' : AlertRule) :
  List.NoDup (map name rs) -> In R rs -> In R' rs -> name R = name R' -> R = R'.
Proof.
  induction rs as [|x rs IH]; intros Hnd HR HR' Hn; [destruct HR|].
  cbn in Hnd. apply List.NoDup_cons_iff in Hnd. destruct Hnd as [Hx Hnd].
  destruct HR as [->|HR], HR' as [->|HR'].
  - reflexivity.
  - exfalso. apply Hx. rewrite Hn. apply in_map. exact HR'.
  - exfalso. apply Hx. rewrite <- Hn. apply in_map. exact HR.
  - apply IH; assumption.
Qed.

(** C8: in any sequence of [evaluate] calls on a fresh engine, with
    cooldowns that are not negative or a clock that does not go back,
    every alert returned was fired by one of the rules during one of
    the calls: the metric of the rule was present with the value of the
    alert, the predicate of the rule holds on that value, the sample
    count of the metric is at least [min_samples], and the timestamp is
    the clock reading of the call.  If an alert of the same rule name
    was returned earlier in the sequence, the two timestamps are at
    least the cooldown of the firing rule apart; with distinct rule
    names this is, for each rule [R], a distance of at least
    [R.cooldown_seconds] between any two of its alerts. *)
Theorem C8_alert_cooldown
    (alert_message : string -> Q -> Q -> string)
    (rs : list AlertRule) (calls : list call) :
  Forall (fun R => 0 <= cooldown_seconds R) rs \/ clock_monotone calls ->
  let out := snd (evaluate_calls alert_message (init rs) calls) in
  (forall a', In a' out ->
     exists R c, In R rs /\ In c calls /\ fired_by R c a') /\
  (forall (i j : nat) a a',
     (i < j)%nat -> out !! i = Some a -> out !! j = Some a' ->
     rule_name a = rule_name a' ->
     exists R c, In R rs /\ In c calls /\ fired_by R c a' /\
                 cooldown_seconds R <= timestamp a' - timestamp a) /\
  (List.NoDup (map name rs) ->
   forall R (i j : nat) a a',
     In R rs -> (i < j)%nat -> out !! i = Some a -> out !! j = Some a' ->
     rule_name a = name R -> rule_name a' = name R ->
     cooldown_seconds R <= timestamp a' - timestamp a).
Proof.
  intros Hstep. cbv zeta.
  assert (Hsp : spaced rs (fun c => In c calls)
                  (snd (evaluate_calls alert_message (init rs) calls))).
  { apply (evaluate_calls_invariant alert_message rs (fun c => In c calls)
             calls (init rs) []).
    - reflexivity.
    - destruct Hstep as [Hcd|Hclock]; [left; exact Hcd|]. right.
      split; [exact Hclock|]. intros c _. constructor.
    - auto.
    - intros a [].
    - intros before a' after H. destruct before; discriminate. }
  set (out := snd (evaluate_calls alert_message (init rs) calls)) in *.
  assert (Hpair : forall (i j : nat) a a',
     (i < j)%nat -> out !! i = Some a -> out !! j = Some a' ->
     rule_name a = rule_name a' ->
     exists R c, In R rs /\ In c calls /\ fired_by R c a' /\
                 cooldown_seconds R <= timestamp a' - timestamp a).
  { intros i j a a' Hij Hi Hj Hn.
    destruct (Hsp (take j out) a' (drop (S j) out)) as (R & c & HR & Hc & Hf & Hgap).
    { symmetry. apply take_drop_middle. exact Hj. }
    exists R, c. split; [exact HR|]. split; [exact Hc|]. split; [exact Hf|].
    apply Hgap; [|exact Hn].
    apply list_elem_of_In. apply list_elem_of_lookup. exists i.
    rewrite lookup_take_lt by exact Hij. exact Hi. }
  repeat apply conj.
  - intros a' Ha'. apply list_elem_of_In in Ha'.
    apply list_elem_of_lookup in Ha'. destruct Ha' as [j Hj].
    destruct (Hsp (take j out) a' (drop (S j) out)) as (R & c & HR & Hc & Hf & _).
    { symmetry. apply take_drop_middle. exact Hj. }
    exists R, c. auto.
  - exact Hpair.
  - intros Hnd R i j a a' HR Hij Hi Hj Hn Hn'.
    destruct (Hpair i j a a' Hij Hi Hj) as (R' & c & HR' & _ & Hf & Hgap).
    { congruence. }
    assert (R' = R).
    { apply (rule_of_name rs); try assumption.
      destruct Hf as [Hname _]. congruence. }
    subst R'. exact Hgap.
Qed.

(** The latency rule with the default cooldown of 300 seconds, evaluated
    at the times 1000, 1100 and 1400: it fires at 1000 and at 1400. *)
Lemma C8_alert_cooldown_witness :
  let rule :=
    {| name := "high_latency"; rule_metric := "latency";
       condition := fun x => Qltb 0.5 x; rule_threshold := 0.5;
       rule_severity := "warning"; channels := [];
       cooldown_seconds := 300; min_samples := 10 |} in
  let at_time t :=
    {| call_metrics := <["latency" := 0.6]> ∅;
       call_sample_counts := <["latency" := 10%Z]> ∅;
       call_now := t |} in
  let out :=
    snd (evaluate_calls (fun _ _ _ => "alert"%string) (init [rule])
           [at_time 1000; at_time 1100; at_time 1400]) in
  map timestamp out = [1000; 1400] /\
  forall a a', out !! 0%nat = Some a -> out !! 1%nat = Some a' ->
               300 <= timestamp a' - timestamp a.
Proof.
  cbv zeta. split; [vm_compute; reflexivity|].
  intros a a' Ha Ha'.
  refine (proj2 (proj2 (C8_alert_cooldown (fun _ _ _ => "alert"%string) _ _ _))
            _ {| name := "high_latency"; rule_metric := "latency";
                 condition := fun x => Qltb 0.5 x; rule_threshold := 0.5;
                 rule_severity := "warning"; channels := [];
                 cooldown_seconds := 300; min_samples := 10 |}
            0%nat 1%nat a a' _ _ Ha Ha' _ _).
  - left. constructor; [|constructor]. apply Qleb_le. vm_compute. reflexivity.
  - cbn. constructor; [intros []|constructor].
  - left. reflexivity.
  - lia.
  - vm_compute in Ha. inversion Ha. reflexivity.
  - vm_compute in Ha'. inversion Ha'. reflexivity.
Defined.

End HealthFacts.

(* ================================================================== *)
(** * Further properties of foundations/conformal.py *)
(* ================================================================== *)

Module ConformalMore.

Import Exn Numeric NumericFacts QuantileFacts Conformal ConformalFacts.
Local Open Scope Q_scope.

Module Split := Conformal.SplitConformalPredictor.
Module Adaptive := Conformal.AdaptiveConformalPredictor.
Module Mondrian := Conformal.MondrianConformalPredictor.

(** ** Prediction sets *)

Lemma where_le_from_spec (row : list Q) (q : pyfloat) (i c : Z) :
  In c (where_le_from i row q) <->
  exists (k : nat) (s : Q),
    c = (i + Z.of_nat k)%Z /\ row !! k = Some s /\ fle (Fin s) q = true.
Proof.
  revert i. induction row as [|s0 rest IH]; intros i; cbn [where_le_from].
  - split; [intros [] | intros (k & s & _ & H & _); destruct k; discriminate].
  - split.
    + intros H.
      assert (Hcase : (c = i /\ fle (Fin s0) q = true) \/
                      In c (where_le_from (i + 1) rest q)).
      { destruct (fle (Fin s0) q) eqn:E; [|right; exact H].
        destruct H as [<-|H]; [left; auto | right; exact H]. }
      destruct Hcase as [[-> E]|H'].
      * exists 0%nat, s0. repeat split; [lia | exact E].
      * apply IH in H'. destruct H' as (k & s & Hc & Hk & Hs).
        exists (S k), s. repeat split; [lia | exact Hk | exact Hs].
    + intros (k & s & Hc & Hk & Hs). destruct k as [|k].
      * cbn in Hk. inversion Hk; subst. rewrite Hs. left. lia.
      * assert (H' : In c (where_le_from (i + 1) rest q)).
        { apply IH. exists k, s. repeat split; [lia | exact Hk | exact Hs]. }
        destruct (fle (Fin s0) q); [right|]; exact H'.
Qed.

Lemma where_le_from_length (row : list Q) (q : pyfloat) (i : Z) :
  (length (where_le_from i row q) <= length row)%nat.
Proof.
  revert i. induction row as [|s rest IH]; intros i; cbn [where_le_from length]; [lia|].
  specialize (IH (i + 1)%Z). destruct (fle (Fin s) q); cbn [length]; lia.
Qed.

Lemma where_le_from_ascending (row : list Q) (q : pyfloat) (i : Z) :
  StronglySorted Z.lt (where_le_from i row q) /\
  Forall (fun c => (i <= c)%Z) (where_le_from i row q).
Proof.
  revert i. induction row as [|s rest IH]; intros i; cbn [where_le_from].
  - split; constructor.
  - destruct (IH (i + 1)%Z) as [Hs Hf].
    assert (Hf' : Forall (fun c => (i < c)%Z) (where_le_from (i + 1) rest q)).
    { eapply Forall_impl; [exact Hf|]. cbn. intros. lia. }
    destruct (fle (Fin s) q).
    + split; constructor; try assumption; [lia|].
      eapply Forall_impl; [exact Hf'|]. cbn. intros. lia.
    + split; [exact Hs|]. eapply Forall_impl; [exact Hf'|]. cbn. intros. lia.
Qed.

(** A larger threshold keeps every class of the smaller one. *)
Lemma fle_trans_fin (s : Q) (q q' : pyfloat) :
  fle (Fin s) q = true -> fle q q' = true -> fle (Fin s) q' = true.
Proof.
  destruct q as [x| | |], q' as [y| | |]; cbn; try discriminate; try reflexivity.
  intros H1 H2. apply Qleb_le in H1, H2. apply Qleb_le. lra.
Qed.

(** The prediction set of one row holds exactly the classes whose score
    is at most the quantile, in increasing order and once each; its
    recorded size is its length; a larger quantile keeps every class of
    a smaller one.  This is the set computed by the split and by the
    adaptive [predict] for each row of the input. *)
Theorem prediction_set_is_threshold_set
    (cov : Q) (q : pyfloat) (rows : list (list Q)) (i : nat)
    (row : list Q) (r : ConformalResult) :
  rows !! i = Some row ->
  predict_rows cov q rows !! i = Some r ->
  (forall c : Z,
      In c (prediction_set r) <->
      exists (k : nat) (s : Q),
        c = Z.of_nat k /\ row !! k = Some s /\ fle (Fin s) q = true) /\
  StronglySorted Z.lt (prediction_set r) /\
  set_size r = length (prediction_set r) /\
  (set_size r <= length row)%nat /\
  is_valid r = true /\ quantile r = q /\ coverage_probability r = cov /\
  (forall q' r',
      fle q q' = true -> predict_rows cov q' rows !! i = Some r' ->
      forall c, In c (prediction_set r) -> In c (prediction_set r')).
Proof.
  intros Hrow Hr. unfold predict_rows in Hr.
  rewrite list_lookup_fmap, Hrow in Hr. cbn in Hr. inversion Hr; subst; clear Hr.
  cbn [prediction_set set_size is_valid quantile coverage_probability].
  repeat apply conj; try reflexivity.
  - intros c. unfold where_le. rewrite where_le_from_spec.
    split; intros (k & s & Hc & Hk & Hs); exists k, s; repeat split;
      try assumption; lia.
  - apply where_le_from_ascending.
  - apply where_le_from_length.
  - intros q' r' Hqq Hr' c Hc. unfold predict_rows in Hr'.
    rewrite list_lookup_fmap, Hrow in Hr'. cbn in Hr'. inversion Hr'; subst.
    cbn [prediction_set]. unfold where_le in *.
    apply where_le_from_spec in Hc. apply where_le_from_spec.
    destruct Hc as (k & s & Hc & Hk & Hs). exists k, s. repeat split; try assumption.
    eapply fle_trans_fin; eassumption.
Qed.

(** One row of three scores against the quantile 0.5. *)
Lemma prediction_set_is_threshold_set_witness :
  exists r,
    predict_rows 0.9 (Fin 0.5) [[0.2; 0.7; 0.5]] !! 0%nat = Some r /\
    StronglySorted Z.lt (prediction_set r) /\
    set_size r = length (prediction_set r).
Proof.
  eexists. split; [reflexivity|].
  refine (let H := prediction_set_is_threshold_set 0.9 (Fin 0.5) [[0.2; 0.7; 0.5]] 0
                     [0.2; 0.7; 0.5] _ eq_refl eq_refl in
          conj (proj1 (proj2 H)) (proj1 (proj2 (proj2 H)))).
Defined.

(** ** Quantiles lie inside the sample *)

Lemma sort_Forall (P : Q -> Prop) (xs : list Q) : Forall P xs -> Forall P (sort xs).
Proof.
  induction 1 as [|x xs Hx Hxs IH]; [constructor|].
  change (sort (x :: xs)) with (insert_sorted x (sort xs)).
  apply insert_sorted_Forall; assumption.
Qed.

Lemma np_quantile_within (xs : list Q) (p a lo hi : Q) :
  np_quantile xs p = Some a ->
  Forall (fun x => lo <= x) xs -> Forall (fun x => x <= hi) xs ->
  lo <= a /\ a <= hi.
Proof.
  unfold np_quantile. destruct xs as [|x0 rest]; [discriminate|].
  set (xs := x0 :: rest).
  destruct (Qleb 0 p && Qleb p 1) eqn:Hr; [|discriminate].
  apply andb_true_iff in Hr. destruct Hr as [Hp0 Hp1].
  apply Qleb_le in Hp0, Hp1.
  intros Ha Hlo Hhi.
  set (m := (length xs - 1)%nat) in *.
  assert (Hlen : length (sort xs) = S m).
  { rewrite sort_length. unfold m, xs. cbn. lia. }
  assert (Hm0 : 0 <= inject_Z (Z.of_nat m)).
  { replace 0 with (inject_Z 0) by reflexivity. rewrite <- Zle_Qle. lia. }
  set (pos := p * inject_Z (Z.of_nat m)) in *.
  assert (Hpos0 : 0 <= pos) by (unfold pos; apply Qmult_le_0_compat; lra).
  assert (Hposm : pos <= inject_Z (Z.of_nat m)).
  { unfold pos. rewrite <- (Qmult_1_l (inject_Z (Z.of_nat m))) at 2.
    apply Qmult_le_compat_r; lra. }
  destruct (Qfloor_nat_bounds pos m Hpos0 Hposm) as (Hl & Hl1 & Hl2).
  set (l := Z.to_nat (Qfloor pos)) in *.
  pose proof (sort_ascending xs) as Hasc.
  pose proof (sort_Forall _ xs Hlo) as Hlo'.
  pose proof (sort_Forall _ xs Hhi) as Hhi'.
  set (s := sort xs) in *.
  set (u := nth l s x0) in *. set (v := nth (Nat.min (S l) m) s x0) in *.
  set (f := pos - inject_Z (Z.of_nat l)) in *.
  assert (Ea : u + (v - u) * f = a) by congruence. rewrite <- Ea.
  assert (Huv : u <= v) by (apply Hasc; lia).
  assert (Hu : lo <= u).
  { rewrite List.Forall_forall in Hlo'. apply Hlo'. apply nth_In. lia. }
  assert (Hv : v <= hi).
  { rewrite List.Forall_forall in Hhi'. apply Hhi'. apply nth_In. lia. }
  assert (Hf : 0 <= f /\ f < 1) by (unfold f; lra).
  assert (H1 : 0 <= (v - u) * f) by (apply Qmult_le_0_compat; lra).
  assert (H2 : 0 <= (v - u) * (1 - f)) by (apply Qmult_le_0_compat; lra).
  assert (E2 : (v - u) * (1 - f) == v - (u + (v - u) * f)) by ring.
  split; lra.
Qed.

(** ** compute_quantile *)

(** The level at which [compute_quantile] reads the sample. *)
Definition adjusted_level (n : nat) (cov : Q) : Q :=
  py_min ((1 - (1 - cov)) * (1 + 1 / inject_Z (Z.of_nat n))) 1.

Lemma adjusted_level_facts (n : nat) (cov cov' : Q) :
  (1 <= n)%nat ->
  adjusted_level n cov <= 1 /\
  (0 <= cov -> 0 <= adjusted_level n cov) /\
  (cov < 0 -> adjusted_level n cov < 0) /\
  (cov <= cov' -> adjusted_level n cov <= adjusted_level n cov').
Proof.
  intros Hn. unfold adjusted_level.
  assert (Hpos : 0 < inject_Z (Z.of_nat n)).
  { replace 0 with (inject_Z 0) by reflexivity. rewrite <- Zlt_Qlt. lia. }
  assert (Hinv : 0 < 1 / inject_Z (Z.of_nat n)).
  { unfold Qdiv. rewrite Qmult_1_l. apply Qinv_lt_0_compat. exact Hpos. }
  set (w := 1 + 1 / inject_Z (Z.of_nat n)) in *.
  assert (Hw : 0 < w) by (unfold w; lra).
  assert (E : forall c, (1 - (1 - c)) * w == c * w) by (intros; ring).
  repeat apply conj.
  - destruct (py_min_cases ((1 - (1 - cov)) * w) 1) as [[H ->]|[H ->]]; lra.
  - intros H0. assert (0 <= cov * w) by (apply Qmult_le_0_compat; lra).
    destruct (py_min_cases ((1 - (1 - cov)) * w) 1) as [[H' ->]|[H' ->]];
      [lra | rewrite E; lra].
  - intros H0. assert (Hneg : 0 < (- cov) * w) by (apply Qmult_lt_0_compat; lra).
    assert (E' : (- cov) * w == - (cov * w)) by ring.
    destruct (py_min_cases ((1 - (1 - cov)) * w) 1) as [[H' ->]|[H' ->]];
      [rewrite E in H'; lra | rewrite E; lra].
  - intros Hc.
    assert (Hm : cov * w <= cov' * w) by (apply Qmult_le_compat_r; lra).
    destruct (py_min_cases ((1 - (1 - cov)) * w) 1) as [[H1 ->]|[H1 ->]];
      destruct (py_min_cases ((1 - (1 - cov')) * w) 1) as [[H2 ->]|[H2 ->]];
      rewrite ?E in *; lra.
Qed.

Lemma compute_quantile_level (scores : list Q) (cov : Q) :
  scores <> [] ->
  compute_quantile scores cov
  = bind (of_option NumpyError
            (np_quantile scores (adjusted_level (length scores) cov)))
         (fun q => ok (Fin q)).
Proof.
  intros Hne. unfold compute_quantile.
  destruct scores; [congruence | reflexivity].
Qed.

Lemma compute_quantile_finite (scores : list Q) (cov : Q) :
  scores <> [] -> 0 <= cov ->
  exists q,
    np_quantile scores (adjusted_level (length scores) cov) = Some q /\
    compute_quantile scores cov = inr (Fin q).
Proof.
  intros Hne Hc.
  assert (Hn : (1 <= length scores)%nat).
  { destruct scores; [congruence | cbn; lia]. }
  destruct (adjusted_level_facts (length scores) cov cov Hn) as (H1 & H0 & _).
  destruct (np_quantile_defined scores (adjusted_level (length scores) cov) Hne
              (H0 Hc) H1) as [q Hq].
  exists q. split; [exact Hq|].
  rewrite compute_quantile_level by exact Hne. rewrite Hq. reflexivity.
Qed.

(** [compute_quantile] on the empty sample is infinite; on a non-empty
    sample and for a coverage that is not negative it returns a finite
    value between the smallest and the largest score that does not
    decrease when the coverage grows.  It can only fail in the quantile
    of the numeric library, and then the coverage is negative. *)
Theorem compute_quantile_inside_sample (scores : list Q) (cov : Q) :
  (scores = [] -> compute_quantile scores cov = inr PInf) /\
  (forall e, compute_quantile scores cov = inl e -> e = NumpyError /\ cov < 0) /\
  (scores <> [] -> 0 <= cov ->
   exists q,
     compute_quantile scores cov = inr (Fin q) /\
     (forall lo hi,
         Forall (fun x => lo <= x) scores -> Forall (fun x => x <= hi) scores ->
         lo <= q /\ q <= hi) /\
     (forall cov' q',
         cov <= cov' -> compute_quantile scores cov' = inr (Fin q') -> q <= q')).
Proof.
  split; [intros ->; reflexivity|]. split.
  - intros e He. destruct scores as [|s0 rest]; [discriminate|].
    assert (Hne : s0 :: rest <> []) by discriminate.
    destruct (Qlt_le_dec cov 0) as [Hlt|Hge].
    + split; [|exact Hlt].
      rewrite compute_quantile_level in He by exact Hne.
      destruct (np_quantile _ _); cbn in He; unfold ok in He; congruence.
    + destruct (compute_quantile_finite _ cov Hne Hge) as [q [_ Hq]].
      rewrite Hq in He. discriminate.
  - intros Hne Hc.
    assert (Hn : (1 <= length scores)%nat).
    { destruct scores; [congruence | cbn; lia]. }
    destruct (compute_quantile_finite scores cov Hne Hc) as [q [Hq Hcq]].
    exists q. split; [exact Hcq|]. split.
    + intros lo hi Hlo Hhi. eapply np_quantile_within; eassumption.
    + intros cov' q' Hcc. rewrite compute_quantile_level by exact Hne.
      destruct (np_quantile scores (adjusted_level (length scores) cov')) as [q''|] eqn:Hq';
        cbn; [|discriminate].
      intros H. inversion H; subst.
      eapply np_quantile_monotone; [|exact Hq|exact Hq'].
      apply (adjusted_level_facts (length scores) cov cov' Hn). exact Hcc.
Qed.

(** [compute_quantile] at coverage 0.9 on three scores. *)
Lemma compute_quantile_inside_sample_witness :
  exists q,
    compute_quantile [0.2; 0.8; 0.5] 0.9 = inr (Fin q) /\ 0.2 <= q /\ q <= 0.8.
Proof.
  destruct (proj2 (proj2 (compute_quantile_inside_sample [0.2; 0.8; 0.5] 0.9)))
    as (q & Hq & Hb & _); [discriminate | apply Qleb_le; reflexivity |].
  exists q. split; [exact Hq|].
  apply Hb; repeat constructor; apply Qleb_le; reflexivity.
Defined.

(** ** A successful split [fit] and the predictions after it *)

Lemma np_clip_max_Forall (scores : list Q) (clip lo hi : Q) :
  lo <= clip ->
  Forall (fun x => lo <= x) scores -> Forall (fun x => x <= hi) scores ->
  Forall (fun x => lo <= x) (np_clip_max scores clip) /\
  Forall (fun x => x <= hi) (np_clip_max scores clip).
Proof.
  intros Hc Hlo Hhi. unfold np_clip_max. split.
  - induction Hlo as [|x xs Hx Hxs IH]; cbn; constructor.
    + destruct (Qltb clip x); assumption.
    + apply IH. inversion Hhi; assumption.
  - induction Hhi as [|x xs Hx Hxs IH]; cbn; constructor.
    + destruct (Qltb clip x) eqn:E; [|assumption].
      apply Qltb_lt in E. lra.
    + apply IH. inversion Hlo; assumption.
Qed.

(** With at least [min_calibration_size] scores (and at least one), a
    coverage that is not negative and a clip percentile in [0, 100],
    the split [fit] returns the identifier it drew and stores a
    calibration with that identifier, the target coverage, the number of
    scores and a finite quantile between the smallest and the largest
    score; every later [predict] returns one valid result per row, with
    that quantile. *)
Theorem split_fit_then_predict
    (cfg : ConformalConfig) (old : option CalibrationData)
    (scores : ndarray) (id : string) (now : Q) :
  let self := {| Split.config := cfg; Split._calibration := old |} in
  (min_calibration_size cfg <= Z.of_nat (length (flatten scores)))%Z ->
  flatten scores <> [] ->
  0 <= coverage cfg ->
  0 <= score_clip_percentile cfg -> score_clip_percentile cfg <= 100 ->
  exists self' q,
    Split.fit self scores id now = inr (self', id) /\
    Split.config self' = cfg /\
    Split.get_calibration self'
    = Some {| calibration_id := id; cal_quantile := Fin q;
              cal_coverage := coverage cfg;
              n_samples := length (flatten scores);
              method := "split_conformal"; created_at := now |} /\
    (forall lo hi,
        Forall (fun x => lo <= x) (flatten scores) ->
        Forall (fun x => x <= hi) (flatten scores) ->
        lo <= q /\ q <= hi) /\
    (forall x : ndarray,
        length (Split.predict self' x) = length (as_rows x) /\
        Forall (fun r => is_valid r = true /\ quantile r = Fin q /\
                         coverage_probability r = coverage cfg)
               (Split.predict self' x)).
Proof.
  cbv zeta. intros Hmin Hne Hcov Hp0 Hp1.
  unfold Split.fit. cbn [Split.config].
  assert (Hfew : too_few cfg (flatten scores) = false).
  { unfold too_few. apply Z.ltb_ge. exact Hmin. }
  rewrite Hfew.
  destruct (StatisticsFacts.np_percentile_defined (flatten scores)
              (score_clip_percentile cfg) Hne Hp0 Hp1) as [clip Hclip].
  rewrite Hclip. cbn [of_option bind].
  set (clipped := np_clip_max (flatten scores) clip).
  assert (Hlen : length clipped = length (flatten scores)).
  { unfold clipped, np_clip_max. apply length_map. }
  assert (Hne' : clipped <> []).
  { intros E. rewrite E in Hlen. cbn in Hlen.
    destruct (flatten scores); [congruence | discriminate]. }
  destruct (compute_quantile_finite clipped (coverage cfg) Hne' Hcov) as [q [Hq Hcq]].
  rewrite Hcq. cbn [bind]. eexists. exists q.
  split; [reflexivity|]. split; [reflexivity|].
  split; [cbn; rewrite Hlen; reflexivity|]. split.
  - intros lo hi Hlo Hhi.
    assert (Hc : lo <= clip).
    { unfold np_percentile in Hclip.
      apply (np_quantile_within _ _ _ lo hi Hclip Hlo Hhi). }
    destruct (np_clip_max_Forall (flatten scores) clip lo hi Hc Hlo Hhi) as [H1 H2].
    eapply np_quantile_within; eassumption.
  - intros x. cbn. split; [apply predict_rows_length|].
    unfold predict_rows. apply List.Forall_forall. intros r Hr.
    apply in_map_iff in Hr. destruct Hr as [row [<- _]]. cbn. auto.
Qed.

(** Four scores against a minimum of three. *)
Lemma split_fit_then_predict_witness :
  exists self' q,
    Split.fit (Split.init {| coverage := 0.9; min_calibration_size := 3;
                             score_clip_percentile := 99 |})
              (Arr1 [0.1; 0.4; 0.3; 0.2]) "cal" 0 = inr (self', "cal"%string) /\
    0.1 <= q /\ q <= 0.4 /\
    Forall (fun r => quantile r = Fin q) (Split.predict self' (Arr2 [[0.2; 0.9]])).
Proof.
  destruct (split_fit_then_predict
              {| coverage := 0.9; min_calibration_size := 3;
                 score_clip_percentile := 99 |} None
              (Arr1 [0.1; 0.4; 0.3; 0.2]) "cal" 0)
    as (self' & q & Hfit & _ & _ & Hb & Hp).
  - cbn. lia.
  - discriminate.
  - apply Qleb_le. reflexivity.
  - apply Qleb_le. reflexivity.
  - apply Qleb_le. reflexivity.
  - exists self', q. split; [exact Hfit|].
    destruct (Hb 0.1 0.4) as [H1 H2];
      [repeat constructor; apply Qleb_le; reflexivity
      |repeat constructor; apply Qleb_le; reflexivity|].
    split; [exact H1|]. split; [exact H2|].
    destruct (Hp (Arr2 [[0.2; 0.9]])) as [_ Hf].
    eapply Forall_impl; [exact Hf|]. cbn. intros r (_ & Hr & _). exact Hr.
Defined.

(** ** The adaptive predictor over a run of updates *)

(** A run of [update] calls, each with its true label and the set that
    was predicted. *)
Definition run_updates (self : Adaptive.t) (updates : list (Z * list Z)) : Adaptive.t :=
  fold_left (fun s u => Adaptive.update s (fst u) (snd u)) updates self.

(** The entry that one update appends to the coverage history. *)
Definition covered_flag (u : Z * list Z) : Q :=
  if Adaptive.is_covered (fst u) (snd u) then 1 else 0.

Lemma run_updates_fields (self : Adaptive.t) (updates : list (Z * list Z)) :
  Adaptive.config (run_updates self updates) = Adaptive.config self /\
  Adaptive._gamma (run_updates self updates) = Adaptive._gamma self /\
  Adaptive._n_updates (run_updates self updates)
  = (Adaptive._n_updates self + length updates)%nat /\
  Adaptive._coverage_history (run_updates self updates)
  = Adaptive._coverage_history self ++ map covered_flag updates.
Proof.
  revert self. induction updates as [|u rest IH]; intros self.
  - cbn. rewrite app_nil_r. repeat split. lia.
  - cbn [run_updates fold_left]. fold (run_updates (Adaptive.update self (fst u) (snd u)) rest).
    destruct (IH (Adaptive.update self (fst u) (snd u))) as (H1 & H2 & H3 & H4).
    rewrite H1, H2, H3, H4. cbn. repeat split; [lia|].
    rewrite <- app_assoc. reflexivity.
Qed.

Lemma Qsum_flags_range (flags : list Q) :
  Forall (fun x => x = 0 \/ x = 1) flags ->
  0 <= Qsum flags /\ Qsum flags <= inject_Z (Z.of_nat (length flags)).
Proof.
  induction 1 as [|x xs Hx Hxs IH]; cbn [Qsum fold_right length].
  - split; apply Qleb_le; reflexivity.
  - fold (Qsum xs). rewrite Nat2Z.inj_succ, <- Z.add_1_r, inject_Z_plus.
    change (inject_Z 1) with 1. destruct Hx as [->| ->]; lra.
Qed.

Lemma py_tail_slice_suffix {X} (k : Z) (l : list X) :
  (0 <= k)%Z -> l <> [] ->
  py_tail_slice k l <> [] /\ exists before, l = before ++ py_tail_slice k l.
Proof.
  intros Hk Hne. unfold py_tail_slice. cbv zeta.
  assert (Hlen : (0 < length l)%nat) by (destruct l; [congruence | cbn; lia]).
  set (start := if (- k <? 0)%Z then _ else _).
  assert (Hstart : (Z.to_nat start < length l)%nat).
  { unfold start. destruct (Z.ltb_spec (- k) 0); lia. }
  split.
  - intros E. apply (f_equal (@length X)) in E. rewrite length_drop in E. cbn in E. lia.
  - exists (take (Z.to_nat start) l). symmetry. apply take_drop.
Qed.

(** After any run of updates on a predictor whose counters are at their
    reset values (as [__init__] and [fit] leave them), the update
    counter equals the number of updates and the length of the coverage
    history, whose entries are 0.0 or 1.0 in the order of the updates;
    the configuration and the step size are those of the start; and the
    running coverage over any window that is not negative is a number
    in [0, 1], and 0.0 before the first update. *)
Theorem adaptive_history_and_running_coverage
    (cfg : ConformalConfig) (gamma : Q) (q0 : pyfloat)
    (updates : list (Z * list Z)) (window : Z) :
  let self' := run_updates (adaptive_at cfg gamma q0 0 []) updates in
  Adaptive._n_updates self' = length updates /\
  Adaptive._coverage_history self' = map covered_flag updates /\
  Adaptive.config self' = cfg /\ Adaptive._gamma self' = gamma /\
  Adaptive.get_running_coverage (adaptive_at cfg gamma q0 0 []) window = Fin 0 /\
  ((0 <= window)%Z ->
   exists r, Adaptive.get_running_coverage self' window = Fin r /\ 0 <= r /\ r <= 1).
Proof.
  cbv zeta.
  destruct (run_updates_fields (adaptive_at cfg gamma q0 0 []) updates)
    as (H1 & H2 & H3 & H4).
  cbn [adaptive_at Adaptive.config Adaptive._gamma Adaptive._n_updates
       Adaptive._coverage_history app Nat.add] in *.
  repeat apply conj; try assumption.
  - reflexivity.
  - intros Hw. unfold Adaptive.get_running_coverage. rewrite H4.
    destruct (map covered_flag updates) as [|f0 fs] eqn:Hm.
    { exists 0. repeat split; apply Qleb_le; reflexivity. }
    rewrite <- Hm.
    destruct (py_tail_slice_suffix window (map covered_flag updates) Hw)
      as [Hne [before Hsplit]]; [rewrite Hm; discriminate|].
    set (recent := py_tail_slice window (map covered_flag updates)) in *.
    assert (Hflags : Forall (fun x => x = 0 \/ x = 1) recent).
    { assert (Hall : Forall (fun x => x = 0 \/ x = 1) (map covered_flag updates)).
      { apply List.Forall_forall. intros x Hx. apply in_map_iff in Hx.
        destruct Hx as [u [<- _]]. unfold covered_flag.
        destruct (Adaptive.is_covered _ _); auto. }
      rewrite Hsplit in Hall. apply Forall_app in Hall. apply Hall. }
    destruct (Qsum_flags_range recent Hflags) as [Hs0 Hs1].
    unfold np_mean, fdiv_count. destruct recent as [|x xs] eqn:Hr; [congruence|].
    rewrite <- Hr in *. replace (length recent) with (S (length xs)) by (rewrite Hr; reflexivity).
    eexists. split; [reflexivity|].
    assert (Hpos : 0 < inject_Z (Z.of_nat (S (length xs)))).
    { replace 0 with (inject_Z 0) by reflexivity. rewrite <- Zlt_Qlt. lia. }
    replace (length recent) with (S (length xs)) in Hs1 by (rewrite Hr; reflexivity).
    split.
    + apply Qle_shift_div_l; [exact Hpos | lra].
    + apply Qle_shift_div_r; [exact Hpos | lra].
Qed.

(** Two covered updates and one miss, over the default window. *)
Lemma adaptive_history_and_running_coverage_witness :
  exists r,
    Adaptive.get_running_coverage
      (run_updates (adaptive_at default_config 0.01 (Fin 1) 0 [])
                   [(2%Z, [1%Z; 2%Z]); (0%Z, [1%Z]); (1%Z, [1%Z])])
      Adaptive.default_window = Fin r /\ 0 <= r /\ r <= 1.
Proof.
  refine (proj2 (proj2 (proj2 (proj2 (proj2
            (adaptive_history_and_running_coverage default_config 0.01 (Fin 1)
               [(2%Z, [1%Z; 2%Z]); (0%Z, [1%Z]); (1%Z, [1%Z])] Adaptive.default_window)))))
            _).
  unfold Adaptive.default_window. lia.
Defined.

(** One update moves a finite quantile that is not negative in the
    direction of the miss, and not below the step: for a step size that
    is not negative and a coverage in [0, 1], a covered label leaves a
    quantile [q'] with [q - gamma * (1 - coverage) <= q' <= q] that is
    not negative, and a missed label leaves [q' = q + gamma * coverage],
    which is at least [q]. *)
Theorem adaptive_update_direction
    (cfg : ConformalConfig) (gamma q : Q) (n : nat) (hist : list Q)
    (true_label : Z) (ps : list Z) :
  0 <= gamma -> 0 <= coverage cfg -> coverage cfg <= 1 -> 0 <= q ->
  exists q',
    Adaptive._quantile (Adaptive.update (adaptive_at cfg gamma (Fin q) n hist)
                                        true_label ps) = Fin q' /\
    (In true_label ps ->
     q' <= q /\ q - gamma * (1 - coverage cfg) <= q' /\ 0 <= q') /\
    (~ In true_label ps -> q <= q' /\ q' == q + gamma * coverage cfg).
Proof.
  intros Hg Hc0 Hc1 Hq. rewrite update_quantile.
  cbn [adaptive_at Adaptive._quantile Adaptive._gamma Adaptive.config].
  assert (Hdown : 0 <= gamma * (1 - coverage cfg)) by (apply Qmult_le_0_compat; lra).
  assert (Hup : 0 <= gamma * coverage cfg) by (apply Qmult_le_0_compat; lra).
  destruct (Adaptive.is_covered true_label ps) eqn:Hcov.
  - cbn [fsub fneg fadd].
    destruct (fmax_zero_fin (q + - (gamma * (1 - coverage cfg)))) as [y [Hy Hmax]].
    exists y. split; [exact Hy|]. split.
    + intros _. rewrite Hmax.
      destruct (Q.max_spec 0 (q + - (gamma * (1 - coverage cfg)))) as [[H1 ->]|[H1 ->]];
        split; [lra | split; lra | lra | split; lra].
    + intros Hn. exfalso. apply Hn. apply is_covered_In. exact Hcov.
  - cbn [fadd].
    destruct (fmax_zero_fin (q + gamma * coverage cfg)) as [y [Hy Hmax]].
    exists y. split; [exact Hy|]. split.
    + intros Hin. apply is_covered_In in Hin. congruence.
    + intros _. assert (E : y == q + gamma * coverage cfg).
      { rewrite Hmax. apply Q.max_r. lra. }
      split; [lra | exact E].
Qed.

(** A miss at coverage 0.9 and step 0.01 raises the quantile 1 by 0.009. *)
Lemma adaptive_update_direction_witness :
  exists q',
    Adaptive._quantile (Adaptive.update (adaptive_at default_config 0.01 (Fin 1) 0 [])
                                        3 [1%Z; 2%Z]) = Fin q' /\
    q' == 1 + 0.01 * 0.9.
Proof.
  destruct (adaptive_update_direction default_config 0.01 1 0 [] 3 [1%Z; 2%Z])
    as (q' & Hq & _ & Hmiss); try (apply Qleb_le; reflexivity).
  exists q'. split; [exact Hq|]. apply Hmiss.
  intros [H|[H|[]]]; discriminate.
Defined.

(** ** The Mondrian [fit] *)

Lemma insert_unique_In (x y : Z) (l : list Z) :
  In x (Mondrian.insert_unique y l) <-> x = y \/ In x l.
Proof.
  induction l as [|z l IH]; cbn [Mondrian.insert_unique].
  - cbn. intuition.
  - destruct (Z.ltb_spec y z); [cbn; intuition|].
    destruct (Z.eqb_spec y z) as [->|Hne]; cbn; [intuition|].
    rewrite IH. intuition.
Qed.

Lemma np_unique_In (x : Z) (labels : list Z) :
  In x (Mondrian.np_unique labels) <-> In x labels.
Proof.
  unfold Mondrian.np_unique. induction labels as [|y l IH]; cbn [fold_right].
  - reflexivity.
  - rewrite insert_unique_In, IH. cbn. intuition.
Qed.

Lemma insert_unique_sorted (y : Z) (l : list Z) :
  StronglySorted Z.lt l -> StronglySorted Z.lt (Mondrian.insert_unique y l).
Proof.
  induction 1 as [|z l Hs IH Hz]; cbn [Mondrian.insert_unique].
  - repeat constructor.
  - destruct (Z.ltb_spec y z).
    + constructor; [constructor; assumption|]. constructor; [assumption|].
      eapply Forall_impl; [exact Hz|]. cbn. intros. lia.
    + destruct (Z.eqb_spec y z) as [->|Hne]; [constructor; assumption|].
      constructor; [exact IH|].
      apply List.Forall_forall. intros x Hx. apply insert_unique_In in Hx.
      destruct Hx as [->|Hx]; [lia|].
      rewrite List.Forall_forall in Hz. apply Hz. exact Hx.
Qed.

Lemma np_unique_sorted (labels : list Z) :
  StronglySorted Z.lt (Mondrian.np_unique labels).
Proof.
  unfold Mondrian.np_unique. induction labels as [|y l IH]; cbn [fold_right].
  - constructor.
  - apply insert_unique_sorted. exact IH.
Qed.

Lemma masked_Forall (P : Q -> Prop) (scores : list Q) (labels : list Z) (cls : Z) :
  Forall P scores -> Forall P (Mondrian.masked scores labels cls).
Proof.
  intros H. revert labels. induction H as [|s scores Hs Hrest IH]; intros labels.
  - destruct labels; constructor.
  - destruct labels as [|l labels]; cbn [Mondrian.masked]; [constructor|].
    destruct (l =? cls)%Z; [constructor; [exact Hs | apply IH] | apply IH].
Qed.

(** A finite quantile inside the range of the calibration scores. *)
Definition inside_scores (scores : list Q) (q : pyfloat) : Prop :=
  exists x, q = Fin x /\
            forall lo hi,
              Forall (fun s => lo <= s) scores -> Forall (fun s => s <= hi) scores ->
              lo <= x /\ x <= hi.

Lemma fit_classes_result (cfg : ConformalConfig) (scores : list Q) (labels : list Z)
    (classes : list Z) (acc : gmap Z pyfloat) :
  scores <> [] -> 0 <= coverage cfg ->
  StronglySorted Z.lt classes ->
  (forall c, In c classes -> acc !! c = None) ->
  exists m,
    Mondrian.fit_classes cfg scores labels classes acc = inr m /\
    (forall c, is_Some (m !! c) <-> In c classes \/ is_Some (acc !! c)) /\
    size m = (length classes + size acc)%nat /\
    ((forall c q, acc !! c = Some q -> inside_scores scores q) ->
     forall c q, m !! c = Some q -> inside_scores scores q).
Proof.
  intros Hne Hcov Hsorted. revert acc.
  induction Hsorted as [|cls rest Hs IH Hlt]; intros acc Hfresh;
    cbn [Mondrian.fit_classes].
  - exists acc. split; [reflexivity|]. split; [intros c; cbn; intuition|].
    split; [reflexivity | auto].
  - set (cls_scores := Mondrian.masked scores labels cls).
    assert (Hq : exists x,
               (if (length cls_scores <? 10)%nat
                then compute_quantile scores (coverage cfg)
                else compute_quantile cls_scores (coverage cfg)) = inr (Fin x) /\
               inside_scores scores (Fin x)).
    { destruct (Nat.ltb_spec (length cls_scores) 10) as [Hsmall|Hbig].
      - destruct (compute_quantile_finite scores (coverage cfg) Hne Hcov) as [x [Hx Hc]].
        exists x. split; [exact Hc|]. exists x. split; [reflexivity|].
        intros lo hi Hlo Hhi. eapply np_quantile_within; eassumption.
      - assert (Hne' : cls_scores <> []).
        { intros E. rewrite E in Hbig. cbn in Hbig. lia. }
        destruct (compute_quantile_finite cls_scores (coverage cfg) Hne' Hcov)
          as [x [Hx Hc]].
        exists x. split; [exact Hc|]. exists x. split; [reflexivity|].
        intros lo hi Hlo Hhi.
        eapply np_quantile_within; [exact Hx | |]; apply masked_Forall; assumption. }
    destruct Hq as (x & -> & Hin). cbn [bind].
    destruct (IH (<[cls := Fin x]> acc)) as (m & Hm & Hdom & Hsize & Hvals).
    { intros c Hc. rewrite lookup_insert_ne; [apply Hfresh; right; exact Hc|].
      rewrite List.Forall_forall in Hlt. specialize (Hlt c Hc). lia. }
    exists m. split; [exact Hm|]. split; [|split].
    + intros c. rewrite Hdom. destruct (decide (cls = c)) as [->|Hnc].
      * rewrite lookup_insert_eq. cbn. split; [auto|]. intros _. right. eauto.
      * rewrite lookup_insert_ne by exact Hnc. cbn. intuition.
    + rewrite Hsize. rewrite map_size_insert_None by (apply Hfresh; left; reflexivity).
      cbn. lia.
    + intros Hacc. apply Hvals. intros c q Hc.
      destruct (decide (cls = c)) as [->|Hnc].
      * rewrite lookup_insert_eq in Hc. inversion Hc; subst. exact Hin.
      * rewrite lookup_insert_ne in Hc by exact Hnc. eapply Hacc. exact Hc.
Qed.

(** With labels as long as the scores and a coverage that is not
    negative, the Mondrian [fit] succeeds and returns the identifier it
    drew; afterwards a class has a stored quantile exactly when it
    occurs among the labels, [_n_classes] is the number of stored
    quantiles, and every stored quantile is finite and lies between the
    smallest and the largest calibration score.  With no labels at all
    the map stays empty and [predict] still answers "not calibrated";
    otherwise [predict] returns one valid result per row. *)
Theorem mondrian_fit_classes
    (self : Mondrian.t) (scores : ndarray) (labels : list Z) (id : string) :
  length (flatten scores) = length labels ->
  0 <= coverage (Mondrian.config self) ->
  exists self',
    Mondrian.fit self scores (Some labels) id = inr (self', id) /\
    Mondrian.config self' = Mondrian.config self /\
    (forall c, is_Some (Mondrian._class_quantiles self' !! c) <-> In c labels) /\
    Mondrian._n_classes self' = size (Mondrian._class_quantiles self') /\
    (forall c q, Mondrian._class_quantiles self' !! c = Some q ->
                 inside_scores (flatten scores) q) /\
    (labels = [] ->
     forall x, Mondrian.predict self' x = [not_calibrated (Mondrian.config self)]) /\
    (labels <> [] ->
     forall x,
       length (Mondrian.predict self' x) = length (as_rows x) /\
       Forall (fun r => is_valid r = true) (Mondrian.predict self' x)).
Proof.
  intros Hlen Hcov. unfold Mondrian.fit.
  rewrite Hlen, Nat.eqb_refl. cbn [negb].
  destruct labels as [|l0 labels'] eqn:Hl.
  - unfold Mondrian.np_unique.
    cbn [fold_right Mondrian.fit_classes bind length].
    eexists. split; [reflexivity|]. split; [reflexivity|].
    cbn [Mondrian._class_quantiles Mondrian._n_classes Mondrian.config].
    repeat apply conj.
    + intros c. rewrite lookup_empty. split; [intros [? ?]; discriminate | intros []].
    + rewrite map_size_empty. reflexivity.
    + intros c q H. rewrite lookup_empty in H. discriminate.
    + intros _ x. unfold Mondrian.predict. cbn.
      destruct (decide _) as [_|Hn]; [reflexivity | congruence].
    + congruence.
  - rewrite <- Hl in *.
    assert (Hne : flatten scores <> []).
    { intros E. rewrite E, Hl in Hlen. discriminate. }
    destruct (fit_classes_result (Mondrian.config self) (flatten scores) labels
                (Mondrian.np_unique labels) ∅ Hne Hcov (np_unique_sorted labels))
      as (m & Hm & Hdom & Hsize & Hvals).
    { intros c _. apply lookup_empty. }
    rewrite Hm. cbn [bind]. eexists. split; [reflexivity|]. split; [reflexivity|].
    cbn [Mondrian._class_quantiles Mondrian._n_classes Mondrian.config].
    assert (Hnonempty : m <> ∅).
    { intros E. assert (Hin : is_Some (m !! l0)).
      { apply Hdom. left. apply np_unique_In. rewrite Hl. left. reflexivity. }
      rewrite E, lookup_empty in Hin. destruct Hin; discriminate. }
    repeat apply conj.
    + intros c. rewrite Hdom, np_unique_In, lookup_empty. split; [|auto].
      intros [H|[? H]]; [exact H | discriminate].
    + rewrite Hsize, map_size_empty. lia.
    + apply Hvals. intros c q H. rewrite lookup_empty in H. discriminate.
    + rewrite Hl. discriminate.
    + intros _ x. unfold Mondrian.predict. cbn.
      destruct (decide (m = ∅)) as [E|_]; [contradiction|].
      split; [apply length_map|].
      apply List.Forall_forall. intros r Hr. apply in_map_iff in Hr.
      destruct Hr as [row [<- _]]. reflexivity.
Qed.

(** Three scores with the labels 1, 0, 1. *)
Lemma mondrian_fit_classes_witness :
  exists self',
    Mondrian.fit (Mondrian.init default_config) (Arr1 [0.3; 0.5; 0.1])
                 (Some [1%Z; 0%Z; 1%Z]) "m" = inr (self', "m"%string) /\
    Mondrian._n_classes self' = size (Mondrian._class_quantiles self') /\
    is_Some (Mondrian._class_quantiles self' !! 1%Z).
Proof.
  destruct (mondrian_fit_classes (Mondrian.init default_config) (Arr1 [0.3; 0.5; 0.1])
              [1%Z; 0%Z; 1%Z] "m")
    as (self' & Hfit & _ & Hdom & Hn & _).
  - reflexivity.
  - apply Qleb_le. reflexivity.
  - exists self'. split; [exact Hfit|]. split; [exact Hn|].
    apply Hdom. left. reflexivity.
Defined.

(** ** The calibration store *)

Section Store.

Import Conformal.ConformalCalibrationStore.
Local Open Scope result_scope.

Lemma dict_get_set {V} (k : string) (v : V) (d : list (string * V)) :
  dict_get k (dict_set k v d) = Some v.
Proof.
  induction d as [|[k' v'] rest IH]; cbn.
  - rewrite String.eqb_refl. reflexivity.
  - destruct (String.eqb_spec k' k) as [->|Hne]; cbn.
    + rewrite String.eqb_refl. reflexivity.
    + destruct (String.eqb_spec k' k); [contradiction | exact IH].
Qed.

Lemma dict_get_set_other {V} (k k' : string) (v : V) (d : list (string * V)) :
  k' <> k -> dict_get k' (dict_set k v d) = dict_get k' d.
Proof.
  intros Hne. induction d as [|[k0 v0] rest IH]; cbn.
  - destruct (String.eqb_spec k k'); [congruence | reflexivity].
  - destruct (String.eqb_spec k0 k) as [->|H0]; cbn.
    + destruct (String.eqb_spec k k'); [congruence | reflexivity].
    + destruct (String.eqb_spec k0 k'); [reflexivity | exact IH].
Qed.

Lemma dict_get_del {V} (k k' : string) (d : list (string * V)) :
  dict_get k' (dict_del k d) = if String.eqb k' k then None else dict_get k' d.
Proof.
  unfold dict_del. induction d as [|[k0 v0] rest IH]; cbn.
  - destruct (String.eqb k' k); reflexivity.
  - destruct (String.eqb_spec k0 k) as [->|H0]; cbn.
    + rewrite IH. destruct (String.eqb_spec k' k) as [->|H1].
      * reflexivity.
      * destruct (String.eqb_spec k k'); [congruence | reflexivity].
    + rewrite IH. destruct (String.eqb_spec k0 k') as [->|H1].
      * destruct (String.eqb_spec k' k); [congruence | reflexivity].
      * reflexivity.
Qed.

Lemma dict_set_length {V} (k : string) (v : V) (d : list (string * V)) :
  (length (dict_set k v d) <= S (length d))%nat.
Proof.
  induction d as [|[k' v'] rest IH]; cbn; [lia|].
  destruct (String.eqb k' k); cbn; lia.
Qed.

Lemma dict_del_length {V} (k : string) (d : list (string * V)) :
  In k (map fst d) -> (S (length (dict_del k d)) <= length d)%nat.
Proof.
  unfold dict_del. induction d as [|[k' v'] rest IH]; cbn; [intros []|].
  intros [->|Hin].
  - rewrite String.eqb_refl. cbn.
    pose proof (List.filter_length_le
                  (fun e : string * V => negb (String.eqb (fst e) k)) rest). lia.
  - specialize (IH Hin). destruct (String.eqb k' k); cbn; lia.
Qed.

(** The oldest key belongs to an entry that no entry is older than. *)
Lemma oldest_id_spec (d : list (string * CalibrationData)) :
  d <> [] ->
  exists k c,
    oldest_id d = Some k /\ In (k, c) d /\
    forall k' c', In (k', c') d -> created_at c <= created_at c'.
Proof.
  destruct d as [|[k0 c0] rest]; [congruence|]. intros _. unfold oldest_id.
  assert (H : forall (rest : list (string * CalibrationData)) (k : string)
                     (c : CalibrationData),
             exists k1 c1,
               fold_left
                 (fun best e =>
                    if Qltb (created_at (snd e)) (snd best)
                    then (fst e, created_at (snd e)) else best)
                 rest (k, created_at c) = (k1, created_at c1) /\
               In (k1, c1) ((k, c) :: rest) /\
               created_at c1 <= created_at c /\
               forall k' c', In (k', c') rest -> created_at c1 <= created_at c').
  { clear. induction rest as [|[k' c'] rest IH]; intros k c; cbn [fold_left].
    - exists k, c. repeat split; [left; reflexivity | lra | intros ? ? []].
    - cbn [fst snd]. destruct (Qltb (created_at c') (created_at c)) eqn:E.
      + apply Qltb_lt in E.
        destruct (IH k' c') as (k1 & c1 & Hf & Hin & Hle & Hall).
        exists k1, c1. split; [exact Hf|]. split; [|split].
        * right. exact Hin.
        * lra.
        * intros k2 c2 [H|H]; [inversion H; subst; exact Hle | eauto].
      + apply Qltb_false in E.
        destruct (IH k c) as (k1 & c1 & Hf & Hin & Hle & Hall).
        exists k1, c1. split; [exact Hf|]. split; [|split].
        * destruct Hin as [H|H]; [left; exact H | right; right; exact H].
        * exact Hle.
        * intros k2 c2 [H|H]; [inversion H; subst; lra | eauto]. }
  destruct (H rest k0 c0) as (k1 & c1 & Hf & Hin & Hle & Hall).
  exists k1, c1. rewrite Hf. split; [reflexivity|]. split; [exact Hin|].
  intros k' c' [H'|H']; [inversion H'; subst; exact Hle | eauto].
Qed.

Lemma store_result (self : t) (c : CalibrationData) :
  (1 <= _max_calibrations self)%Z ->
  (Z.of_nat (length (_calibrations self)) <= _max_calibrations self)%Z ->
  exists self',
    store self c = inr self' /\
    _max_calibrations self' = _max_calibrations self /\
    (Z.of_nat (length (_calibrations self')) <= _max_calibrations self)%Z /\
    get self' (calibration_id c) = Some c.
Proof.
  intros Hmax Hlen. unfold store.
  destruct (Z.leb_spec (_max_calibrations self) (Z.of_nat (length (_calibrations self))))
    as [Hfull|Hroom].
  - assert (Hne : _calibrations self <> []).
    { intros E. rewrite E in Hfull. cbn in Hfull. lia. }
    destruct (oldest_id_spec _ Hne) as (k & c0 & Hk & Hin & _).
    rewrite Hk. cbn [of_option bind]. eexists. split; [reflexivity|].
    split; [reflexivity|]. split.
    + cbn [_calibrations].
      pose proof (dict_set_length (calibration_id c) c (dict_del k (_calibrations self))).
      assert (Hd : (S (length (dict_del k (_calibrations self)))
                    <= length (_calibrations self))%nat).
      { apply dict_del_length. apply in_map_iff. exists (k, c0). auto. }
      lia.
    + unfold get. cbn. apply dict_get_set.
  - cbn [bind]. eexists. split; [reflexivity|]. split; [reflexivity|]. split.
    + cbn [_calibrations].
      pose proof (dict_set_length (calibration_id c) c (_calibrations self)). lia.
    + unfold get. cbn. apply dict_get_set.
Qed.

Lemma store_all_result (cs : list CalibrationData) (self : t) :
  (1 <= _max_calibrations self)%Z ->
  (Z.of_nat (length (_calibrations self)) <= _max_calibrations self)%Z ->
  exists self',
    store_all self cs = inr self' /\
    _max_calibrations self' = _max_calibrations self /\
    (Z.of_nat (length (_calibrations self')) <= _max_calibrations self)%Z /\
    (forall before c, cs = before ++ [c] -> get self' (calibration_id c) = Some c).
Proof.
  revert self. induction cs as [|c rest IH]; intros self Hmax Hlen; cbn [store_all].
  - exists self. repeat split; [exact Hlen|].
    intros before c E. destruct before; discriminate.
  - destruct (store_result self c Hmax Hlen) as (s1 & Hs & Hm & Hl & Hg).
    rewrite Hs. cbn [bind].
    destruct (IH s1) as (s2 & Hs2 & Hm2 & Hl2 & Hg2); [lia | lia |].
    exists s2. split; [exact Hs2|]. split; [lia|]. split; [lia|].
    intros before c' E. destruct rest as [|r rest'].
    + cbn in Hs2. inversion Hs2; subst s2.
      destruct before as [|b before]; [|destruct before; discriminate].
      inversion E; subst. exact Hg.
    + destruct before as [|b before]; [discriminate|].
      inversion E; subst. eapply Hg2. eassumption.
Qed.

(** A store built for at least one calibration never refuses a
    calibration and never holds more than [max_calibrations] of them,
    however many are stored; the calibration stored last can be read
    back under its identifier.  A store built with a bound of zero or
    less fails on its first [store], in the search for the oldest entry
    of an empty dictionary. *)
Theorem calibration_store_bounded (max_calibrations : Z) (cs : list CalibrationData) :
  ((1 <= max_calibrations)%Z ->
   exists self',
     store_all (init max_calibrations) cs = inr self' /\
     (Z.of_nat (length (list_calibrations self')) <= max_calibrations)%Z /\
     (forall before c, cs = before ++ [c] -> get self' (calibration_id c) = Some c)) /\
  ((max_calibrations <= 0)%Z ->
   forall c, store (init max_calibrations) c = inl (Raised "ValueError")).
Proof.
  split.
  - intros Hmax.
    destruct (store_all_result cs (init max_calibrations)) as (s & Hs & _ & Hl & Hg);
      [exact Hmax | cbn; lia |].
    exists s. split; [exact Hs|]. split; [|exact Hg].
    unfold list_calibrations. rewrite length_map. exact Hl.
  - intros Hmax c. unfold store. cbn [init _max_calibrations _calibrations length].
    destruct (Z.leb_spec max_calibrations (Z.of_nat 0)) as [_|H]; [reflexivity | cbn in H; lia].
Qed.

Definition cal (id : string) (t : Q) : CalibrationData :=
  {| calibration_id := id; cal_quantile := Fin 1; cal_coverage := 0.9;
     n_samples := 100; method := "split_conformal"; created_at := t |}.

(** Three calibrations into a store for two. *)
Lemma calibration_store_bounded_witness :
  exists self',
    store_all (init 2) [cal "a" 1; cal "b" 2; cal "c" 3] = inr self' /\
    (Z.of_nat (length (list_calibrations self')) <= 2)%Z /\
    get self' "c" = Some (cal "c" 3).
Proof.
  destruct (proj1 (calibration_store_bounded 2 [cal "a" 1; cal "b" 2; cal "c" 3]))
    as (s & Hs & Hl & Hg); [lia|].
  exists s. split; [exact Hs|]. split; [exact Hl|].
  apply (Hg [cal "a" 1; cal "b" 2] (cal "c" 3)). reflexivity.
Defined.

(** When the store is full, [store] removes the calibration with the
    earliest [created_at] before it writes the new one: that entry can
    no longer be read, unless it is stored again under the same
    identifier, and every other identifier reads as before. *)
Theorem calibration_store_evicts_oldest (self : t) (c : CalibrationData) :
  (_max_calibrations self <= Z.of_nat (length (_calibrations self)))%Z ->
  _calibrations self <> [] ->
  exists self' k c0,
    store self c = inr self' /\
    oldest_id (_calibrations self) = Some k /\
    In (k, c0) (_calibrations self) /\
    (forall k' c', In (k', c') (_calibrations self) -> created_at c0 <= created_at c') /\
    (k <> calibration_id c -> get self' k = None) /\
    get self' (calibration_id c) = Some c /\
    (forall id, id <> k -> id <> calibration_id c -> get self' id = get self id).
Proof.
  intros Hfull Hne. unfold store.
  destruct (Z.leb_spec (_max_calibrations self) (Z.of_nat (length (_calibrations self))))
    as [_|H]; [|lia].
  destruct (oldest_id_spec _ Hne) as (k & c0 & Hk & Hin & Hmin).
  rewrite Hk. cbn [of_option bind]. eexists. exists k, c0.
  split; [reflexivity|]. split; [reflexivity|]. split; [exact Hin|].
  split; [exact Hmin|]. unfold get. cbn [_calibrations]. repeat apply conj.
  - intros Hkc. rewrite dict_get_set_other by exact Hkc.
    rewrite dict_get_del, String.eqb_refl. reflexivity.
  - apply dict_get_set.
  - intros id H1 H2. rewrite dict_get_set_other by exact H2.
    rewrite dict_get_del. destruct (String.eqb_spec id k); [contradiction | reflexivity].
Qed.

(** A full store of two, into which a third calibration is stored. *)
Lemma calibration_store_evicts_oldest_witness :
  exists self',
    store {| _calibrations := [("b"%string, cal "b" 2); ("a"%string, cal "a" 1)];
             _max_calibrations := 2 |} (cal "c" 3) = inr self' /\
    get self' "a" = None /\ get self' "b" = Some (cal "b" 2).
Proof.
  destruct (calibration_store_evicts_oldest
              {| _calibrations := [("b"%string, cal "b" 2); ("a"%string, cal "a" 1)];
                 _max_calibrations := 2 |} (cal "c" 3))
    as (s & k & c0 & Hs & Hk & _ & _ & Hgone & _ & Hkeep).
  - cbn. lia.
  - discriminate.
  - assert (Ek : k = "a"%string).
    { vm_compute in Hk. inversion Hk. reflexivity. }
    subst k. exists s. split; [exact Hs|]. split.
    + apply Hgone. discriminate.
    + rewrite Hkeep; [reflexivity | discriminate | discriminate].
Defined.

End Store.

End ConformalMore.

(* ================================================================== *)
(** * Further properties of safety/monitors.py and runtime/controller.py *)
(* ================================================================== *)

Module MonitorsMore.

Import Exn Numeric NumericFacts Monitors Controller.
Local Open Scope Q_scope.
Local Open Scope result_scope.

(** ** ConstraintMonitor *)

(** When the check of a constraint monitor returns, it is triggered
    exactly when the value read (0.0 for a missing key) exceeds the
    limit; its severity lies in [0, 1], is 0.0 when not triggered, is
    [(value - limit) / limit] capped at 1 for a positive limit, and
    reaches 1 from twice a positive limit on.  The check raises exactly
    when the limit is zero and the value is positive, through the
    division. *)
Theorem constraint_monitor_check
    (exceeded_message : Q -> Q -> string) (self : ConstraintMonitor.t)
    (state : Observation) (now : Q) :
  let value := default 0 (state !! ConstraintMonitor.metric_key self) in
  let limit := ConstraintMonitor.limit self in
  (ConstraintMonitor.check exceeded_message self state now = inl ZeroDivisionError
   <-> limit == 0 /\ 0 < value) /\
  (forall out,
      ConstraintMonitor.check exceeded_message self state now = inr out ->
      (triggered out = true <-> limit < value) /\
      0 <= severity out /\ severity out <= 1 /\
      (value <= limit -> severity out = 0) /\
      (0 < limit -> limit < value ->
       severity out == Qmin ((value - limit) / limit) 1) /\
      (0 < limit -> 2 * limit <= value -> 1 <= severity out) /\
      monitor_id out = ConstraintMonitor.self_monitor_id self /\
      timestamp out = now) /\
  (~ (limit == 0 /\ 0 < value) ->
   exists out, ConstraintMonitor.check exceeded_message self state now = inr out).
Proof.
  cbv zeta. unfold ConstraintMonitor.check.
  set (value := default 0 (state !! ConstraintMonitor.metric_key self)).
  set (limit := ConstraintMonitor.limit self).
  destruct (Qltb limit value) eqn:Ht.
  - apply Qltb_lt in Ht.
    destruct (Qeq_bool limit 0) eqn:Ez.
    + apply Qeq_bool_iff in Ez. cbn [bind raise]. split; [|split].
      * split; [intros _; split; [exact Ez | lra] | reflexivity].
      * intros out H. discriminate.
      * intros Hn. exfalso. apply Hn. split; [exact Ez | lra].
    + apply Qeq_bool_neq in Ez. cbn [bind ok]. split; [|split].
      * split; [discriminate | intros [Hz _]; contradiction].
      * intros out H. inversion H; subst; clear H.
        cbn [triggered severity monitor_id timestamp].
        set (raw := (value - limit) / limit).
        assert (Hclamp : 0 <= py_min (py_max raw 0) 1 /\ py_min (py_max raw 0) 1 <= 1).
        { destruct (py_max_cases raw 0) as [[H1 ->]|[H1 ->]].
          - destruct (py_min_cases 0 1) as [[H2 ->]|[H2 ->]]; split; lra.
          - destruct (py_min_cases raw 1) as [[H2 ->]|[H2 ->]]; split; lra. }
        destruct Hclamp as [Hc0 Hc1].
        split; [split; [intros _; exact Ht | reflexivity]|].
        split; [exact Hc0|]. split; [exact Hc1|].
        split; [intros Hle; lra|]. split; [|split; [|split; reflexivity]].
        -- intros Hpos _.
           assert (Hraw : 0 <= raw).
           { unfold raw. apply Qle_shift_div_l; [exact Hpos | lra]. }
           destruct (py_max_cases raw 0) as [[H1 ->]|[H1 ->]]; [lra|].
           apply py_min_spec.
        -- intros Hpos H2.
           assert (Hraw : 1 <= raw).
           { unfold raw. apply Qle_shift_div_l; [exact Hpos | lra]. }
           destruct (py_max_cases raw 0) as [[H1 ->]|[H1 ->]]; [lra|].
           destruct (py_min_cases raw 1) as [[H3 ->]|[H3 ->]]; lra.
      * intros _. eexists. reflexivity.
  - apply Qltb_false in Ht. cbn [bind ok]. split; [|split].
    + split; [discriminate | intros [Hz Hv]; lra].
    + intros out H. inversion H; subst; clear H.
      cbn [triggered severity monitor_id timestamp].
      split; [split; [discriminate | intros; lra]|].
      split; [apply Qleb_le; reflexivity|].
      split; [apply Qleb_le; reflexivity|].
      split; [reflexivity|]. split; [intros _ Hlt; lra|].
      split; [intros Hpos H2; lra|]. split; reflexivity.
    + intros _. eexists. reflexivity.
Qed.

(** Speed 20 against the limit 10. *)
Lemma constraint_monitor_check_witness :
  exists out,
    ConstraintMonitor.check (fun _ _ => "exceeded"%string)
      {| ConstraintMonitor.self_monitor_id := "speed_limit";
         ConstraintMonitor.limit := 10;
         ConstraintMonitor.metric_key := "speed" |}
      (<["speed"%string := 20]> ∅) 0 = inr out /\
    triggered out = true /\ 1 <= severity out.
Proof.
  pose proof (constraint_monitor_check (fun _ _ => "exceeded"%string)
                {| ConstraintMonitor.self_monitor_id := "speed_limit";
                   ConstraintMonitor.limit := 10;
                   ConstraintMonitor.metric_key := "speed" |}
                (<["speed"%string := 20]> ∅) 0) as (_ & Hout & Hret).
  cbv zeta in Hout, Hret. destruct Hret as [out Hc].
  - intros [Hz _]. vm_compute in Hz. discriminate.
  - exists out. split; [exact Hc|].
    destruct (Hout out Hc) as (Ht & _ & _ & _ & _ & Hsat & _).
    split.
    + apply Ht. apply Qltb_lt. vm_compute. reflexivity.
    + apply Hsat; [apply Qltb_lt | apply Qleb_le]; vm_compute; reflexivity.
Defined.

(** ** GeofenceMonitor *)

(** The geofence monitor is triggered exactly when the position, with
    a missing coordinate read as 0.0, lies outside the closed rectangle
    of its bounds; its severity is 1.0 when triggered and 0.0 otherwise,
    and its message is "OK" when not triggered. *)
Theorem geofence_monitor_check
    (msg : Q -> Q -> Q * Q * Q * Q -> string) (id : string)
    (x_min y_min x_max y_max : Q) (state : Observation) (now : Q) :
  let x := default 0 (state !! "x"%string) in
  let y := default 0 (state !! "y"%string) in
  let out :=
    GeofenceMonitor.check msg
      {| GeofenceMonitor.self_monitor_id := id;
         GeofenceMonitor.bounds := (x_min, y_min, x_max, y_max) |} state now in
  (triggered out = false <->
   (x_min <= x /\ x <= x_max) /\ (y_min <= y /\ y <= y_max)) /\
  (triggered out = true -> severity out = 1) /\
  (triggered out = false -> severity out = 0 /\ message out = "OK"%string).
Proof.
  cbv zeta. unfold GeofenceMonitor.check.
  cbn [GeofenceMonitor.bounds triggered severity message].
  set (x := default 0 (state !! "x"%string)).
  set (y := default 0 (state !! "y"%string)).
  split; [rewrite negb_false_iff, !andb_true_iff, !Qleb_le; reflexivity|].
  destruct (negb _); split; intros H; try discriminate; auto.
Qed.

(** The unit square and a position to its right. *)
Lemma geofence_monitor_check_witness :
  severity (GeofenceMonitor.check (fun _ _ _ => "out"%string)
              {| GeofenceMonitor.self_monitor_id := "fence";
                 GeofenceMonitor.bounds := (0, 0, 1, 1) |}
              (<["x"%string := 2]> ∅) 0) = 1.
Proof.
  apply (geofence_monitor_check (fun _ _ _ => "out"%string) "fence" 0 0 1 1
           (<["x"%string := 2]> ∅) 0).
  vm_compute. reflexivity.
Defined.

(** ** The controller in terms of the monitors' outputs *)

Lemma py_max_list_upper (xs : list Q) (x : Q) :
  x <= py_max_list x xs /\ Forall (fun y => y <= py_max_list x xs) xs.
Proof.
  revert x. induction xs as [|y ys IH]; intros x; cbn [py_max_list fold_left].
  - split; [lra | constructor].
  - fold (py_max_list (py_max x y) ys).
    destruct (py_max_cases x y) as [[H ->]|[H ->]].
    + destruct (IH y) as [H3 H4]. split; [lra|]. constructor; assumption.
    + destruct (IH x) as [H3 H4]. split; [lra|]. constructor; [lra | assumption].
Qed.

Lemma py_max_list_attained (xs : list Q) (x : Q) : In (py_max_list x xs) (x :: xs).
Proof.
  revert x. induction xs as [|y ys IH]; intros x; cbn [py_max_list fold_left].
  - left. reflexivity.
  - fold (py_max_list (py_max x y) ys).
    destruct (py_max_cases x y) as [[_ E]|[_ E]]; rewrite E.
    + right. apply IH.
    + destruct (IH x) as [H|H]; [left; exact H | right; right; exact H].
Qed.

Lemma max_severity_upper (outs : list MonitorOutput) (o : MonitorOutput) :
  In o outs -> severity o <= max_severity outs.
Proof.
  unfold max_severity. destruct outs as [|o0 rest]; [intros []|].
  cbn [map]. destruct (py_max_list_upper (map severity rest) (severity o0)) as [H1 H2].
  intros [<-|Hin]; [exact H1|].
  rewrite List.Forall_forall in H2. apply H2. apply in_map. exact Hin.
Qed.

Lemma max_severity_attained (outs : list MonitorOutput) :
  outs <> [] -> exists o, In o outs /\ severity o = max_severity outs.
Proof.
  unfold max_severity. destruct outs as [|o0 rest]; [congruence|]. intros _.
  cbn [map].
  destruct (py_max_list_attained (map severity rest) (severity o0)) as [H|H].
  - exists o0. split; [left; reflexivity | exact H].
  - apply in_map_iff in H. destruct H as (o & Ho & Hin).
    exists o. split; [right; exact Hin | exact Ho].
Qed.

(** The outputs of [check_all] are those of the monitors, one each. *)
Lemma check_all_outputs (ms : list BaseMonitor) (state : Observation)
    (outs : list MonitorOutput) :
  check_all ms state = inr outs ->
  Forall2 (fun m o => m state = inr o) ms outs.
Proof.
  revert outs. induction ms as [|m rest IH]; intros outs; cbn [check_all].
  - intros H. inversion H. constructor.
  - destruct (m state) as [e|o] eqn:Hm; cbn [bind]; [discriminate|].
    destruct (check_all rest state) as [e|os] eqn:Hr; cbn [bind]; [discriminate|].
    intros H. inversion H; subst. constructor; [exact Hm | apply IH; reflexivity].
Qed.

(** The ladder of [transition], read on the greatest severity. *)
Lemma transition_cases (self : MitigationController) (m : Q)
    (u : UncertaintyEstimate) (ood : Q) :
  (transition self m u ood = SAFE_STOP <-> 1 <= m) /\
  (transition self m u ood = NOMINAL <->
   m <= 0.1 /\ ood <= ood_threshold self /\
   epistemic_score u <= uncertainty_threshold self) /\
  transition self m u ood <> HUMAN_ESCALATION.
Proof.
  unfold transition.
  destruct (Qleb 1 m) eqn:E1;
    [apply Qleb_le in E1 | apply Qleb_false in E1].
  { split; [tauto|]. split; [|discriminate].
    split; [discriminate | intros (H & _); lra]. }
  destruct (Qltb (ood_threshold self) ood) eqn:E2;
    [apply Qltb_lt in E2 | apply Qltb_false in E2]; cbn [orb].
  { split; [split; [discriminate | lra]|]. split; [|discriminate].
    split; [discriminate | intros (_ & H & _); lra]. }
  destruct (Qltb 0.1 m) eqn:E3;
    [apply Qltb_lt in E3 | apply Qltb_false in E3].
  { split; [split; [discriminate | lra]|]. split; [|discriminate].
    split; [discriminate | intros (H & _); lra]. }
  destruct (Qltb (uncertainty_threshold self) (epistemic_score u)) eqn:E4;
    [apply Qltb_lt in E4 | apply Qltb_false in E4].
  { split; [split; [discriminate | lra]|]. split; [|discriminate].
    split; [discriminate | intros (_ & _ & H); lra]. }
  split; [split; [discriminate | lra]|]. split; [|discriminate].
  split; [intros _; auto | reflexivity].
Qed.

(** When every monitor returns, [step] returns the state it also stores;
    it is the safe stop exactly when some monitor reports a severity of
    at least 1, whatever the other monitors, the OOD score and the
    uncertainty are; it is nominal exactly when no severity exceeds 0.1
    and neither the OOD score nor the epistemic score exceeds its
    threshold; and it is never the human escalation.  The monitors and
    the thresholds are left as they were. *)
Theorem step_by_monitor_outputs
    (self : MitigationController) (state : Observation)
    (u : UncertaintyEstimate) (ood : Q) (outs : list MonitorOutput) :
  check_all (monitors self) state = inr outs ->
  exists self' s,
    step self state u ood = inr (self', s) /\
    current_state self' = s /\
    monitors self' = monitors self /\
    uncertainty_threshold self' = uncertainty_threshold self /\
    ood_threshold self' = ood_threshold self /\
    length outs = length (monitors self) /\
    (s = SAFE_STOP <-> exists o, In o outs /\ 1 <= severity o) /\
    (s = NOMINAL <->
     (forall o, In o outs -> severity o <= 0.1) /\
     ood <= ood_threshold self /\
     epistemic_score u <= uncertainty_threshold self) /\
    s <> HUMAN_ESCALATION.
Proof.
  intros Hc. unfold step. rewrite Hc. cbn [bind].
  eexists. eexists. split; [reflexivity|].
  split; [reflexivity|]. split; [reflexivity|]. split; [reflexivity|].
  split; [reflexivity|].
  split; [symmetry; eapply Forall2_length; apply check_all_outputs; exact Hc|].
  destruct (transition_cases self (max_severity outs) u ood) as (Hs & Hn & Hh).
  split; [|split; [|exact Hh]].
  - rewrite Hs. split.
    + intros Hm. destruct outs as [|o0 rest].
      * cbn in Hm. lra.
      * destruct (max_severity_attained (o0 :: rest)) as (o & Hin & Ho);
          [discriminate|].
        exists o. split; [exact Hin | rewrite Ho; exact Hm].
    + intros (o & Hin & Ho). pose proof (max_severity_upper outs o Hin). lra.
  - rewrite Hn. split.
    + intros (Hm & H2 & H3). split; [|auto].
      intros o Hin. pose proof (max_severity_upper outs o Hin). lra.
    + intros (Hall & H2 & H3). split; [|auto].
      destruct outs as [|o0 rest].
      * cbn. lra.
      * destruct (max_severity_attained (o0 :: rest)) as (o & Hin & Ho);
          [discriminate|].
        rewrite <- Ho. apply Hall. exact Hin.
Qed.

(** A geofence monitor and a position outside its rectangle. *)
Lemma step_by_monitor_outputs_witness :
  exists self',
    step (init [fun st => ok (GeofenceMonitor.check (fun _ _ _ => "out"%string)
                                {| GeofenceMonitor.self_monitor_id := "fence";
                                   GeofenceMonitor.bounds := (0, 0, 1, 1) |} st 0)]
               default_uncertainty_threshold default_ood_threshold)
         (<["x"%string := 2]> ∅)
         {| confidence := 1; aleatoric_score := 0; epistemic_score := 0;
            source := "model"; conformal_set_size := 1;
            coverage_probability := 0.9; prediction_set := [] |} 0
    = inr (self', SAFE_STOP).
Proof.
  destruct (step_by_monitor_outputs
              (init [fun st => ok (GeofenceMonitor.check (fun _ _ _ => "out"%string)
                                     {| GeofenceMonitor.self_monitor_id := "fence";
                                        GeofenceMonitor.bounds := (0, 0, 1, 1) |} st 0)]
                    default_uncertainty_threshold default_ood_threshold)
              (<["x"%string := 2]> ∅)
              {| confidence := 1; aleatoric_score := 0; epistemic_score := 0;
                 source := "model"; conformal_set_size := 1;
                 coverage_probability := 0.9; prediction_set := [] |} 0
              _ eq_refl)
    as (self' & s & Hstep & _ & _ & _ & _ & _ & Hstop & _).
  exists self'. rewrite Hstep.
  assert (Hs : s = SAFE_STOP).
  { apply Hstop. eexists. split; [left; reflexivity|].
    apply Qleb_le. vm_compute. reflexivity. }
  rewrite Hs. reflexivity.
Defined.

(** ** Escalation is monotone *)

(** The order of the mitigation states, as the class documents it:
    Nominal, Cautious, Fallback, Safe Stop, Human Escalation. *)
Definition rank (s : MitigationState) : nat :=
  match s with
  | NOMINAL => 0
  | CAUTIOUS => 1
  | FALLBACK => 2
  | SAFE_STOP => 3
  | HUMAN_ESCALATION => 4
  end.

Lemma transition_monotone (self : MitigationController) (m m' : Q)
    (u u' : UncertaintyEstimate) (ood ood' : Q) :
  m <= m' -> ood <= ood' -> epistemic_score u <= epistemic_score u' ->
  (rank (transition self m u ood) <= rank (transition self m' u' ood'))%nat.
Proof.
  intros Hm Ho He. unfold transition.
  destruct (Qleb 1 m) eqn:A1; [apply Qleb_le in A1 | apply Qleb_false in A1];
  destruct (Qleb 1 m') eqn:B1; [apply Qleb_le in B1 | apply Qleb_false in B1
                               |apply Qleb_le in B1 | apply Qleb_false in B1];
  destruct (Qltb (ood_threshold self) ood) eqn:A2;
  destruct (Qltb (ood_threshold self) ood') eqn:B2;
  destruct (Qltb 0.1 m) eqn:A3;
  destruct (Qltb 0.1 m') eqn:B3;
  destruct (Qltb (uncertainty_threshold self) (epistemic_score u)) eqn:A4;
  destruct (Qltb (uncertainty_threshold self) (epistemic_score u')) eqn:B4;
  cbn [orb rank]; try lia; exfalso;
  repeat match goal with
         | H : Qltb _ _ = true |- _ => apply Qltb_lt in H
         | H : Qltb _ _ = false |- _ => apply Qltb_false in H
         end; lra.
Qed.

Lemma max_severity_monotone (outs outs' : list MonitorOutput) :
  Forall2 (fun o o' => severity o <= severity o') outs outs' ->
  max_severity outs <= max_severity outs'.
Proof.
  intros H. destruct outs as [|o0 rest].
  - inversion H; subst. cbn. lra.
  - destruct (max_severity_attained (o0 :: rest)) as (o & Hin & <-); [discriminate|].
    assert (Hex : exists o', In o' outs' /\ severity o <= severity o').
    { clear -H Hin. induction H as [|a b l l' Hab Hl IH]; [destruct Hin|].
      destruct Hin as [->|Hin].
      - exists b. split; [left; reflexivity | exact Hab].
      - destruct (IH Hin) as (o' & Ho' & Hle). exists o'. split; [right|]; assumption. }
    destruct Hex as (o' & Hin' & Hle).
    pose proof (max_severity_upper outs' o' Hin'). lra.
Qed.

(** With the same controller, if every monitor reports at least the
    severity it reported on another state, and the OOD score and the
    epistemic score are at least as large, then [step] returns on both
    and the state it chooses is at least as far along the order
    Nominal, Cautious, Fallback, Safe Stop. *)
Theorem step_escalation_monotone
    (self : MitigationController) (state state' : Observation)
    (u u' : UncertaintyEstimate) (ood ood' : Q)
    (outs outs' : list MonitorOutput) :
  check_all (monitors self) state = inr outs ->
  check_all (monitors self) state' = inr outs' ->
  Forall2 (fun o o' => severity o <= severity o') outs outs' ->
  ood <= ood' -> epistemic_score u <= epistemic_score u' ->
  exists c s c' s',
    step self state u ood = inr (c, s) /\
    step self state' u' ood' = inr (c', s') /\
    (rank s <= rank s')%nat.
Proof.
  intros Hc Hc' Hsev Ho He. unfold step. rewrite Hc, Hc'. cbn [bind].
  do 4 eexists. split; [reflexivity|]. split; [reflexivity|].
  apply transition_monotone; [apply max_severity_monotone; exact Hsev | exact Ho | exact He].
Qed.

Definition speed_monitor : BaseMonitor :=
  fun st => ConstraintMonitor.check (fun _ _ => "exceeded"%string)
              {| ConstraintMonitor.self_monitor_id := "speed_limit";
                 ConstraintMonitor.limit := 10;
                 ConstraintMonitor.metric_key := "speed" |} st 0.

Definition calm : UncertaintyEstimate :=
  {| confidence := 1; aleatoric_score := 0; epistemic_score := 0;
     source := "model"; conformal_set_size := 1;
     coverage_probability := 0.9; prediction_set := [] |}.

(** Speed 12 and then speed 25 against the limit 10. *)
Lemma step_escalation_monotone_witness :
  exists c s c' s',
    step (init [speed_monitor] default_uncertainty_threshold default_ood_threshold)
         (<["speed"%string := 12]> ∅) calm 0 = inr (c, s) /\
    step (init [speed_monitor] default_uncertainty_threshold default_ood_threshold)
         (<["speed"%string := 25]> ∅) calm 0 = inr (c', s') /\
    (rank s <= rank s')%nat.
Proof.
  refine (step_escalation_monotone
            (init [speed_monitor] default_uncertainty_threshold default_ood_threshold)
            (<["speed"%string := 12]> ∅) (<["speed"%string := 25]> ∅)
            calm calm 0 0 _ _ eq_refl eq_refl _ _ _).
  - constructor; [|constructor]. apply Qleb_le. vm_compute. reflexivity.
  - apply Qleb_le. reflexivity.
  - apply Qleb_le. reflexivity.
Defined.

(** ** The monitors inside the controller *)

Lemma check_all_member (ms : list BaseMonitor) (state : Observation)
    (outs : list MonitorOutput) (m : BaseMonitor) (o : MonitorOutput) :
  check_all ms state = inr outs -> In m ms -> m state = inr o -> In o outs.
Proof.
  intros Hc Hin Hm. apply check_all_outputs in Hc.
  induction Hc as [|m0 o0 ms' outs' H0 Hrest IH]; [destruct Hin|].
  destruct Hin as [->|Hin].
  - left. congruence.
  - right. apply IH. exact Hin.
Qed.

Lemma saturated_member (self : MitigationController) (state : Observation)
    (u : UncertaintyEstimate) (ood : Q) (outs : list MonitorOutput)
    (m : BaseMonitor) (o : MonitorOutput) :
  check_all (monitors self) state = inr outs ->
  In m (monitors self) -> m state = inr o -> 1 <= severity o ->
  step self state u ood = inr (set_current_state self SAFE_STOP, SAFE_STOP).
Proof.
  intros Hc Hin Hm Hsev. unfold step. rewrite Hc. cbn [bind].
  assert (E : transition self (max_severity outs) u ood = SAFE_STOP).
  { apply (transition_cases self (max_severity outs) u ood).
    pose proof (max_severity_upper outs o
                  (check_all_member _ _ _ _ _ Hc Hin Hm)). lra. }
  rewrite E. reflexivity.
Qed.

Lemma constraint_saturates (msg : Q -> Q -> string) (c : ConstraintMonitor.t)
    (state : Observation) (now : Q) :
  0 < ConstraintMonitor.limit c ->
  2 * ConstraintMonitor.limit c <= default 0 (state !! ConstraintMonitor.metric_key c) ->
  exists o, ConstraintMonitor.check msg c state now = inr o /\ 1 <= severity o.
Proof.
  intros Hpos H2. unfold ConstraintMonitor.check.
  set (value := default 0 (state !! ConstraintMonitor.metric_key c)) in *.
  set (limit := ConstraintMonitor.limit c) in *.
  assert (Ht : Qltb limit value = true) by (apply Qltb_lt; lra).
  assert (Ez : Qeq_bool limit 0 = false).
  { destruct (Qeq_bool limit 0) eqn:E; [|reflexivity].
    apply Qeq_bool_iff in E. lra. }
  rewrite Ht, Ez. cbn [bind ok]. eexists. split; [reflexivity|].
  cbn [severity].
  assert (Hraw : 1 <= (value - limit) / limit).
  { apply Qle_shift_div_l; [exact Hpos | lra]. }
  destruct (py_max_cases ((value - limit) / limit) 0) as [[H1 ->]|[H1 ->]]; [lra|].
  destruct (py_min_cases ((value - limit) / limit) 1) as [[H3 ->]|[H3 ->]]; lra.
Qed.

(** A controller whose monitors all return goes to the safe stop as
    soon as one of them is a geofence monitor whose position (missing
    coordinates read as 0.0) is outside its rectangle, or a constraint
    monitor with a positive limit whose value is at least twice the
    limit: whatever the other monitors report and whatever the OOD score
    and the uncertainty are. *)
Theorem breach_forces_safe_stop
    (geo_msg : Q -> Q -> Q * Q * Q * Q -> string) (exc_msg : Q -> Q -> string)
    (self : MitigationController) (state : Observation)
    (u : UncertaintyEstimate) (ood : Q) (outs : list MonitorOutput) :
  check_all (monitors self) state = inr outs ->
  (forall id x_min y_min x_max y_max now,
      In (fun st => ok (GeofenceMonitor.check geo_msg
                          {| GeofenceMonitor.self_monitor_id := id;
                             GeofenceMonitor.bounds := (x_min, y_min, x_max, y_max) |}
                          st now))
         (monitors self) ->
      ~ ((x_min <= default 0 (state !! "x"%string) /\
          default 0 (state !! "x"%string) <= x_max) /\
         (y_min <= default 0 (state !! "y"%string) /\
          default 0 (state !! "y"%string) <= y_max)) ->
      step self state u ood = inr (set_current_state self SAFE_STOP, SAFE_STOP)) /\
  (forall c now,
      In (fun st => ConstraintMonitor.check exc_msg c st now) (monitors self) ->
      0 < ConstraintMonitor.limit c ->
      2 * ConstraintMonitor.limit c
      <= default 0 (state !! ConstraintMonitor.metric_key c) ->
      step self state u ood = inr (set_current_state self SAFE_STOP, SAFE_STOP)).
Proof.
  intros Hc. split.
  - intros id x_min y_min x_max y_max now Hin Hout.
    eapply saturated_member; [exact Hc | exact Hin | reflexivity |].
    unfold GeofenceMonitor.check. cbn [GeofenceMonitor.bounds severity].
    destruct (negb _) eqn:E; [lra|].
    exfalso. apply Hout.
    rewrite negb_false_iff, !andb_true_iff, !Qleb_le in E. exact E.
  - intros c now Hin Hpos H2.
    destruct (constraint_saturates exc_msg c state now Hpos H2) as (o & Ho & Hsev).
    eapply saturated_member; [exact Hc | exact Hin | exact Ho | exact Hsev].
Qed.

(** The speed monitor among the monitors, at speed 25. *)
Lemma breach_forces_safe_stop_witness :
  step (init [speed_monitor] default_uncertainty_threshold default_ood_threshold)
       (<["speed"%string := 25]> ∅) calm 0
  = inr (set_current_state
           (init [speed_monitor] default_uncertainty_threshold default_ood_threshold)
           SAFE_STOP, SAFE_STOP).
Proof.
  refine (proj2 (breach_forces_safe_stop (fun _ _ _ => "out"%string)
                   (fun _ _ => "exceeded"%string)
                   (init [speed_monitor] default_uncertainty_threshold
                         default_ood_threshold)
                   (<["speed"%string := 25]> ∅) calm 0 _ eq_refl)
                {| ConstraintMonitor.self_monitor_id := "speed_limit";
                   ConstraintMonitor.limit := 10;
                   ConstraintMonitor.metric_key := "speed" |} 0 _ _ _).
  - left. reflexivity.
  - apply Qltb_lt. reflexivity.
  - apply Qleb_le. vm_compute. reflexivity.
Defined.

End MonitorsMore.

(* ================================================================== *)
(** * Time to collision: the kinematic models and the TTC monitor *)
(* ================================================================== *)

Module TTCFacts.

Import Exn Numeric NumericFacts Monitors.
Local Open Scope Q_scope.
Local Open Scope result_scope.

(** ** Arrays of one shape *)

Lemma zip_with_length {A B C} (f : A -> B -> C) (xs : list A) (ys : list B) :
  length xs = length ys -> length (zip_with f xs ys) = length xs.
Proof.
  revert ys. induction xs as [|x xs IH]; intros [|y ys] H; cbn in *; try congruence.
  f_equal. apply IH. congruence.
Qed.

Lemma np_sub_same_length (a b : vec) :
  length a = length b -> np_sub a b = inr (vsub a b).
Proof. intros H. unfold np_sub. rewrite H, Nat.eqb_refl. reflexivity. Qed.

Lemma np_dot_same_length (a b : vec) :
  length a = length b -> np_dot a b = inr (dot a b).
Proof. intros H. unfold np_dot. rewrite H, Nat.eqb_refl. reflexivity. Qed.

Lemma vsub_length (a b : vec) : length a = length b -> length (vsub a b) = length a.
Proof. apply zip_with_length. Qed.

(** ** constant_velocity_ttc *)

(** On positions of one shape and velocities of that shape, the constant
    velocity model returns: 0.0 within a micrometre; otherwise infinity
    when the closing velocity, [approach / distance], is below
    [min_closing_velocity]; and otherwise, for a positive threshold,
    the positive time [distance / closing_velocity], which is at most
    [distance / min_closing_velocity].  A finite result is never
    negative, whatever the threshold. *)
Theorem constant_velocity_ttc_regimes
    (norm : vec -> Q) (ego_pos ego_vel obj_pos obj_vel : vec) (mcv : Q) :
  length obj_pos = length ego_pos ->
  length ego_vel = length obj_vel ->
  length ego_vel = length ego_pos ->
  let distance := norm (vsub obj_pos ego_pos) in
  let closing_velocity :=
    dot (vsub ego_vel obj_vel) (vsub obj_pos ego_pos) / distance in
  exists r,
    constant_velocity_ttc norm ego_pos ego_vel obj_pos obj_vel mcv = inr r /\
    (distance < 1 # 1000000 -> r = Seconds 0) /\
    ((1 # 1000000) <= distance -> closing_velocity < mcv -> r = Never) /\
    ((1 # 1000000) <= distance -> 0 < mcv -> mcv <= closing_velocity ->
     exists t, r = Seconds t /\ t == distance / closing_velocity /\
               0 < t /\ t <= distance / mcv) /\
    (forall t, r = Seconds t -> 0 <= t).
Proof.
  intros Hp Hv Hvp. cbv zeta. unfold constant_velocity_ttc.
  rewrite (np_sub_same_length _ _ Hp). cbn [bind].
  set (rel_pos := vsub obj_pos ego_pos).
  set (distance := norm rel_pos).
  destruct (Qltb distance (1 # 1000000)) eqn:Hd;
    [apply Qltb_lt in Hd | apply Qltb_false in Hd].
  { eexists. split; [reflexivity|]. split; [reflexivity|].
    split; [intros; lra|]. split; [intros; lra|].
    intros t H. inversion H. lra. }
  assert (Hpos : 0 < distance) by lra.
  rewrite (np_sub_same_length _ _ Hv). cbn [bind].
  rewrite np_dot_same_length
    by (unfold rel_pos; rewrite !vsub_length by congruence; congruence).
  cbn [bind].
  set (closing := dot (vsub ego_vel obj_vel) rel_pos / distance).
  destruct (Qltb closing mcv) eqn:Hc;
    [apply Qltb_lt in Hc | apply Qltb_false in Hc].
  { eexists. split; [reflexivity|]. split; [intros; lra|].
    split; [reflexivity|]. split; [intros; lra | discriminate]. }
  destruct (Qeq_bool closing 0) eqn:Hz.
  { apply Qeq_bool_iff in Hz.
    eexists. split; [reflexivity|]. split; [intros; lra|].
    split; [reflexivity|]. split; [intros; lra | discriminate]. }
  apply Qeq_bool_neq in Hz.
  eexists. split; [reflexivity|]. split; [intros; lra|].
  split; [intros; lra|]. split.
  - intros _ Hm Hle.
    assert (Hcpos : 0 < closing) by lra.
    assert (Htpos : 0 < distance / closing).
    { apply Qlt_shift_div_l; [exact Hcpos | lra]. }
    eexists. split; [reflexivity|].
    destruct (py_max_cases 0 (distance / closing)) as [[Hm1 ->]|[Hm1 ->]]; [|lra].
    split; [reflexivity|]. split; [exact Htpos|].
    apply Qle_shift_div_l; [exact Hm|].
    assert (E : distance / closing * mcv == distance * (mcv / closing)) by (field; lra).
    rewrite E.
    assert (Hq : mcv / closing <= 1).
    { apply Qle_shift_div_r; [exact Hcpos | lra]. }
    assert (Hprod : distance * (mcv / closing) <= distance * 1).
    { apply Qmult_le_l; [exact Hpos | exact Hq]. }
    lra.
  - intros t H.
    assert (E : py_max 0 (distance / closing) = t) by congruence.
    rewrite <- E.
    destruct (py_max_cases 0 (distance / closing)) as [[Hm ->]|[Hm ->]]; lra.
Qed.

(** The Euclidean norm of a vector along the first axis. *)
Definition norm_on_axis (v : vec) : Q := Qabs (hd 0 v).

(** An ego vehicle at 5 m/s, ten metres behind an object at rest. *)
Lemma constant_velocity_ttc_regimes_witness :
  exists t,
    constant_velocity_ttc norm_on_axis [0; 0] [5; 0] [10; 0] [0; 0] 0.1
    = inr (Seconds t) /\ 0 < t /\ t <= 10 / 0.1.
Proof.
  destruct (constant_velocity_ttc_regimes norm_on_axis [0; 0] [5; 0] [10; 0] [0; 0] 0.1
              eq_refl eq_refl eq_refl) as (r & Hr & _ & _ & Hfin & _).
  destruct Hfin as (t & Ht & _ & Hpos & Hle).
  - apply Qleb_le. reflexivity.
  - apply Qltb_lt. reflexivity.
  - apply Qleb_le. reflexivity.
  - exists t. rewrite Hr, Ht. split; [reflexivity|]. split; [exact Hpos | exact Hle].
Defined.

(** ** The constant acceleration model inside the monitor *)

Lemma dot_vsub_self (a d : vec) : dot (vsub a a) d == 0.
Proof.
  unfold dot, vsub. revert d. induction a as [|x a IH]; intros [|y d]; cbn;
    try reflexivity.
  specialize (IH d). cbn in IH. rewrite IH. ring.
Qed.

Lemma Qltb_Qeq (a a' c : Q) : a == a' -> Qltb a c = Qltb a' c.
Proof.
  intros E. destruct (Qltb a c) eqn:H1, (Qltb a' c) eqn:H2; try reflexivity.
  - apply Qltb_lt in H1. apply Qltb_false in H2. lra.
  - apply Qltb_false in H1. apply Qltb_lt in H2. lra.
Qed.

(** The linear branch of [constant_acceleration_ttc]. *)
Definition linear_ttc (distance v_rel : Q) : ttc_value :=
  if Qltb (1 # 1000000) v_rel then Seconds (distance / v_rel) else Never.

Lemma constant_acceleration_symmetric (norm : vec -> Q) (np_sqrt : Q -> Q)
    (ego_pos ego_vel obj_pos obj_vel : vec) (acc : option vec) (r : ttc_value) :
  constant_acceleration_ttc norm np_sqrt ego_pos ego_vel obj_pos obj_vel acc acc = inr r ->
  exists rel_pos,
    np_sub obj_pos ego_pos = inr rel_pos /\
    ((norm rel_pos < 1 # 1000000 /\ r = Seconds 0) \/
     ((1 # 1000000) <= norm rel_pos /\
      exists rel_vel v_rel,
        np_sub ego_vel obj_vel = inr rel_vel /\
        np_dot rel_vel (map (fun x => x / norm rel_pos) rel_pos) = inr v_rel /\
        r = linear_ttc (norm rel_pos) v_rel)).
Proof.
  unfold constant_acceleration_ttc.
  destruct (np_sub obj_pos ego_pos) as [e|rel_pos]; cbn [bind]; [discriminate|].
  intros H. exists rel_pos. split; [reflexivity|].
  unfold ok in *.
  destruct (Qltb (norm rel_pos) (1 # 1000000)) eqn:Hd.
  { left. apply Qltb_lt in Hd. split; [exact Hd | congruence]. }
  right. apply Qltb_false in Hd. split; [exact Hd|].
  destruct (np_sub ego_vel obj_vel) as [e|rel_vel]; cbn [bind] in H; [discriminate|].
  destruct (np_dot rel_vel (map (fun x => x / norm rel_pos) rel_pos))
    as [e|v_rel] eqn:Hv; cbn [bind] in H; [discriminate|].
  exists rel_vel, v_rel. split; [reflexivity|]. split; [exact Hv|].
  assert (Hlin : forall a_rel : Q,
             a_rel == 0 ->
             Qltb (Qabs (0.5 * a_rel)) (1 # 10000000000) = true).
  { intros a_rel E.
    rewrite (Qltb_Qeq _ 0); [reflexivity|].
    rewrite E. reflexivity. }
  destruct acc as [a|].
  - rewrite np_sub_same_length in H by reflexivity. cbn [bind] in H.
    unfold np_dot in H.
    destruct (length (vsub a a) =? length _)%nat; cbn [bind ok] in H; [|discriminate].
    rewrite (Hlin _ (dot_vsub_self a _)) in H.
    unfold linear_ttc. destruct (Qltb (1 # 1000000) v_rel); congruence.
  - cbn [bind] in H. rewrite (Hlin 0) in H by reflexivity.
    unfold linear_ttc. destruct (Qltb (1 # 1000000) v_rel); congruence.
Qed.

(** With any model name other than "constant_velocity", the time that
    the monitor computes for an object does not depend on the object's
    acceleration, nor on [np.sqrt]: the monitor passes the same
    acceleration for both vehicles, the relative acceleration is zero and
    the quadratic branch is never reached.  When [_compute_ttc] returns,
    its result is 0.0 within a micrometre, [distance / v_rel] for a
    closing velocity above 1e-6 and infinity otherwise, and it is also
    the result for the same object without an acceleration. *)
Theorem acceleration_model_ignores_acceleration
    (norm : vec -> Q) (np_sqrt np_sqrt' : Q -> Q) (self : TTCMonitor.t)
    (ego_pos ego_vel : vec) (obj : TrackedObject) (r : ttc_value) :
  model (TTCMonitor.config self) <> "constant_velocity"%string ->
  TTCMonitor._compute_ttc norm np_sqrt self ego_pos ego_vel obj = inr r ->
  TTCMonitor._compute_ttc norm np_sqrt' self ego_pos ego_vel
    {| object_id := object_id obj; position := position obj;
       velocity := velocity obj; acceleration := None |} = inr r /\
  exists rel_pos,
    np_sub (position obj) ego_pos = inr rel_pos /\
    ((norm rel_pos < 1 # 1000000 /\ r = Seconds 0) \/
     ((1 # 1000000) <= norm rel_pos /\
      exists rel_vel v_rel,
        np_sub ego_vel (velocity obj) = inr rel_vel /\
        np_dot rel_vel (map (fun x => x / norm rel_pos) rel_pos) = inr v_rel /\
        r = (if Qltb (1 # 1000000) v_rel
             then Seconds (norm rel_pos / v_rel) else Never))).
Proof.
  intros Hmodel. unfold TTCMonitor._compute_ttc.
  destruct (String.eqb_spec (model (TTCMonitor.config self)) "constant_velocity")
    as [E|_]; [contradiction|].
  cbn [position velocity acceleration].
  intros H. apply constant_acceleration_symmetric in H.
  destruct H as (rel_pos & Hp & Hcases). split.
  - unfold constant_acceleration_ttc. rewrite Hp. cbn [bind].
    destruct Hcases as [[Hd ->]|(Hd & rel_vel & v_rel & Hv & Hdot & ->)].
    + apply Qltb_lt in Hd. rewrite Hd. reflexivity.
    + apply Qltb_false in Hd. rewrite Hd, Hv. cbn [bind]. rewrite Hdot. cbn [bind ok].
      change (Qltb (Qabs (0.5 * 0)) (1 # 10000000000)) with true.
      unfold linear_ttc. destruct (Qltb (1 # 1000000) v_rel); reflexivity.
  - exists rel_pos. split; [exact Hp|].
    destruct Hcases as [[Hd ->]|(Hd & rel_vel & v_rel & Hv & Hdot & ->)].
    + left. split; [exact Hd | reflexivity].
    + right. split; [exact Hd|]. exists rel_vel, v_rel.
      split; [exact Hv|]. split; [exact Hdot | reflexivity].
Qed.

(** An object with an acceleration, ten metres ahead of an ego vehicle
    at 5 m/s. *)
Lemma acceleration_model_ignores_acceleration_witness :
  exists r,
    TTCMonitor._compute_ttc norm_on_axis (fun x => x)
      (TTCMonitor.init "ttc"
         (Some {| critical_ttc := 1; warning_ttc := 3;
                  model := "constant_acceleration";
                  debounce_steps := 3; min_closing_velocity := 0.1 |}))
      [0; 0] [5; 0]
      {| object_id := "car"; position := [10; 0]; velocity := [0; 0];
         acceleration := None |}
    = inr r.
Proof.
  eexists.
  refine (proj1 (acceleration_model_ignores_acceleration norm_on_axis (fun x => 0)
                   (fun x => x)
                   (TTCMonitor.init "ttc"
                      (Some {| critical_ttc := 1; warning_ttc := 3;
                               model := "constant_acceleration";
                               debounce_steps := 3; min_closing_velocity := 0.1 |}))
                   [0; 0] [5; 0]
                   {| object_id := "car"; position := [10; 0]; velocity := [0; 0];
                      acceleration := Some [3; 4] |} _ _ _)).
  - discriminate.
  - vm_compute. reflexivity.
Defined.

(** ** TTCMonitor.check *)

Section CheckFacts.

Variable norm : vec -> Q.
Variable np_sqrt : Q -> Q.
Variable critical_message : Q -> option string -> string.
Variable warning_message : Q -> option string -> string.
Variable safe_message : Q -> string.

Local Abbreviation check :=
  (TTCMonitor.check norm np_sqrt critical_message warning_message safe_message).
Local Abbreviation check_run :=
  (TTCMonitor.check_run norm np_sqrt critical_message warning_message safe_message).

Lemma ttc_severity_range (self : TTCMonitor.t) (m : ttc_value) :
  0 <= TTCMonitor.ttc_severity self m /\ TTCMonitor.ttc_severity self m <= 1.
Proof.
  unfold TTCMonitor.ttc_severity. destruct m as [m|]; [|split; lra].
  destruct (Qleb _ m); [split; lra|].
  destruct (Qleb m 0); [split; lra|].
  set (raw := 1 - m / warning_ttc (TTCMonitor.config self)).
  destruct (py_max_cases raw 0) as [[H1 ->]|[H1 ->]].
  - destruct (py_min_cases 0 1) as [[H2 ->]|[H2 ->]]; split; lra.
  - destruct (py_min_cases raw 1) as [[H2 ->]|[H2 ->]]; split; lra.
Qed.

(** The times to collision, in their order: every finite time is below
    [Never]. *)
Definition ttc_le (a b : ttc_value) : Prop :=
  match a, b with
  | Seconds x, Seconds y => x <= y
  | _, Never => True
  | Never, Seconds _ => False
  end.

Lemma ttc_severity_antitone (self : TTCMonitor.t) (a b : ttc_value) :
  ttc_le a b -> TTCMonitor.ttc_severity self b <= TTCMonitor.ttc_severity self a.
Proof.
  intros Hab. destruct b as [y|].
  2:{ apply (ttc_severity_range self a). }
  destruct a as [x|]; [|destruct Hab]. cbn in Hab.
  unfold TTCMonitor.ttc_severity.
  set (w := warning_ttc (TTCMonitor.config self)).
  destruct (Qleb w y) eqn:Hy; [apply Qleb_le in Hy | apply Qleb_false in Hy].
  { apply (ttc_severity_range self (Seconds x)). }
  assert (Hx : Qleb w x = false) by (apply Qleb_false; lra). rewrite Hx.
  destruct (Qleb x 0) eqn:Hx0; [apply Qleb_le in Hx0 | apply Qleb_false in Hx0].
  { destruct (Qleb y 0); [lra|].
    set (raw := 1 - y / w).
    destruct (py_max_cases raw 0) as [[H1 ->]|[H1 ->]].
    - destruct (py_min_cases 0 1) as [[H2 ->]|[H2 ->]]; lra.
    - destruct (py_min_cases raw 1) as [[H2 ->]|[H2 ->]]; lra. }
  assert (Hy0 : Qleb y 0 = false) by (apply Qleb_false; lra). rewrite Hy0.
  assert (Hw : 0 < w) by lra.
  assert (Hdiv : x / w <= y / w).
  { apply Qle_shift_div_l; [exact Hw|].
    assert (E : x / w * w == x) by (field; lra). lra. }
  set (rx := 1 - x / w). set (ry := 1 - y / w).
  assert (Hr : ry <= rx) by (unfold rx, ry; lra).
  destruct (py_max_cases rx 0) as [[H1 ->]|[H1 ->]];
    destruct (py_max_cases ry 0) as [[H2 ->]|[H2 ->]];
    repeat match goal with
           | |- context [py_min ?a ?b] =>
               let H := fresh "Hm" in
               destruct (py_min_cases a b) as [[H ->]|[H ->]]
           end; lra.
Qed.

(** The retained history after one more raw trigger. *)
Definition push_history (debounce_steps : Z) (history : list bool) (raw : bool)
  : list bool :=
  if (debounce_steps <? Z.of_nat (length (history ++ [raw])))%Z
  then tail (history ++ [raw]) else history ++ [raw].

Lemma push_history_bound (d : Z) (history : list bool) (raw : bool) :
  (Z.of_nat (length history) <= Z.max 0 d)%Z ->
  (Z.of_nat (length (push_history d history raw)) <= Z.max 0 d)%Z.
Proof.
  intros H. unfold push_history.
  destruct (Z.ltb_spec d (Z.of_nat (length (history ++ [raw])))) as [Hlt|Hge].
  - destruct history as [|b rest]; cbn [app tail length] in *; [lia|].
    rewrite length_app. cbn [length]. rewrite length_app in Hlt. cbn [length] in Hlt. lia.
  - lia.
Qed.

Lemma push_history_length (d : Z) (history : list bool) (raw : bool) :
  (length (push_history d history raw) <= S (length history))%nat.
Proof.
  unfold push_history.
  destruct (d <? Z.of_nat (length (history ++ [raw])))%Z.
  - destruct history as [|b rest]; cbn [app tail length]; [lia|].
    rewrite length_app. cbn [length]. lia.
  - rewrite length_app. cbn [length]. lia.
Qed.

Lemma majority_iff (history : list bool) :
  (length history / 2 <? TTCMonitor.trigger_count history)%nat = true <->
  (length history < 2 * TTCMonitor.trigger_count history)%nat.
Proof.
  rewrite Nat.ltb_lt.
  pose proof (Nat.div_mod_eq (length history) 2) as E.
  pose proof (Nat.mod_upper_bound (length history) 2) as Hm.
  lia.
Qed.

(** What one returning [check] does. *)
Lemma check_cases (self : TTCMonitor.t) (state : TTCMonitor.State) (now : Q)
    (self' : TTCMonitor.t) (out : MonitorOutput) :
  check self state now = inr (self', out) ->
  (default [] (TTCMonitor.objects state) = [] /\ self' = self /\
   triggered out = false /\ severity out = 0 /\
   monitor_id out = TTCMonitor.self_monitor_id self /\ timestamp out = now) \/
  (default [] (TTCMonitor.objects state) <> [] /\
   exists min_ttc min_ttc_object,
     let raw := ttc_lt min_ttc (Seconds (critical_ttc (TTCMonitor.config self))) in
     let history :=
       push_history (debounce_steps (TTCMonitor.config self))
                    (TTCMonitor._trigger_history self) raw in
     TTCMonitor.self_monitor_id self' = TTCMonitor.self_monitor_id self /\
     TTCMonitor.config self' = TTCMonitor.config self /\
     TTCMonitor._trigger_history self' = history /\
     triggered out =
       (if (1 <? debounce_steps (TTCMonitor.config self))%Z
        then (length history / 2 <? TTCMonitor.trigger_count history)%nat
        else raw) /\
     TTCMonitor._last_triggered_object self' =
       (if triggered out then min_ttc_object else None) /\
     severity out = TTCMonitor.ttc_severity self min_ttc /\
     monitor_id out = TTCMonitor.self_monitor_id self /\ timestamp out = now).
Proof.
  unfold TTCMonitor.check.
  destruct (default [] (TTCMonitor.objects state)) as [|d0 rest] eqn:Hobj.
  - intros H. left. inversion H; subst. cbn. repeat split.
  - destruct (TTCMonitor.tracked_all (d0 :: rest)) as [e|objs]; cbn [bind];
      [discriminate|].
    destruct (TTCMonitor.min_ttc_loop _ _ _ _ _ _ _ _) as [e|[min_ttc min_obj]];
      cbn [bind]; [discriminate|].
    intros H. right. split; [discriminate|].
    exists min_ttc, min_obj. cbv zeta. unfold push_history.
    inversion H; subst; clear H.
    cbn [TTCMonitor.self_monitor_id TTCMonitor.config TTCMonitor._trigger_history
         TTCMonitor._last_triggered_object triggered severity monitor_id timestamp].
    repeat split.
Qed.

Lemma raw_trigger_severity (self : TTCMonitor.t) (min_ttc : ttc_value) :
  critical_ttc (TTCMonitor.config self) <= warning_ttc (TTCMonitor.config self) ->
  ttc_lt min_ttc (Seconds (critical_ttc (TTCMonitor.config self))) = true ->
  0 < TTCMonitor.ttc_severity self min_ttc.
Proof.
  intros Hcw Hraw. destruct min_ttc as [m|]; [|discriminate].
  cbn [ttc_lt] in Hraw. apply Qltb_lt in Hraw.
  unfold TTCMonitor.ttc_severity.
  set (w := warning_ttc (TTCMonitor.config self)) in *.
  assert (Hw : Qleb w m = false) by (apply Qleb_false; lra). rewrite Hw.
  destruct (Qleb m 0) eqn:Hm0; [lra|]. apply Qleb_false in Hm0.
  assert (Hwpos : 0 < w) by lra.
  assert (Hdiv : m / w < 1).
  { apply Qlt_shift_div_r; [exact Hwpos | lra]. }
  destruct (py_max_cases (1 - m / w) 0) as [[H1 ->]|[H1 ->]]; [lra|].
  destruct (py_min_cases (1 - m / w) 1) as [[H2 ->]|[H2 ->]]; lra.
Qed.

(** When [check] returns: the severity lies in [0, 1]; with no objects
    in the state the monitor is left exactly as it was and the output is
    not triggered, with severity 0.0; otherwise the trigger history grows
    by at most one entry and stays within [debounce_steps] if it was,
    for [debounce_steps > 1] the output is triggered exactly when
    strictly more than half of the retained history is set, an output
    that is not triggered clears [_last_triggered_object], and without
    debouncing a triggered output has a positive severity as long as
    [critical_ttc <= warning_ttc]. *)
Theorem ttc_check_output (self : TTCMonitor.t) (state : TTCMonitor.State) (now : Q)
    (self' : TTCMonitor.t) (out : MonitorOutput) :
  check self state now = inr (self', out) ->
  let d := debounce_steps (TTCMonitor.config self) in
  let h := TTCMonitor._trigger_history self in
  let h' := TTCMonitor._trigger_history self' in
  0 <= severity out /\ severity out <= 1 /\
  monitor_id out = TTCMonitor.self_monitor_id self /\ timestamp out = now /\
  TTCMonitor.self_monitor_id self' = TTCMonitor.self_monitor_id self /\
  TTCMonitor.config self' = TTCMonitor.config self /\
  (default [] (TTCMonitor.objects state) = [] ->
   self' = self /\ triggered out = false /\ severity out = 0) /\
  (length h' <= S (length h))%nat /\
  ((Z.of_nat (length h) <= Z.max 0 d)%Z -> (Z.of_nat (length h') <= Z.max 0 d)%Z) /\
  (default [] (TTCMonitor.objects state) <> [] ->
   ((1 < d)%Z ->
    (triggered out = true <->
     (length h' < 2 * TTCMonitor.trigger_count h')%nat)) /\
   (triggered out = false -> TTCMonitor._last_triggered_object self' = None) /\
   ((d <= 1)%Z ->
    critical_ttc (TTCMonitor.config self) <= warning_ttc (TTCMonitor.config self) ->
    triggered out = true -> 0 < severity out)).
Proof.
  intros H. cbv zeta. apply check_cases in H.
  destruct H as [(Hobj & -> & Ht & Hs & Hid & Hnow)
                |(Hobj & m & mo & Hid' & Hcfg & Hh & Ht & Hl & Hs & Hid & Hnow)].
  - rewrite Hs. split; [lra|]. split; [lra|]. split; [exact Hid|]. split; [exact Hnow|].
    split; [reflexivity|]. split; [reflexivity|]. split; [auto|].
    split; [lia|]. split; [auto|]. intros Hn. contradiction.
  - cbv zeta in Hh, Ht. rewrite Hs.
    destruct (ttc_severity_range self m) as [H0 H1].
    split; [exact H0|]. split; [exact H1|]. split; [exact Hid|]. split; [exact Hnow|].
    split; [exact Hid'|]. split; [exact Hcfg|]. split; [intros E; contradiction|].
    split; [|split].
    + rewrite Hh. apply push_history_length.
    + rewrite Hh. apply push_history_bound.
    + intros _. split; [|split].
      * intros Hd. apply Z.ltb_lt in Hd. rewrite Hd in Ht.
        rewrite Ht, Hh. apply majority_iff.
      * intros Hf. rewrite Hl, Hf. reflexivity.
      * intros Hd Hcw Htrue.
        assert (Hd' : (1 <? debounce_steps (TTCMonitor.config self))%Z = false)
          by (apply Z.ltb_ge; exact Hd).
        rewrite Hd' in Ht. apply raw_trigger_severity; [exact Hcw|].
        rewrite <- Ht. exact Htrue.
Qed.

Lemma check_run_invariant (calls : list (TTCMonitor.State * Q)) (self self' : TTCMonitor.t)
    (outs : list MonitorOutput) :
  check_run self calls = inr (self', outs) ->
  (Z.of_nat (length (TTCMonitor._trigger_history self))
   <= Z.max 0 (debounce_steps (TTCMonitor.config self)))%Z ->
  TTCMonitor.config self' = TTCMonitor.config self /\
  TTCMonitor.self_monitor_id self' = TTCMonitor.self_monitor_id self /\
  (Z.of_nat (length (TTCMonitor._trigger_history self'))
   <= Z.max 0 (debounce_steps (TTCMonitor.config self)))%Z /\
  Forall2 (fun c o => timestamp o = snd c /\
                      monitor_id o = TTCMonitor.self_monitor_id self /\
                      0 <= severity o /\ severity o <= 1) calls outs.
Proof.
  revert self self' outs.
  induction calls as [|[state now] rest IH]; intros self self' outs;
    cbn [TTCMonitor.check_run].
  - intros H Hb. inversion H; subst. repeat split; [exact Hb | constructor].
  - destruct (check self state now) as [e|[s1 o1]] eqn:Hc; cbn [bind fst snd];
      [discriminate|].
    destruct (check_run s1 rest) as [e|[s2 os]] eqn:Hr; cbn [bind fst snd];
      [discriminate|].
    intros H Hb. inversion H; subst; clear H.
    apply check_cases in Hc.
    assert (Hstep : TTCMonitor.config s1 = TTCMonitor.config self /\
                    TTCMonitor.self_monitor_id s1 = TTCMonitor.self_monitor_id self /\
                    (Z.of_nat (length (TTCMonitor._trigger_history s1))
                     <= Z.max 0 (debounce_steps (TTCMonitor.config self)))%Z /\
                    timestamp o1 = now /\
                    monitor_id o1 = TTCMonitor.self_monitor_id self /\
                    0 <= severity o1 /\ severity o1 <= 1).
    { destruct Hc as [(_ & -> & _ & Hs & Hid & Hnow)
                     |(_ & m & mo & Hid' & Hcfg & Hh & _ & _ & Hs & Hid & Hnow)].
      - rewrite Hs. split; [reflexivity|]. split; [reflexivity|].
        split; [exact Hb|]. split; [exact Hnow|]. split; [exact Hid|]. split; lra.
      - cbv zeta in Hh. rewrite Hs.
        destruct (ttc_severity_range self m) as [H0 H1].
        split; [exact Hcfg|]. split; [exact Hid'|].
        split; [rewrite Hh; apply push_history_bound; exact Hb|].
        split; [exact Hnow|]. split; [exact Hid|]. split; assumption. }
    destruct Hstep as (Hcfg & Hid & Hb1 & Hnow & Hmid & H0 & H1).
    destruct (IH s1 self' os Hr) as (Hcfg' & Hid' & Hb' & Hall).
    { rewrite Hcfg. exact Hb1. }
    split; [congruence|]. split; [congruence|].
    split; [rewrite Hcfg in Hb'; exact Hb'|].
    constructor; [cbn [snd]; auto|].
    eapply Forall2_impl; [exact Hall|]. cbn.
    intros c o (Ha & Hbb & Hc0 & Hc1). rewrite Hid in Hbb. auto.
Qed.

(** Over any run of returning [check] calls on a monitor built by
    [__init__], the trigger history never holds more than
    [debounce_steps] entries (none for a bound of zero or less); there
    is one output per call, in call order, each with the monitor's
    identifier, the clock reading of its call and a severity in [0, 1];
    and the configuration is never changed. *)
Theorem ttc_history_bounded (id : string) (cfg : option TTCConfig)
    (calls : list (TTCMonitor.State * Q)) (self' : TTCMonitor.t)
    (outs : list MonitorOutput) :
  check_run (TTCMonitor.init id cfg) calls = inr (self', outs) ->
  TTCMonitor.config self' = default default_ttc_config cfg /\
  (Z.of_nat (length (TTCMonitor._trigger_history self'))
   <= Z.max 0 (debounce_steps (TTCMonitor.config self')))%Z /\
  length outs = length calls /\
  Forall2 (fun c o => timestamp o = snd c /\ monitor_id o = id /\
                      0 <= severity o /\ severity o <= 1) calls outs.
Proof.
  intros H. apply check_run_invariant in H; [|cbn; lia].
  destruct H as (Hcfg & _ & Hb & Hall). cbn in Hcfg, Hb, Hall.
  split; [exact Hcfg|]. split; [rewrite Hcfg; exact Hb|].
  split; [symmetry; eapply Forall2_length; exact Hall | exact Hall].
Qed.

End CheckFacts.


(** A state with one object five metres ahead of an ego vehicle that
    closes in at 10 m/s. *)
Definition closing_state : TTCMonitor.State :=
  {| TTCMonitor.ego_position := Some [0; 0];
     TTCMonitor.ego_velocity := Some [10; 0];
     TTCMonitor.objects :=
       Some [{| TTCMonitor.key_object_id := Some "car"%string;
                TTCMonitor.key_position := Some [5; 0];
                TTCMonitor.key_velocity := Some [0; 0];
                TTCMonitor.key_acceleration := None |}] |}.

Definition render (t : Q) (o : option string) : string := default "none"%string o.

(** The first check of a fresh monitor on the closing state. *)
Lemma ttc_check_output_witness :
  exists self' out,
    TTCMonitor.check norm_on_axis (fun x => x) render render (fun _ => "safe"%string)
      (TTCMonitor.init "ttc" None) closing_state 0 = inr (self', out) /\
    0 <= severity out /\ severity out <= 1 /\
    (length (TTCMonitor._trigger_history self') <= 1)%nat.
Proof.
  destruct (TTCMonitor.check norm_on_axis (fun x => x) render render
              (fun _ => "safe"%string) (TTCMonitor.init "ttc" None) closing_state 0)
    as [e|[self' out]] eqn:Hc; [vm_compute in Hc; discriminate|].
  exists self', out. split; [reflexivity|].
  pose proof (ttc_check_output norm_on_axis (fun x => x) render render
                (fun _ => "safe"%string) _ _ _ _ _ Hc) as H.
  cbv zeta in H. destruct H as (H0 & H1 & _ & _ & _ & _ & _ & Hlen & _).
  split; [exact H0|]. split; [exact H1 | exact Hlen].
Defined.

(** Five checks in a row on the closing state, with three debounce
    steps. *)
Lemma ttc_history_bounded_witness :
  exists self' outs,
    TTCMonitor.check_run norm_on_axis (fun x => x) render render
      (fun _ => "safe"%string) (TTCMonitor.init "ttc" None)
      [(closing_state, 0); (closing_state, 1); (closing_state, 2);
       (closing_state, 3); (closing_state, 4)] = inr (self', outs) /\
    (Z.of_nat (length (TTCMonitor._trigger_history self')) <= 3)%Z /\
    length outs = 5%nat.
Proof.
  destruct (TTCMonitor.check_run norm_on_axis (fun x => x) render render
              (fun _ => "safe"%string) (TTCMonitor.init "ttc" None)
              [(closing_state, 0); (closing_state, 1); (closing_state, 2);
               (closing_state, 3); (closing_state, 4)])
    as [e|[self' outs]] eqn:Hc; [vm_compute in Hc; discriminate|].
  exists self', outs. split; [reflexivity|].
  pose proof (ttc_history_bounded norm_on_axis (fun x => x) render render
                (fun _ => "safe"%string) _ _ _ _ _ Hc) as (Hcfg & Hb & Hlen & _).
  rewrite Hcfg in Hb. split; [exact Hb | exact Hlen].
Defined.

End TTCFacts.

(* ================================================================== *)
(** * Further properties of safety/filter.py *)
(* ================================================================== *)

Module FilterMore.

Import Exn Numeric NumericFacts Filter.
Local Open Scope Q_scope.
Local Open Scope result_scope.

(** ** box_constraint_project *)

Lemma np_clip_within (a lo hi : vec) :
  length a = length lo -> Forall2 Qle lo hi ->
  Forall2 Qle lo (np_clip a lo hi) /\ Forall2 Qle (np_clip a lo hi) hi.
Proof.
  intros Hlen Hb. revert a Hlen.
  induction Hb as [|l u lo hi Hlu Hrest IH]; intros a Hlen.
  - destruct a; [|discriminate]. cbn. split; constructor.
  - destruct a as [|x a]; [discriminate|]. cbn [np_clip].
    destruct (IH a) as [H1 H2]; [cbn in Hlen; congruence|].
    destruct (Qltb x l) eqn:E1; [apply Qltb_lt in E1 | apply Qltb_false in E1].
    + destruct (Qltb u l) eqn:E2; [apply Qltb_lt in E2 | apply Qltb_false in E2];
        split; constructor; try assumption; lra.
    + destruct (Qltb u x) eqn:E2; [apply Qltb_lt in E2 | apply Qltb_false in E2];
        split; constructor; try assumption; lra.
Qed.

Lemma np_clip_inside (a lo hi : vec) :
  Forall2 Qle lo a -> Forall2 Qle a hi -> np_clip a lo hi = a.
Proof.
  intros Hlo. revert hi. induction Hlo as [|l x lo a Hlx Hrest IH]; intros hi Hhi.
  - inversion Hhi. reflexivity.
  - inversion Hhi as [|x' u a' hi' Hxu Hrest']; subst. cbn [np_clip].
    assert (E1 : Qltb x l = false) by (apply Qltb_false; exact Hlx).
    assert (E2 : Qltb u x = false) by (apply Qltb_false; exact Hxu).
    rewrite E1, E2. f_equal. apply IH. exact Hrest'.
Qed.

Lemma np_allclose_refl (a : vec) : np_allclose a a = true.
Proof.
  unfold np_allclose. induction a as [|x a IH]; [reflexivity|].
  cbn [zip_with forallb]. rewrite IH, andb_true_r. apply Qleb_le.
  assert (E : Qabs (x - x) == 0).
  { assert (E0 : x - x == 0) by ring. rewrite E0. reflexivity. }
  pose proof (Qabs_nonneg x) as Hx. set (t := Qabs x) in *.
  rewrite E. lra.
Qed.

Lemma np_allclose_close (a p : vec) :
  length a = length p -> np_allclose a p = true ->
  Forall2 (fun x y => Qabs (x - y) <= (1 # 100000000) + (1 # 100000) * Qabs y) a p.
Proof.
  unfold np_allclose. revert p. induction a as [|x a IH]; intros [|y p] Hlen H;
    try discriminate; [constructor|].
  cbn [zip_with forallb] in H. apply andb_true_iff in H. destruct H as [H1 H2].
  constructor; [apply Qleb_le; exact H1|]. apply IH; [cbn in Hlen; congruence | exact H2].
Qed.

Lemma np_clip_length (a lo hi : vec) :
  length a = length lo -> length a = length hi -> length (np_clip a lo hi) = length a.
Proof.
  revert lo hi. induction a as [|x a IH]; intros [|l lo] [|u hi] H1 H2;
    try discriminate; [reflexivity|].
  cbn [np_clip length]. f_equal. apply IH; cbn in *; congruence.
Qed.

(** For a box whose lower bounds do not exceed its upper bounds and an
    action of the box's shape, the projection lies within the bounds; an
    action within the bounds is returned as it is, not flagged as
    modified; projecting a projection changes nothing; an action that is
    flagged was outside the bounds; and an action that is not flagged
    is within the tolerance of [np.allclose] of its projection, which is
    all the flag says. *)
Theorem box_projection (action : vec) (c : BoxConstraint) :
  length action = length (lower c) ->
  Forall2 Qle (lower c) (upper c) ->
  let projected := fst (box_constraint_project action c) in
  let modified := snd (box_constraint_project action c) in
  Forall2 Qle (lower c) projected /\ Forall2 Qle projected (upper c) /\
  (Forall2 Qle (lower c) action -> Forall2 Qle action (upper c) ->
   projected = action /\ modified = false) /\
  box_constraint_project projected c = (projected, false) /\
  (modified = true ->
   ~ (Forall2 Qle (lower c) action /\ Forall2 Qle action (upper c))) /\
  (modified = false ->
   Forall2 (fun x y => Qabs (x - y) <= (1 # 100000000) + (1 # 100000) * Qabs y)
           action projected).
Proof.
  intros Hlen Hb. cbv zeta. unfold box_constraint_project. cbn [fst snd].
  destruct (np_clip_within action (lower c) (upper c) Hlen Hb) as [H1 H2].
  assert (Hinside : Forall2 Qle (lower c) action -> Forall2 Qle action (upper c) ->
                    np_clip action (lower c) (upper c) = action /\
                    negb (np_allclose action (np_clip action (lower c) (upper c))) = false).
  { intros Ha Hb'. rewrite (np_clip_inside _ _ _ Ha Hb').
    split; [reflexivity|]. rewrite np_allclose_refl. reflexivity. }
  split; [exact H1|]. split; [exact H2|]. split; [exact Hinside|]. split; [|split].
  - rewrite (np_clip_inside _ _ _ H1 H2), np_allclose_refl. reflexivity.
  - intros Hm [Ha Hb']. destruct (Hinside Ha Hb') as [_ E]. congruence.
  - intros Hm. apply negb_false_iff in Hm. apply np_allclose_close; [|exact Hm].
    symmetry. apply np_clip_length; [exact Hlen|].
    rewrite Hlen. eapply Forall2_length. exact Hb.
Qed.

(** The unit square and an action to its right. *)
Lemma box_projection_witness :
  box_constraint_project [2; 1 # 2]
    {| lower := [0; 0]; upper := [1; 1]; box_name := "box" |} = ([1; 1 # 2], true) /\
  Forall2 Qle [0; 0] [1; 1 # 2].
Proof.
  split; [reflexivity|].
  apply (box_projection [2; 1 # 2]
           {| lower := [0; 0]; upper := [1; 1]; box_name := "box" |}).
  - reflexivity.
  - repeat constructor; apply Qleb_le; reflexivity.
Defined.

(** ** SafetyFilter.filter on an action that complies *)

Module Safety := Filter.SafetyFilter.

(** The action lies within the bounds of a box constraint. *)
Definition in_box (c : BoxConstraint) (a : vec) : Prop :=
  Forall2 Qle (lower c) a /\ Forall2 Qle a (upper c).

(** [A @ a <= b], with one bound per row and at least one row. *)
Definition in_half_spaces (c : LinearConstraint) (a : vec) : Prop :=
  A c <> [] /\ length (A c) = length (b c) /\ FilterFacts.feasible c a.

(** Every recorded margin is on the safe side. *)
Definition margins_safe (r : FilteredAction) : Prop :=
  forall name m, constraint_margins r !! name = Some m -> 0 <= m.

Lemma np_min_nonneg (xs : list Q) :
  xs <> [] -> Forall (fun d => 0 <= d) xs -> exists m, np_min xs = inr m /\ 0 <= m.
Proof.
  destruct xs as [|x rest]; [congruence|]. intros _ H.
  inversion H as [|x' rest' Hx Hrest]; subst. cbn [np_min]. eexists. split; [reflexivity|].
  clear H. revert x Hx. induction Hrest as [|y rest Hy Hrest IH]; intros x Hx; cbn.
  - exact Hx.
  - apply IH. destruct (Qltb y x); assumption.
Qed.

Lemma np_max_nonpos (xs : list Q) :
  xs <> [] -> Forall (fun d => d <= 0) xs -> exists m, np_max xs = inr m /\ m <= 0.
Proof.
  destruct xs as [|x rest]; [congruence|]. intros _ H.
  inversion H as [|x' rest' Hx Hrest]; subst. cbn [np_max]. eexists. split; [reflexivity|].
  clear H. revert x Hx. induction Hrest as [|y rest Hy Hrest IH]; intros x Hx; cbn.
  - exact Hx.
  - apply IH. destruct (Qltb x y); assumption.
Qed.

Lemma vsub_nonneg (x y : vec) : Forall2 Qle y x -> Forall (fun d => 0 <= d) (vsub x y).
Proof.
  induction 1 as [|v u y x Hvu Hrest IH]; cbn; constructor; [lra | exact IH].
Qed.

Lemma vsub_nonempty (x y : vec) : Forall2 Qle y x -> x <> [] -> vsub x y <> [].
Proof. intros H Hne. destruct H; [congruence | discriminate]. Qed.

Lemma box_stage_compliant (acc : FilteredAction) (c : BoxConstraint) :
  action acc <> [] -> in_box c (action acc) ->
  exists m,
    0 <= m /\
    Safety.box_stage acc c
    = inr {| action := action acc;
             was_modified := was_modified acc;
             constraint_margins := <[box_name c := m]> (constraint_margins acc);
             fallback_used := fallback_used acc;
             violation_type := violation_type acc |}.
Proof.
  intros Hne [Hlo Hhi]. unfold Safety.box_stage, box_constraint_project.
  rewrite (np_clip_inside _ _ _ Hlo Hhi), np_allclose_refl. cbn [negb].
  destruct (np_min_nonneg (vsub (action acc) (lower c)))
    as (m1 & -> & Hm1); [apply vsub_nonempty; assumption | apply vsub_nonneg; exact Hlo |].
  destruct (np_min_nonneg (vsub (upper c) (action acc)))
    as (m2 & -> & Hm2).
  { apply vsub_nonempty; [exact Hhi|]. intros E. rewrite E in Hhi. inversion Hhi.
    congruence. }
  { apply vsub_nonneg. exact Hhi. }
  cbn [bind]. exists (py_min m1 m2). split; [|reflexivity].
  destruct (py_min_cases m1 m2) as [[_ ->]|[_ ->]]; assumption.
Qed.

Lemma violations_nonpos (rows : list vec) (bounds : vec) (x : vec) :
  Forall (fun row : vec * Q => dot (fst row) x <= snd row) (zip_with pair rows bounds) ->
  Forall (fun d => d <= 0) (vsub (matvec rows x) bounds).
Proof.
  revert bounds. induction rows as [|a_i rows IH]; intros [|b_i bounds] H;
    cbn [matvec map vsub zip_with]; try constructor.
  - cbn [zip_with] in H. inversion H as [|row rest Hrow Hrest]; subst.
    cbn [fst snd] in Hrow. lra.
  - apply IH. cbn [zip_with] in H. inversion H; assumption.
Qed.

Lemma linear_stage_compliant (acc : FilteredAction) (c : LinearConstraint) :
  in_half_spaces c (action acc) ->
  exists m,
    0 <= m /\
    Safety.linear_stage acc c
    = inr {| action := action acc;
             was_modified := was_modified acc;
             constraint_margins := <[lin_name c := m]> (constraint_margins acc);
             fallback_used := fallback_used acc;
             violation_type := violation_type acc |}.
Proof.
  intros (Hne & Hlen & Hfeas). unfold Safety.linear_stage, linear_constraint_project.
  rewrite (FilterFacts.violations_within (A c) (b c) (action acc) default_tolerance);
    [|unfold default_tolerance; apply Qleb_le; reflexivity | exact Hfeas].
  destruct (np_max_nonpos (vsub (matvec (A c) (action acc)) (b c)))
    as (w & -> & Hw).
  { destruct (A c) as [|a0 rows]; [congruence|].
    destruct (b c); [discriminate | discriminate]. }
  { apply violations_nonpos. exact Hfeas. }
  cbn [bind]. exists (- w). split; [lra | reflexivity].
Qed.

Lemma fold_stage_compliant {C} (stage : FilteredAction -> C -> result FilteredAction)
    (name : C -> string) (ok_for : C -> vec -> Prop) (cs : list C) :
  (forall acc c,
      ok_for c (action acc) ->
      exists m,
        0 <= m /\
        stage acc c
        = inr {| action := action acc;
                 was_modified := was_modified acc;
                 constraint_margins := <[name c := m]> (constraint_margins acc);
                 fallback_used := fallback_used acc;
                 violation_type := violation_type acc |}) ->
  forall acc,
    (forall c, In c cs -> ok_for c (action acc)) ->
    margins_safe acc ->
    exists r,
      Safety.fold_stage stage cs acc = inr r /\
      action r = action acc /\ was_modified r = was_modified acc /\
      fallback_used r = fallback_used acc /\ violation_type r = violation_type acc /\
      margins_safe r /\
      (forall n, is_Some (constraint_margins r !! n) <->
                 is_Some (constraint_margins acc !! n) \/ In n (map name cs)).
Proof.
  intros Hstage. induction cs as [|c rest IH]; intros acc Hall Hsafe;
    cbn [Safety.fold_stage].
  - exists acc. split; [reflexivity|]. repeat split; try assumption.
    + intros H; left; exact H.
    + intros [H|[]]; exact H.
  - destruct (Hstage acc c (Hall c (or_introl eq_refl))) as (m & Hm & ->).
    cbn [bind].
    match goal with
    | |- context [Safety.fold_stage stage rest ?a] => set (acc1 := a)
    end.
    destruct (IH acc1) as (r & Hr & Ha & Hw & Hf & Hv & Hs & Hdom).
    { intros c' Hc'. apply Hall. right. exact Hc'. }
    { intros n q. unfold acc1. cbn [constraint_margins].
      destruct (decide (name c = n)) as [->|Hn].
      - rewrite lookup_insert_eq. intros E. inversion E; subst. exact Hm.
      - rewrite lookup_insert_ne by exact Hn. apply Hsafe. }
    exists r. split; [exact Hr|]. split; [exact Ha|]. split; [exact Hw|].
    split; [exact Hf|]. split; [exact Hv|]. split; [exact Hs|].
    intros n. rewrite Hdom. unfold acc1. cbn [constraint_margins map In].
    destruct (decide (name c = n)) as [->|Hn].
    + rewrite lookup_insert_eq. split; [intros _; right; left; reflexivity|].
      intros _. left. eauto.
    + rewrite lookup_insert_ne by exact Hn. split.
      * intros [H|H]; [left; exact H | right; right; exact H].
      * intros [H|[H|H]]; [left; exact H | contradiction | right; exact H].
Qed.

Lemma all_ge_true (x y : vec) : Forall2 Qle y x -> Safety.all_ge x y = true.
Proof.
  unfold Safety.all_ge. induction 1 as [|v u y x Hvu Hrest IH]; [reflexivity|].
  cbn [zip_with forallb]. rewrite IH, andb_true_r. apply Qleb_le. exact Hvu.
Qed.

Lemma all_le_true (x y : vec) : Forall2 Qle x y -> Safety.all_le x y = true.
Proof.
  unfold Safety.all_le. induction 1 as [|u v x y Huv Hrest IH]; [reflexivity|].
  cbn [zip_with forallb]. rewrite IH, andb_true_r. apply Qleb_le. exact Huv.
Qed.

(** The values of a dictionary filled in a loop are values that the loop
    wrote, or were there before. *)
Lemma fold_insert_values {C V} (key : C -> string) (val : C -> V) (cs : list C)
    (start : gmap string V) (n : string) (v : V) :
  fold_left (fun results c => <[key c := val c]> results) cs start !! n = Some v ->
  start !! n = Some v \/ exists c, In c cs /\ v = val c.
Proof.
  revert start. induction cs as [|c rest IH]; intros start; cbn [fold_left].
  - intros H. left. exact H.
  - intros H. destruct (IH _ H) as [H'|(c' & Hin & Hv)].
    + destruct (decide (key c = n)) as [Heq|Hn].
      * rewrite <- Heq, lookup_insert_eq in H'. right. exists c.
        split; [left; reflexivity|]. congruence.
      * rewrite lookup_insert_ne in H' by exact Hn. left. exact H'.
    + right. exists c'. split; [right; exact Hin | exact Hv].
Qed.

(** An action that lies within every box, satisfies every row of every
    linear constraint and is not replaced by the fallback passes through
    [filter] unchanged when the barrier stage does not run:
    [was_modified] and [fallback_used] are false, no violation is named,
    there is a margin for each constraint name and none is negative; and
    [check_constraints] reports every constraint as satisfied. *)
Theorem filter_compliant_action (self : Safety.t) (a : vec) (state : option vec) :
  (Safety.box_constraints self <> [] -> a <> []) ->
  (forall c, In c (Safety.box_constraints self) -> in_box c a) ->
  (forall c, In c (Safety.linear_constraints self) -> in_half_spaces c a) ->
  Safety.cbf_filter self = None \/ state = None ->
  Safety.fallback_action self = None \/ norm_lt a (1 # 1000000) = false ->
  exists r,
    Safety.filter self a state = inr r /\
    action r = a /\ was_modified r = false /\ fallback_used r = false /\
    violation_type r = None /\ margins_safe r /\
    (forall n, is_Some (constraint_margins r !! n) <->
               In n (map box_name (Safety.box_constraints self)) \/
               In n (map lin_name (Safety.linear_constraints self))) /\
    (forall n v, Safety.check_constraints self a !! n = Some v -> v = true).
Proof.
  intros Hne Hbox Hlin Hcbf Hfb. unfold Safety.filter.
  set (acc0 := {| action := a; was_modified := false; constraint_margins := ∅;
                  fallback_used := false; violation_type := None |}).
  destruct (fold_stage_compliant Safety.box_stage box_name
              (fun c x => x <> [] /\ in_box c x) (Safety.box_constraints self))
    with (acc := acc0) as (r1 & -> & Ha1 & Hw1 & Hf1 & Hv1 & Hs1 & Hd1).
  { intros acc c [H1 H2]. apply box_stage_compliant; assumption. }
  { intros c Hc. split; [|apply Hbox; exact Hc].
    apply Hne. intros E. rewrite E in Hc. destruct Hc. }
  { intros n m H. cbn in H. rewrite lookup_empty in H. discriminate. }
  cbn [bind].
  destruct (fold_stage_compliant Safety.linear_stage lin_name in_half_spaces
              (Safety.linear_constraints self))
    with (acc := r1) as (r2 & -> & Ha2 & Hw2 & Hf2 & Hv2 & Hs2 & Hd2).
  { intros acc c H. apply linear_stage_compliant; exact H. }
  { intros c Hc. rewrite Ha1. apply Hlin. exact Hc. }
  { exact Hs1. }
  cbn [bind].
  assert (Hcbf' : Safety.cbf_stage self state r2 = r2).
  { unfold Safety.cbf_stage. destruct Hcbf as [-> | ->]; [reflexivity|].
    destruct (Safety.cbf_filter self); reflexivity. }
  rewrite Hcbf'.
  assert (Hfb' : Safety.fallback_stage self r2 = r2).
  { unfold Safety.fallback_stage. destruct Hfb as [-> | Hn]; [reflexivity|].
    destruct (Safety.fallback_action self); [|reflexivity].
    rewrite Ha2, Ha1. cbn [acc0 action]. rewrite Hn. reflexivity. }
  rewrite Hfb'. exists r2. split; [reflexivity|].
  split; [rewrite Ha2, Ha1; reflexivity|].
  split; [rewrite Hw2, Hw1; reflexivity|].
  split; [rewrite Hf2, Hf1; reflexivity|].
  split; [rewrite Hv2, Hv1; reflexivity|].
  split; [exact Hs2|]. split.
  - intros n. rewrite Hd2, Hd1. cbn [acc0 constraint_margins]. rewrite lookup_empty.
    split.
    + intros [[[x Hx]|H]|H]; [discriminate | left; exact H | right; exact H].
    + intros [H|H]; [left; right; exact H | right; exact H].
  - intros n v H. unfold Safety.check_constraints in H.
    apply fold_insert_values in H. destruct H as [H|(c & Hc & ->)].
    + apply fold_insert_values in H. destruct H as [H|(c & Hc & ->)].
      * rewrite lookup_empty in H. discriminate.
      * destruct (Hbox c Hc) as [Hlo Hhi].
        rewrite (all_ge_true _ _ Hlo), (all_le_true _ _ Hhi). reflexivity.
    + destruct (Hlin c Hc) as (_ & _ & Hfeas).
      apply FilterFacts.violations_within; [apply Qleb_le; reflexivity | exact Hfeas].
Qed.

(** An action inside the unit square and below the line x + y <= 1. *)
Lemma filter_compliant_action_witness :
  exists r,
    Safety.filter
      {| Safety.box_constraints :=
           [{| lower := [0; 0]; upper := [1; 1]; box_name := "box" |}];
         Safety.linear_constraints :=
           [{| A := [[1; 1]]; b := [1]; lin_name := "budget" |}];
         Safety.cbf_filter := None;
         Safety.fallback_action := Some [0; 0] |}
      [1 # 2; 1 # 4] None = inr r /\
    action r = [1 # 2; 1 # 4] /\ was_modified r = false /\ fallback_used r = false.
Proof.
  destruct (filter_compliant_action
              {| Safety.box_constraints :=
                   [{| lower := [0; 0]; upper := [1; 1]; box_name := "box" |}];
                 Safety.linear_constraints :=
                   [{| A := [[1; 1]]; b := [1]; lin_name := "budget" |}];
                 Safety.cbf_filter := None;
                 Safety.fallback_action := Some [0; 0] |}
              [1 # 2; 1 # 4] None)
    as (r & Hr & Ha & Hw & Hf & _).
  - discriminate.
  - intros c [<-|[]]. split; repeat constructor; apply Qleb_le; reflexivity.
  - intros c [<-|[]]. split; [discriminate|]. split; [reflexivity|].
    repeat constructor. apply Qleb_le. reflexivity.
  - left. reflexivity.
  - right. reflexivity.
  - exists r. auto.
Defined.

(** ** The fallback *)

Lemma box_stage_fallback (acc acc' : FilteredAction) (c : BoxConstraint) :
  Safety.box_stage acc c = inr acc' -> fallback_used acc' = fallback_used acc.
Proof.
  unfold Safety.box_stage. destruct (box_constraint_project _ _) as [p m].
  destruct (np_min _) as [e|m1]; cbn [bind]; [discriminate|].
  destruct (np_min _) as [e|m2]; cbn [bind]; [discriminate|].
  intros H. inversion H. reflexivity.
Qed.

Lemma linear_stage_fallback (acc acc' : FilteredAction) (c : LinearConstraint) :
  Safety.linear_stage acc c = inr acc' -> fallback_used acc' = fallback_used acc.
Proof.
  unfold Safety.linear_stage. destruct (linear_constraint_project _ _ _ _) as [p m].
  destruct (np_max _) as [e|w]; cbn [bind]; [discriminate|].
  intros H. inversion H. reflexivity.
Qed.

Lemma fold_stage_fallback {C} (stage : FilteredAction -> C -> result FilteredAction)
    (cs : list C) :
  (forall acc acc' c, stage acc c = inr acc' -> fallback_used acc' = fallback_used acc) ->
  forall acc acc',
    Safety.fold_stage stage cs acc = inr acc' -> fallback_used acc' = fallback_used acc.
Proof.
  intros Hstage. induction cs as [|c rest IH]; intros acc acc'; cbn [Safety.fold_stage].
  - intros H. inversion H. reflexivity.
  - destruct (stage acc c) as [e|acc1] eqn:E; cbn [bind]; [discriminate|].
    intros H. rewrite (IH _ _ H). eapply Hstage. exact E.
Qed.

(** When [filter] returns: if it says the fallback was used, the action
    it returns is the fallback action; without a fallback action it never
    says so; and if a fallback exists and was not used, the returned
    action does not vanish.  A vanishing candidate that no constraint
    and no barrier looks at is replaced by the fallback, and the result
    still says that the action was not modified. *)
Theorem filter_fallback (self : Safety.t) (a : vec) (state : option vec)
    (r : FilteredAction) :
  Safety.filter self a state = inr r ->
  (fallback_used r = true -> Safety.fallback_action self = Some (action r)) /\
  (Safety.fallback_action self = None -> fallback_used r = false) /\
  (fallback_used r = false -> Safety.fallback_action self <> None ->
   norm_lt (action r) (1 # 1000000) = false) /\
  (Safety.box_constraints self = [] -> Safety.linear_constraints self = [] ->
   Safety.cbf_filter self = None \/ state = None ->
   forall fb, Safety.fallback_action self = Some fb ->
     norm_lt a (1 # 1000000) = true ->
     action r = fb /\ fallback_used r = true /\ was_modified r = false /\
     violation_type r = None).
Proof.
  unfold Safety.filter.
  set (acc0 := {| action := a; was_modified := false; constraint_margins := ∅;
                  fallback_used := false; violation_type := None |}).
  destruct (Safety.fold_stage Safety.box_stage _ acc0) as [e|r1] eqn:E1;
    cbn [bind]; [discriminate|].
  destruct (Safety.fold_stage Safety.linear_stage _ r1) as [e|r2] eqn:E2;
    cbn [bind]; [discriminate|].
  intros H. inversion H; subst r; clear H.
  assert (Hf2 : fallback_used r2 = false).
  { rewrite (fold_stage_fallback _ _ linear_stage_fallback _ _ E2).
    rewrite (fold_stage_fallback _ _ box_stage_fallback _ _ E1). reflexivity. }
  assert (Hcbf : let r3 := Safety.cbf_stage self state r2 in
                 (fallback_used r3 = true -> Safety.fallback_action self = Some (action r3)) /\
                 (Safety.fallback_action self = None -> fallback_used r3 = false)).
  { cbv zeta. unfold Safety.cbf_stage.
    destruct (Safety.cbf_filter self) as [cbf|]; [|split; [congruence | auto]].
    destruct state as [st|]; [|split; [congruence | auto]].
    destruct (CBFFilter.filter_action _ _ _ _) as [e|[[na m] mg]].
    - destruct (Safety.fallback_action self) as [fb|];
        [split; [reflexivity | discriminate] | split; [congruence | auto]].
    - cbn [fallback_used action]. split; [congruence | auto]. }
  cbv zeta in Hcbf. destruct Hcbf as [Hc1 Hc2].
  set (r3 := Safety.cbf_stage self state r2) in *.
  unfold Safety.fallback_stage.
  destruct (Safety.fallback_action self) as [fb|] eqn:Hfb.
  - destruct (norm_lt (action r3) (1 # 1000000)) eqn:Hn.
    + cbn [fallback_used action was_modified violation_type].
      split; [reflexivity|]. split; [discriminate|]. split; [discriminate|].
      intros Hb Hl Hno fb' Hfb' Hsmall. inversion Hfb'; subst fb'.
      split; [reflexivity|]. split; [reflexivity|].
      rewrite Hb in E1. rewrite Hl in E2. cbn in E1, E2.
      inversion E1; subst r1. inversion E2; subst r2.
      assert (E3 : r3 = acc0).
      { unfold r3, Safety.cbf_stage. destruct Hno as [-> | ->]; [reflexivity|].
        destruct (Safety.cbf_filter self); reflexivity. }
      rewrite E3. split; reflexivity.
    + split; [exact Hc1|]. split; [discriminate|]. split; [intros _ _; exact Hn|].
      intros Hb Hl Hno fb' Hfb' Hsmall. exfalso.
      rewrite Hb in E1. rewrite Hl in E2. cbn in E1, E2.
      inversion E1; subst r1. inversion E2; subst r2.
      assert (E3 : r3 = acc0).
      { unfold r3, Safety.cbf_stage. destruct Hno as [-> | ->]; [reflexivity|].
        destruct (Safety.cbf_filter self); reflexivity. }
      rewrite E3 in Hn. cbn [acc0 action] in Hn. congruence.
  - split; [intros Hu; rewrite (Hc2 eq_refl) in Hu; discriminate|].
    split; [intros _; apply Hc2; reflexivity|].
    split; [intros _ Hno; congruence|].
    intros _ _ _ fb' Hfb'. discriminate.
Qed.

(** A candidate of norm zero, a filter with nothing but a fallback. *)
Lemma filter_fallback_witness :
  exists r,
    Safety.filter
      {| Safety.box_constraints := []; Safety.linear_constraints := [];
         Safety.cbf_filter := None; Safety.fallback_action := Some [1; 0] |}
      [0; 0] None = inr r /\
    action r = [1; 0] /\ fallback_used r = true /\ was_modified r = false.
Proof.
  eexists. split; [reflexivity|].
  destruct (filter_fallback
              {| Safety.box_constraints := []; Safety.linear_constraints := [];
                 Safety.cbf_filter := None; Safety.fallback_action := Some [1; 0] |}
              [0; 0] None _ eq_refl) as (_ & _ & _ & H).
  destruct (H eq_refl eq_refl (or_introl eq_refl) [1; 0] eq_refl eq_refl)
    as (H1 & H2 & H3 & _).
  auto.
Defined.

End FilterMore.

(* ================================================================== *)
(** * Further properties of runtime/health.py *)
(* ================================================================== *)

Module HealthMore.

Import Exn Numeric NumericFacts Health.
Local Open Scope Q_scope.
Local Open Scope result_scope.

(** The last [n] elements of a list. *)
Definition keep_last {X} (n : nat) (l : list X) : list X := drop (length l - n) l.

Lemma keep_last_length {X} (n : nat) (l : list X) : (length (keep_last n l) <= n)%nat.
Proof. unfold keep_last. rewrite length_drop. lia. Qed.

Lemma keep_last_all {X} (n : nat) (l : list X) : (length l <= n)%nat -> keep_last n l = l.
Proof.
  intros H. unfold keep_last. replace (length l - n)%nat with 0%nat by lia. reflexivity.
Qed.

Lemma keep_last_app {X} (n : nat) (l m : list X) :
  keep_last n (keep_last n l ++ m) = keep_last n (l ++ m).
Proof.
  unfold keep_last. rewrite !length_app, length_drop.
  rewrite <- (drop_app_le l m (length l - n)) by lia.
  rewrite drop_drop. f_equal. lia.
Qed.

(** ** The alert history *)

Lemma deque_append_keep {X} (n : nat) (d : list X) (x : X) :
  (length d <= n)%nat -> deque_append n d x = keep_last n (d ++ [x]).
Proof.
  intros H. unfold deque_append, keep_last. rewrite length_app. cbn [length].
  destruct (Nat.ltb_spec n (length d + 1)) as [Hlt|Hge].
  - replace (length d + 1 - n)%nat with 1%nat by lia.
    destruct d; reflexivity.
  - replace (length d + 1 - n)%nat with 0%nat by lia. reflexivity.
Qed.

Section History.

Variable alert_message : string -> Q -> Q -> string.

Lemma eval_rule_history (metrics : gmap string Q) (counts : gmap string Z) (now : Q)
    (last : gmap string Q) (hist trig : list Alert) (R : AlertRule) :
  (length hist <= 1000)%nat ->
  exists emitted,
    snd (eval_rule alert_message metrics counts now (last, hist, trig) R)
    = trig ++ emitted /\
    snd (fst (eval_rule alert_message metrics counts now (last, hist, trig) R))
    = keep_last 1000 (hist ++ emitted).
Proof.
  intros Hlen. unfold eval_rule.
  assert (Hstay : exists emitted : list Alert,
             trig = trig ++ emitted /\ hist = keep_last 1000 (hist ++ emitted)).
  { exists []. rewrite !app_nil_r. split; [reflexivity|].
    symmetry. apply keep_last_all. exact Hlen. }
  destruct (metrics !! rule_metric R) as [v|]; [|exact Hstay].
  destruct (_ <? _)%Z; [exact Hstay|].
  destruct (condition R v); cbn [negb]; [|exact Hstay].
  destruct (Qltb _ _); [exact Hstay|].
  cbn [fst snd]. eexists [_]. split; [reflexivity|].
  apply deque_append_keep. exact Hlen.
Qed.

Lemma fold_rules_history (metrics : gmap string Q) (counts : gmap string Z) (now : Q)
    (rs : list AlertRule) (last : gmap string Q) (hist trig : list Alert) :
  (length hist <= 1000)%nat ->
  exists emitted,
    snd (fold_left (eval_rule alert_message metrics counts now) rs (last, hist, trig))
    = trig ++ emitted /\
    snd (fst (fold_left (eval_rule alert_message metrics counts now) rs
                        (last, hist, trig)))
    = keep_last 1000 (hist ++ emitted).
Proof.
  revert last hist trig. induction rs as [|R rs IH]; intros last hist trig Hlen;
    cbn [fold_left].
  - exists []. rewrite !app_nil_r. split; [reflexivity|].
    symmetry. apply keep_last_all. exact Hlen.
  - destruct (eval_rule_history metrics counts now last hist trig R Hlen)
      as (e1 & Ht1 & Hh1).
    destruct (eval_rule alert_message metrics counts now (last, hist, trig) R)
      as [[last1 hist1] trig1].
    cbn [fst snd] in Ht1, Hh1. subst trig1 hist1.
    destruct (IH last1 (keep_last 1000 (hist ++ e1)) (trig ++ e1))
      as (e2 & Ht2 & Hh2); [apply keep_last_length|].
    exists (e1 ++ e2). rewrite Ht2, Hh2. split; [rewrite app_assoc; reflexivity|].
    rewrite keep_last_app, app_assoc. reflexivity.
Qed.

Lemma evaluate_history (self : AlertEngine) (metrics : gmap string Q)
    (counts : gmap string Z) (now : Q) :
  (length (_alert_history self) <= 1000)%nat ->
  rules (fst (evaluate alert_message self metrics counts now)) = rules self /\
  _alert_history (fst (evaluate alert_message self metrics counts now))
  = keep_last 1000 (_alert_history self
                    ++ snd (evaluate alert_message self metrics counts now)).
Proof.
  intros Hlen. unfold evaluate.
  destruct (fold_rules_history metrics counts now (rules self) (_last_alert self)
              (_alert_history self) [] Hlen) as (e & Ht & Hh).
  destruct (fold_left _ _ _) as [[last1 hist1] trig1].
  cbn [fst snd] in *. subst. split; reflexivity.
Qed.

Lemma evaluate_calls_history (calls : list call) (self : AlertEngine) :
  (length (_alert_history self) <= 1000)%nat ->
  rules (fst (evaluate_calls alert_message self calls)) = rules self /\
  _alert_history (fst (evaluate_calls alert_message self calls))
  = keep_last 1000 (_alert_history self ++ snd (evaluate_calls alert_message self calls)).
Proof.
  revert self. induction calls as [|c rest IH]; intros self Hlen;
    cbn [evaluate_calls].
  - cbn [fst snd]. rewrite app_nil_r. split; [reflexivity|].
    symmetry. apply keep_last_all. exact Hlen.
  - destruct (evaluate_history self (call_metrics c) (call_sample_counts c) (call_now c)
                Hlen) as [Hr1 Hh1].
    destruct (evaluate alert_message self _ _ _) as [self1 out1].
    cbn [fst snd] in Hr1, Hh1.
    destruct (IH self1) as [Hr2 Hh2]; [rewrite Hh1; apply keep_last_length|].
    destruct (evaluate_calls alert_message self1 rest) as [self2 outs].
    cbn [fst snd] in *. split; [congruence|].
    rewrite Hh2, Hh1, keep_last_app, app_assoc. reflexivity.
Qed.

(** Over any sequence of [evaluate] calls on a fresh engine, the alert
    history is the last 1000 alerts that the calls returned, in the
    order of emission, and the rules are unchanged.  [get_history] with
    a limit of at least 1 returns the last [limit] alerts of the
    history; with the limit 0 it returns the whole history. *)
Theorem alert_history_window (rs : list AlertRule) (calls : list call) :
  let self' := fst (evaluate_calls alert_message (init rs) calls) in
  let emitted := snd (evaluate_calls alert_message (init rs) calls) in
  rules self' = rs /\
  _alert_history self' = keep_last 1000 emitted /\
  (length (_alert_history self') <= 1000)%nat /\
  (forall limit, (1 <= limit)%Z ->
     get_history self' limit = keep_last (Z.to_nat limit) (_alert_history self') /\
     (Z.of_nat (length (get_history self' limit)) <= limit)%Z) /\
  get_history self' 0 = _alert_history self'.
Proof.
  cbv zeta.
  destruct (evaluate_calls_history calls (init rs)) as [Hr Hh]; [cbn; lia|].
  cbn [init _alert_history rules app] in Hr, Hh.
  split; [exact Hr|]. split; [exact Hh|].
  split; [rewrite Hh; apply keep_last_length|]. split.
  - intros limit Hl.
    assert (E : get_history (fst (evaluate_calls alert_message (init rs) calls)) limit
                = keep_last (Z.to_nat limit)
                    (_alert_history (fst (evaluate_calls alert_message (init rs) calls)))).
    { unfold get_history, py_tail_slice, keep_last.
      destruct (Z.ltb_spec (- limit) 0) as [_|H]; [|lia].
      f_equal. lia. }
    split; [exact E|]. rewrite E.
    pose proof (keep_last_length (Z.to_nat limit)
                  (_alert_history (fst (evaluate_calls alert_message (init rs) calls)))).
    lia.
  - unfold get_history, py_tail_slice. cbv zeta.
    change (- 0 <? 0)%Z with false. cbv iota.
    replace (Z.to_nat (Z.min (- 0) _)) with 0%nat by lia. reflexivity.
Qed.

End History.

(** ** RollingStatistics *)

Module Rolling := Health.RollingStatistics.

(** The timestamps never go back. *)
Definition in_time_order (values : list (Q * Q)) : Prop :=
  StronglySorted (fun a b => fst a <= fst b) values.

Lemma in_time_order_suffix (pre values : list (Q * Q)) :
  in_time_order (pre ++ values) -> in_time_order values.
Proof.
  induction pre as [|p pre IH]; [auto|]. cbn. intros H. inversion H. auto.
Qed.

Lemma in_time_order_snoc (values : list (Q * Q)) (now v : Q) :
  in_time_order values -> Forall (fun tv => fst tv <= now) values ->
  in_time_order (values ++ [(now, v)]).
Proof.
  induction 1 as [|a l Hs IH Ha]; intros Hall; cbn.
  - repeat constructor.
  - inversion Hall as [|a' l' Hle Hrest]; subst. constructor; [apply IH; exact Hrest|].
    apply Forall_app. split; [exact Ha|]. constructor; [exact Hle | constructor].
Qed.

Lemma trim_old_suffix (cutoff : Q) (values : list (Q * Q)) :
  suffix (Rolling.trim_old cutoff values) values.
Proof.
  induction values as [|[t0 v] rest IH]; cbn [Rolling.trim_old]; [reflexivity|].
  destruct (Qltb t0 cutoff); [|reflexivity].
  apply suffix_cons_r. exact IH.
Qed.

Lemma trim_old_recent (cutoff : Q) (values : list (Q * Q)) :
  in_time_order values ->
  Forall (fun tv => cutoff <= fst tv) (Rolling.trim_old cutoff values).
Proof.
  induction 1 as [|[t0 v] rest Hs IH Hall]; cbn [Rolling.trim_old]; [constructor|].
  destruct (Qltb t0 cutoff) eqn:E; [exact IH|].
  apply Qltb_false in E. constructor; [exact E|].
  eapply Forall_impl; [exact Hall|]. cbn. intros a Ha. lra.
Qed.

Lemma limit_size_room (max_samples : Z) (values : list (Q * Q)) :
  (0 <= max_samples)%Z ->
  exists kept,
    Rolling.limit_size max_samples values = inr kept /\
    suffix kept values /\ (Z.of_nat (length kept) <= max_samples)%Z.
Proof.
  intros Hmax. induction values as [|a rest IH]; cbn [Rolling.limit_size].
  - destruct (Z.ltb_spec max_samples (Z.of_nat (length (@nil (Q * Q))))) as [H|H];
      [cbn in H; lia|].
    exists []. split; [reflexivity|]. split; [reflexivity | cbn; lia].
  - destruct (Z.ltb_spec max_samples (Z.of_nat (length (a :: rest)))) as [H|H].
    + destruct IH as (kept & Hk & Hs & Hl). exists kept.
      split; [exact Hk|]. split; [apply suffix_cons_r; exact Hs | exact Hl].
    + exists (a :: rest). split; [reflexivity|]. split; [reflexivity | exact H].
Qed.

Lemma limit_size_negative (max_samples : Z) (values : list (Q * Q)) :
  (max_samples < 0)%Z ->
  Rolling.limit_size max_samples values = inl (Raised "IndexError").
Proof.
  intros Hmax. induction values as [|a rest IH]; cbn [Rolling.limit_size].
  - destruct (Z.ltb_spec max_samples (Z.of_nat (length (@nil (Q * Q))))) as [H|H];
      [reflexivity | cbn in H; lia].
  - destruct (Z.ltb_spec max_samples (Z.of_nat (length (a :: rest)))) as [H|H];
      [exact IH | lia].
Qed.

(** What a run of records leaves behind, from a state whose samples are
    in time order and not later than the first clock reading. *)
Lemma record_all_invariant (calls : list (Q * Q * bool)) (self : Rolling.t) (clock : Q) :
  (0 <= Rolling.max_samples self)%Z ->
  in_time_order (Rolling._values self) ->
  Forall (fun tv => fst tv <= clock) (Rolling._values self) ->
  StronglySorted Qle (clock :: map (fun c => fst (fst c)) calls) ->
  exists self',
    Rolling.record_all self calls = inr self' /\
    Rolling.window_seconds self' = Rolling.window_seconds self /\
    Rolling.max_samples self' = Rolling.max_samples self /\
    Rolling._start_time self' = Rolling._start_time self /\
    Rolling._total_count self' = (Rolling._total_count self + length calls)%nat /\
    Rolling._error_count self'
    = (Rolling._error_count self
       + length (List.filter (fun c => negb (snd c)) calls))%nat /\
    suffix (Rolling._values self')
           (Rolling._values self ++ map (fun c => (fst (fst c), snd (fst c))) calls) /\
    in_time_order (Rolling._values self') /\
    (calls <> [] -> (Z.of_nat (length (Rolling._values self')) <= Rolling.max_samples self)%Z) /\
    (forall now value success,
        last calls = Some (now, value, success) ->
        Forall (fun tv => now - Rolling.window_seconds self <= fst tv /\ fst tv <= now)
               (Rolling._values self')).
Proof.
  revert self clock. induction calls as [|[[now value] success] rest IH];
    intros self clock Hmax Hord Hpast Hclock; cbn [Rolling.record_all].
  - exists self. split; [reflexivity|]. rewrite app_nil_r, !Nat.add_0_r.
    repeat split; try reflexivity; try assumption; try congruence.
    intros now value success H. discriminate.
  - cbn [map fst snd] in Hclock.
    inversion Hclock as [|c0 l0 Htail Hfirst]; subst.
    inversion Hfirst as [|n0 l1 Hcn Hrestc]; subst.
    unfold Rolling.record.
    set (appended := Rolling._values self ++ [(now, value)]).
    assert (Hord1 : in_time_order appended).
    { apply in_time_order_snoc; [exact Hord|].
      eapply Forall_impl; [exact Hpast|]. cbn. intros a Ha. lra. }
    assert (Hpast1 : Forall (fun tv => fst tv <= now) appended).
    { apply Forall_app. split.
      - eapply Forall_impl; [exact Hpast|]. cbn. intros a Ha. lra.
      - constructor; [cbn; lra | constructor]. }
    set (trimmed := Rolling.trim_old (now - Rolling.window_seconds self) appended).
    pose proof (trim_old_suffix (now - Rolling.window_seconds self) appended) as Hsuf1.
    pose proof (trim_old_recent (now - Rolling.window_seconds self) appended Hord1)
      as Hrec1.
    fold trimmed in Hsuf1, Hrec1.
    destruct (limit_size_room (Rolling.max_samples self) trimmed Hmax)
      as (kept & -> & Hsuf2 & Hlen).
    cbn [bind].
    set (self1 := {| Rolling.window_seconds := Rolling.window_seconds self;
                     Rolling.max_samples := Rolling.max_samples self;
                     Rolling._values := kept;
                     Rolling._error_count :=
                       if success then Rolling._error_count self
                       else S (Rolling._error_count self);
                     Rolling._total_count := S (Rolling._total_count self);
                     Rolling._start_time := Rolling._start_time self |}).
    assert (Hkept : suffix kept appended) by (etrans; eassumption).
    assert (Hord2 : in_time_order kept).
    { destruct Hkept as [pre Hpre]. apply (in_time_order_suffix pre). rewrite <- Hpre.
      exact Hord1. }
    assert (Hpast2 : Forall (fun tv => fst tv <= now) kept).
    { destruct Hkept as [pre Hpre]. rewrite Hpre in Hpast1.
      apply Forall_app in Hpast1. apply Hpast1. }
    assert (Hrec2 : Forall (fun tv => now - Rolling.window_seconds self <= fst tv) kept).
    { destruct Hsuf2 as [pre Hpre]. rewrite Hpre in Hrec1.
      apply Forall_app in Hrec1. apply Hrec1. }
    destruct (IH self1 now) as (self' & Hrun & Hw & Hm & Hst & Ht & He & Hsuf & Ho & Hl & Hwin);
      [exact Hmax | exact Hord2 | exact Hpast2 | exact Htail |].
    exists self'. split; [exact Hrun|]. split; [exact Hw|]. split; [exact Hm|].
    split; [exact Hst|]. split; [rewrite Ht; cbn; lia|]. split.
    { rewrite He. cbn [self1 Rolling._error_count List.filter snd negb].
      destruct success; cbn [negb length]; lia. }
    split.
    { etrans; [exact Hsuf|]. cbn [self1 Rolling._values map fst snd].
      replace (Rolling._values self ++ (now, value) :: map _ rest)
        with (appended ++ map (fun c : Q * Q * bool => (fst (fst c), snd (fst c))) rest)
        by (unfold appended; rewrite <- app_assoc; reflexivity).
      apply suffix_app. exact Hkept. }
    split; [exact Ho|]. split.
    { intros _. destruct rest as [|r rest'].
      - cbn in Hrun. inversion Hrun; subst self'. exact Hlen.
      - apply Hl. discriminate. }
    intros now' value' success' Hlast. destruct rest as [|r rest'].
    + cbn in Hlast. inversion Hlast; subst. cbn in Hrun. inversion Hrun; subst self'.
      cbn [self1 Rolling._values].
      apply List.Forall_forall. intros tv Htv.
      rewrite List.Forall_forall in Hrec2, Hpast2. split; [apply Hrec2 | apply Hpast2];
        exact Htv.
    + apply (Hwin now' value' success'). exact Hlast.
Qed.

Lemma error_rate_range (self : Rolling.t) :
  (Rolling._error_count self <= Rolling._total_count self)%nat ->
  0 <= Rolling.get_error_rate self /\ Rolling.get_error_rate self <= 1.
Proof.
  intros H. unfold Rolling.get_error_rate.
  destruct (Rolling._total_count self) as [|n] eqn:E; [split; lra|].
  assert (Hpos : 0 < inject_Z (Z.of_nat (S n))).
  { replace 0 with (inject_Z 0) by reflexivity. rewrite <- Zlt_Qlt. lia. }
  split.
  - apply Qle_shift_div_l; [exact Hpos|]. rewrite Qmult_0_l.
    replace 0 with (inject_Z 0) by reflexivity. rewrite <- Zle_Qle. lia.
  - apply Qle_shift_div_r; [exact Hpos|]. rewrite Qmult_1_l. rewrite <- Zle_Qle. lia.
Qed.

(** Over any run of [record] calls on fresh statistics with a capacity
    that is not negative and a clock that never goes back, every call
    returns; the total counts the calls and the error count the failed
    ones, over the whole life and not the window, so that the error
    rate lies in [0, 1]; the retained samples are the most recent ones,
    in the order of recording, never more than [max_samples], and none
    is older than the window of the last call.  With a negative
    capacity every [record] raises IndexError, from the empty deque. *)
Theorem rolling_record_run (window : Q) (capacity : Z) (start : Q)
    (calls : list (Q * Q * bool)) :
  ((0 <= capacity)%Z ->
   StronglySorted Qle (map (fun c => fst (fst c)) calls) ->
   exists self',
     Rolling.record_all (Rolling.init window capacity start) calls = inr self' /\
     Rolling.get_total_count self'
     = (length calls, length (List.filter (fun c => negb (snd c)) calls)) /\
     0 <= Rolling.get_error_rate self' /\ Rolling.get_error_rate self' <= 1 /\
     suffix (Rolling._values self') (map (fun c => (fst (fst c), snd (fst c))) calls) /\
     (Z.of_nat (length (Rolling._values self')) <= capacity)%Z /\
     (forall now value success,
         last calls = Some (now, value, success) ->
         Forall (fun tv => now - window <= fst tv /\ fst tv <= now)
                (Rolling._values self'))) /\
  ((capacity < 0)%Z ->
   forall self value success now,
     Rolling.max_samples self = capacity ->
     Rolling.record self value success now = inl (Raised "IndexError")).
Proof.
  split.
  - intros Hcap Hclock.
    destruct calls as [|c0 rest].
    { exists (Rolling.init window capacity start). split; [reflexivity|].
      split; [reflexivity|]. split; [cbn; lra|]. split; [cbn; lra|].
      split; [reflexivity|]. split; [cbn; lia|]. intros; discriminate. }
    destruct (record_all_invariant (c0 :: rest) (Rolling.init window capacity start)
                (fst (fst c0)))
      as (self' & Hrun & Hw & Hm & Hst & Ht & He & Hsuf & Ho & Hl & Hwin).
    { exact Hcap. }
    { constructor. }
    { constructor. }
    { cbn [map]. constructor; [exact Hclock|].
      constructor; [lra|]. cbn [map] in Hclock. inversion Hclock. assumption. }
    cbn [Rolling.init Rolling._values Rolling._total_count Rolling._error_count
         Rolling.max_samples Rolling.window_seconds app Nat.add] in *.
    exists self'. split; [exact Hrun|].
    split; [unfold Rolling.get_total_count; rewrite Ht, He; reflexivity|].
    assert (Hcount : (Rolling._error_count self' <= Rolling._total_count self')%nat).
    { rewrite Ht, He. apply List.filter_length_le. }
    destruct (error_rate_range self' Hcount) as [H0 H1].
    split; [exact H0|]. split; [exact H1|]. split; [exact Hsuf|].
    split; [apply Hl; discriminate|]. exact Hwin.
  - intros Hcap self value success now Hmax. unfold Rolling.record.
    rewrite Hmax, (limit_size_negative capacity _ Hcap). reflexivity.
Qed.

(** Three records, the last one failed, into a window of ten seconds
    that holds two samples. *)
Lemma rolling_record_run_witness :
  exists self',
    Rolling.record_all (Rolling.init 10 2 0) [(1, 5, true); (2, 7, true); (13, 9, false)]
    = inr self' /\
    Rolling.get_total_count self' = (3%nat, 1%nat) /\
    (Z.of_nat (length (Rolling._values self')) <= 2)%Z.
Proof.
  destruct (proj1 (rolling_record_run 10 2 0 [(1, 5, true); (2, 7, true); (13, 9, false)]))
    as (self' & Hrun & Hc & _ & _ & _ & Hl & _).
  - lia.
  - repeat constructor; apply Qleb_le; reflexivity.
  - exists self'. split; [exact Hrun|]. split; [exact Hc | exact Hl].
Defined.

End HealthMore.
